(** * LendSynthetix front-end: decision logic and shipped fixtures

    A shallow embedding of the TypeScript sources that carry decision logic:

    - [lib/utils.ts]                  ([confidenceFromVariance])
    - [lib/demo-cases.ts]             ([applyConfidence], [DEMO_CASES])
    - the dashboard page              ([MOCK_LOANS])
    - the decision page               ([FALLBACK_LOAN], [FALLBACK_MEMOS])
    - [components/DebateTimeline]     ([groupIntoRounds])
    - [components/RiskPanel]          ([aggregateRisk], the overall gauge)
    - [components/DecisionSummary]    (the approval-threshold line)

    A JavaScript [number] is an IEEE-754 binary64 value, so numbers are
    modelled by Rocq's primitive [float] and every arithmetic operation
    below rounds exactly as the source does. *)

From Stdlib Require Import ZArith QArith Qround Qminmax Qabs Floats Uint63 List Bool Lia.
From stdpp Require Import gmap strings list.
From stdpp Require Import pretty.

Set Warnings "-inexact-float".
Local Open Scope float_scope.

(** ** JavaScript numbers *)

Module JS.

(** An integer as a [number]; exact for magnitudes up to 2^53. *)
Definition of_int (z : Z) : float :=
  if (z <? 0)%Z then - of_uint63 (Uint63.of_Z (- z))
  else of_uint63 (Uint63.of_Z z).

(** [x >= y] on numbers (false as soon as one side is NaN). *)
Definition geb (x y : float) : bool := y <=? x.

(** [x <= y] on numbers. *)
Definition leb (x y : float) : bool := x <=? y.

(** [Math.abs]. *)
Definition Math_abs (x : float) : float := abs x.

(** The integer [floor (x + 1/2)] for the finite number
    [x = (-1)^s * m * 2^e], computed without rounding. *)
Definition round_half_up (s : bool) (m : positive) (e : Z) : Z :=
  let n := if s then Z.neg m else Z.pos m in
  match e with
  | Z.neg k => Z.shiftr (n + Z.shiftl 1 (Z.pos k - 1)) (Z.pos k)
  | _ => Z.shiftl n e
  end.

(** [Math.round]: the nearest integer, ties towards +infinity;
    NaN, the infinities, the zeros and the integers are returned as they
    are, and a negative argument that rounds to zero gives [-0]. *)
Definition Math_round (x : float) : float :=
  match Prim2SF x with
  | S754_finite s m (Z.neg k) =>
      let n := round_half_up s m (Z.neg k) in
      if (n =? 0)%Z then (if s then neg_zero else zero) else of_int n
  | _ => x
  end.

(** [Math.max] of two numbers: NaN if either is NaN, and [+0] is larger
    than [-0]. *)
Definition Math_max (a b : float) : float :=
  if is_nan a || is_nan b then nan
  else if a <? b then b
  else if b <? a then a
  else if get_sign a then b else a.

(** [Math.min] of two numbers: NaN if either is NaN, and [-0] is smaller
    than [+0]. *)
Definition Math_min (a b : float) : float :=
  if is_nan a || is_nan b then nan
  else if a <? b then a
  else if b <? a then b
  else if get_sign a then a else b.

End JS.

(** ** types/index.ts *)

Module Types.

Inductive LoanStatus := Pending | Approved | Rejected.

Inductive AgentType := Sales | Risk | Compliance | Moderator.

(** Optional or nullable fields ([?:], [| null]) are [option]s: [None]
    stands for both [undefined] and [null], which the sources never tell
    apart (they test with [!= null] and [??]). *)
Record ExtractionResult := {
  revenue : option float;
  debt : option float;
  dscr : option float;
  collateral_present : option bool;
  compliance_keywords : option (list string)
}.

Record AgentMemo := {
  memo_id : string;
  agent_type : AgentType;
  content : string;
  risk_score : option float;
  memo_created_at : string
}.

Record CategoryScore := {
  score : float;
  evidence : list string
}.

Record RiskMatrix := {
  financial_risk : CategoryScore;
  growth_strength : CategoryScore;
  regulatory_risk : CategoryScore;
  reputation_risk : CategoryScore
}.

Record LoanApplication := {
  loan_id : string;
  company_name : string;
  industry : string;
  requested_amount : float;
  extracted_financials : option ExtractionResult;
  status : LoanStatus;
  workflow_state : string;
  final_score : option float;
  compliance_flag : bool;
  confidence_score : option float;
  loan_created_at : string;
  agent_memos : option (list AgentMemo)
}.

#[global] Instance LoanStatus_eq_dec : EqDecision LoanStatus.
Proof. solve_decision. Defined.

#[global] Instance AgentType_eq_dec : EqDecision AgentType.
Proof. solve_decision. Defined.

(** The four roles are numbered so that they can key a finite map. *)
Definition AgentType_code (a : AgentType) : positive :=
  match a with
  | Sales => 1 | Risk => 2 | Compliance => 3 | Moderator => 4
  end%positive.

Definition AgentType_of_code (p : positive) : AgentType :=
  match p with
  | 1 => Sales | 2 => Risk | 3 => Compliance | _ => Moderator
  end%positive.

#[global] Program Instance AgentType_countable : Countable AgentType :=
  inj_countable' AgentType_code AgentType_of_code _.
Next Obligation. by intros []. Qed.

(** [m.agent_type === "..."]. *)
Definition agent_is (a : AgentType) (m : AgentMemo) : bool :=
  bool_decide (agent_type m = a).

End Types.

Import JS Types.

(** ** lib/utils.ts *)

Module Utils.

Definition confidenceFromVariance (salesScore riskScore : float) : float :=
  let variance := Math_abs (salesScore - riskScore) in
  let confidence :=
    if variance <=? 10 then 1.0 - 0.01 * variance
    else if variance <=? 20 then 0.9 - 0.02 * (variance - 10)
    else if variance <=? 40 then 0.7 - 0.01 * (variance - 20)
    else Math_max 0.1 (0.5 - 0.005 * (variance - 40)) in
  Math_round (confidence * 100) / 100.

End Utils.

Import Utils.

(** ** lib/demo-cases.ts *)

Module DemoCases.

Record DemoCase := {
  loan : LoanApplication;
  memos : list AgentMemo;
  riskMatrix : RiskMatrix
}.

(** [new Date().toISOString()]: the clock is read once and for all; no
    definition below inspects a timestamp. *)
Definition now : string := "1970-01-01T00:00:00.000Z".

(** [c.loan.confidence_score = v; return c]: the case is its own single
    owner, so the in-place write is a functional update of one field. *)
Definition set_confidence_score (c : DemoCase) (v : float) : DemoCase :=
  let l := loan c in
  {| loan :=
       {| loan_id := loan_id l;
          company_name := company_name l;
          industry := industry l;
          requested_amount := requested_amount l;
          extracted_financials := extracted_financials l;
          status := status l;
          workflow_state := workflow_state l;
          final_score := final_score l;
          compliance_flag := compliance_flag l;
          confidence_score := Some v;
          loan_created_at := loan_created_at l;
          agent_memos := agent_memos l |};
     memos := memos c;
     riskMatrix := riskMatrix c |}.

(** [memo?.risk_score], [null] and [undefined] merged. *)
Definition risk_score_of (memo : option AgentMemo) : option float :=
  match memo with
  | Some m => risk_score m
  | None => None
  end.

Definition applyConfidence (c : DemoCase) : DemoCase :=
  if compliance_flag (loan c) then set_confidence_score c 1.0
  else
    let salesMemo := find (agent_is Sales) (memos c) in
    let riskMemo := find (agent_is Risk) (memos c) in
    match risk_score_of salesMemo, risk_score_of riskMemo with
    | Some sales, Some risk =>
        set_confidence_score c (confidenceFromVariance sales risk)
    | _, _ => c
    end.

Definition case_1 : DemoCase := {|
  loan := {|
    loan_id := "case-1";
    company_name := "TechStart Inc";
    industry := "Technology";
    requested_amount := 5000000;
    status := Rejected;
    workflow_state := "FINALIZED";
    final_score := Some 16.0;
    compliance_flag := false;
    extracted_financials := Some {|
      revenue := Some 25000000;
      debt := Some 8000000;
      dscr := Some 1.1;
      collateral_present := Some false;
      compliance_keywords := Some [] |};
    confidence_score := None;
    loan_created_at := now;
    agent_memos := None |};
  memos := [
    {| memo_id := "c1-1"; agent_type := Sales;
       content := "Strong growth trajectory. Revenue $25M with expansion potential. Recommend approval.";
       risk_score := Some 85; memo_created_at := now |};
    {| memo_id := "c1-2"; agent_type := Risk;
       content := "DSCR weak at 1.1, no collateral. High risk profile. Skeptical.";
       risk_score := Some 45; memo_created_at := now |};
    {| memo_id := "c1-3"; agent_type := Compliance;
       content := "No compliance issues identified.";
       risk_score := Some 90; memo_created_at := now |};
    {| memo_id := "c1-4"; agent_type := Moderator;
       content := "Moderator synthesis: Sales/Risk divergence > 20. Blended view suggests caution despite growth.";
       risk_score := Some 62; memo_created_at := now |} ];
  riskMatrix := {|
    financial_risk := {| score := 6;
      evidence := ["DSCR 1.10 below 1.25 typical covenant"; "Debt/Revenue 0.3x"] |};
    growth_strength := {| score := 7;
      evidence := ["Revenue $25.0M solid base"; "DSCR 1.10 constrains growth capacity"] |};
    regulatory_risk := {| score := 1; evidence := ["No compliance keywords detected"] |};
    reputation_risk := {| score := 1; evidence := ["No reputation risk keywords detected"] |} |}
|}.

Definition case_2 : DemoCase := {|
  loan := {|
    loan_id := "case-2";
    company_name := "ManufacturingCo Ltd";
    industry := "Manufacturing";
    requested_amount := 10000000;
    status := Rejected;
    workflow_state := "FINALIZED";
    final_score := Some 0.0;
    compliance_flag := true;
    extracted_financials := Some {|
      revenue := Some 50000000;
      debt := Some 12000000;
      dscr := Some 1.4;
      collateral_present := Some true;
      compliance_keywords := Some ["grey list"] |};
    confidence_score := None;
    loan_created_at := now;
    agent_memos := None |};
  memos := [
    {| memo_id := "c2-1"; agent_type := Sales;
       content := "Strong assets and revenue base. Solid manufacturing profile.";
       risk_score := Some 75; memo_created_at := now |};
    {| memo_id := "c2-2"; agent_type := Risk;
       content := "Solid financial profile. DSCR adequate, collateral present.";
       risk_score := Some 70; memo_created_at := now |};
    {| memo_id := "c2-3"; agent_type := Compliance;
       content := "Director on grey list. Immediate block. Compliance veto.";
       risk_score := Some 15; memo_created_at := now |} ];
  riskMatrix := {|
    financial_risk := {| score := 4;
      evidence := ["DSCR 1.40 adequate buffer"; "Debt/Revenue 0.2x";
                   "Collateral present reduces financial risk"] |};
    growth_strength := {| score := 9;
      evidence := ["Revenue $50M indicates scale"; "DSCR 1.40 suggests strong cash flow";
                   "Collateral supports financing capacity"] |};
    regulatory_risk := {| score := 3; evidence := ["Keyword detected: grey list"] |};
    reputation_risk := {| score := 3; evidence := ["Keyword detected: grey list"] |} |}
|}.

Definition case_3 : DemoCase := {|
  loan := {|
    loan_id := "case-3";
    company_name := "StrugglingBiz LLC";
    industry := "Retail";
    requested_amount := 1500000;
    status := Rejected;
    workflow_state := "FINALIZED";
    final_score := Some 12.0;
    compliance_flag := false;
    extracted_financials := Some {|
      revenue := Some 2000000;
      debt := Some 4000000;
      dscr := Some 0.8;
      collateral_present := Some false;
      compliance_keywords := Some [] |};
    confidence_score := None;
    loan_created_at := now;
    agent_memos := None |};
  memos := [
    {| memo_id := "c3-1"; agent_type := Sales;
       content := "Growth potential in niche market. Some upside.";
       risk_score := Some 55; memo_created_at := now |};
    {| memo_id := "c3-2"; agent_type := Risk;
       content := "Weak DSCR 0.8, high leverage (2x Debt/Revenue). Reject.";
       risk_score := Some 25; memo_created_at := now |};
    {| memo_id := "c3-3"; agent_type := Compliance;
       content := "Clean. No compliance flags.";
       risk_score := Some 85; memo_created_at := now |} ];
  riskMatrix := {|
    financial_risk := {| score := 9;
      evidence := ["DSCR 0.80 below 1.0 (cannot cover debt service)";
                   "Debt/Revenue 2.0x moderate leverage"] |};
    growth_strength := {| score := 4;
      evidence := ["Revenue $2.0M"; "DSCR 0.80 constrains growth capacity"] |};
    regulatory_risk := {| score := 1; evidence := ["No compliance keywords detected"] |};
    reputation_risk := {| score := 1; evidence := ["No reputation risk keywords detected"] |} |}
|}.

Definition case_4 : DemoCase := {|
  loan := {|
    loan_id := "case-4";
    company_name := "MidCap Industries";
    industry := "Manufacturing";
    requested_amount := 3000000;
    status := Approved;
    workflow_state := "FINALIZED";
    final_score := Some 20.4;
    compliance_flag := false;
    extracted_financials := Some {|
      revenue := Some 15000000;
      debt := Some 5000000;
      dscr := Some 1.35;
      collateral_present := Some true;
      compliance_keywords := Some [] |};
    confidence_score := None;
    loan_created_at := now;
    agent_memos := None |};
  memos := [
    {| memo_id := "c4-1"; agent_type := Sales;
       content := "Healthy profile. Strong DSCR, collateral. Approve.";
       risk_score := Some 86; memo_created_at := now |};
    {| memo_id := "c4-2"; agent_type := Risk;
       content := "Strong DSCR 1.35, manageable leverage. Proceed.";
       risk_score := Some 35; memo_created_at := now |};
    {| memo_id := "c4-3"; agent_type := Compliance;
       content := "No flags. Clean.";
       risk_score := Some 88; memo_created_at := now |} ];
  riskMatrix := {|
    financial_risk := {| score := 4;
      evidence := ["DSCR 1.35 adequate buffer"; "Debt/Revenue 0.3x";
                   "Collateral present reduces financial risk"] |};
    growth_strength := {| score := 8;
      evidence := ["Revenue $15.0M solid base"; "DSCR 1.35 supports growth capacity";
                   "Collateral supports financing capacity"] |};
    regulatory_risk := {| score := 1; evidence := ["No compliance keywords detected"] |};
    reputation_risk := {| score := 1; evidence := ["No reputation risk keywords detected"] |} |}
|}.

(** The array literal, before [.map(applyConfidence)]. *)
Definition DEMO_CASES_literal : list DemoCase := [case_1; case_2; case_3; case_4].

Definition DEMO_CASES : list DemoCase := map applyConfidence DEMO_CASES_literal.

Definition getDemoCase (id : string) : option DemoCase :=
  find (fun c => bool_decide (loan_id (loan c) = id)) DEMO_CASES.

End DemoCases.

Import DemoCases.

(** ** The dashboard page *)

Module Dashboard.

Definition MOCK_LOANS : list LoanApplication := [
  {| loan_id := "demo-1";
     company_name := "Acme Corp";
     industry := "Manufacturing";
     requested_amount := 2500000;
     status := Approved;
     workflow_state := "FINALIZED";
     final_score := Some 28.4;
     compliance_flag := false;
     confidence_score := Some (confidenceFromVariance 80 72);
     loan_created_at := now;
     extracted_financials := None;
     agent_memos := None |};
  {| loan_id := "demo-2";
     company_name := "Beta Industries";
     industry := "Technology";
     requested_amount := 1200000;
     status := Pending;
     workflow_state := "INITIAL_REVIEW";
     final_score := None;
     compliance_flag := false;
     confidence_score := None;
     loan_created_at := now;
     extracted_financials := None;
     agent_memos := None |};
  {| loan_id := "demo-3";
     company_name := "Gamma Holdings";
     industry := "Finance";
     requested_amount := 5000000;
     status := Rejected;
     workflow_state := "FINALIZED";
     final_score := Some 12.0;
     compliance_flag := true;
     confidence_score := Some 1.0;
     loan_created_at := now;
     extracted_financials := None;
     agent_memos := None |} ].

(** The "Simulate Cases" button: [DEMO_CASES.map((c) => c.loan)]. *)
Definition demoLoans : list LoanApplication := map loan DEMO_CASES.

End Dashboard.

Import Dashboard.

(** ** The decision page *)

Module DecisionPage.

Definition FALLBACK_LOAN : LoanApplication := {|
  loan_id := "demo-1";
  company_name := "Acme Corp";
  industry := "Manufacturing";
  requested_amount := 2500000;
  status := Approved;
  workflow_state := "FINALIZED";
  final_score := Some 28.4;
  compliance_flag := false;
  confidence_score := Some 0.82;
  extracted_financials := Some {|
    revenue := Some 12000000;
    debt := Some 5000000;
    dscr := Some 1.25;
    collateral_present := Some true;
    compliance_keywords := Some [] |};
  loan_created_at := now;
  agent_memos := None
|}.

Definition FALLBACK_MEMOS : list AgentMemo := [
  {| memo_id := "1"; agent_type := Sales;
     content := "Strong revenue growth and collateral support. Recommend approval.";
     risk_score := Some 72; memo_created_at := now |};
  {| memo_id := "2"; agent_type := Risk;
     content := "DSCR adequate. Leverage moderate. Proceed with covenant monitoring.";
     risk_score := Some 58; memo_created_at := now |};
  {| memo_id := "3"; agent_type := Compliance;
     content := "No compliance issues identified. Clean screening.";
     risk_score := Some 88; memo_created_at := now |};
  {| memo_id := "4"; agent_type := Moderator;
     content := "Consensus reached. Risk-adjusted score supports approval.";
     risk_score := Some 68; memo_created_at := now |} ].

Definition FALLBACK_RISK : RiskMatrix := {|
  financial_risk := {| score := 4; evidence := ["DSCR 1.25 adequate buffer"; "Debt/Revenue 0.4x"] |};
  growth_strength := {| score := 8; evidence := ["Revenue $12M solid base"; "Collateral supports capacity"] |};
  regulatory_risk := {| score := 1; evidence := ["No compliance keywords"] |};
  reputation_risk := {| score := 1; evidence := ["No reputation keywords"] |}
|}.

End DecisionPage.

Import DecisionPage.

(** ** components/DebateTimeline *)

Module DebateTimeline.

Record RoundedMemo := {
  round : nat;
  memo : AgentMemo
}.

(** One iteration of the [for (const memo of memos)] loop over the
    pair ([result], [agentCounts]).  [agentCounts[k] || 0] reads 0 for a
    key that was never written; the written counts are at least 1. *)
Definition groupIntoRounds_step
  (st : list RoundedMemo * gmap AgentType nat) (memo : AgentMemo)
  : list RoundedMemo * gmap AgentType nat :=
  let '(result, agentCounts) := st in
  let count := default 0%nat (agentCounts !! agent_type memo) in
  (result ++ [ {| round := count; memo := memo |} ],
   <[ agent_type memo := (count + 1)%nat ]> agentCounts).

Definition groupIntoRounds (memos : list AgentMemo) : list RoundedMemo :=
  if decide (length memos = 0%nat) then []
  else fst (foldl groupIntoRounds_step ([], ∅) memos).

End DebateTimeline.

Import DebateTimeline.

(** ** components/RiskPanel *)

Module RiskPanel.

Definition aggregateRisk (rm : RiskMatrix) : float :=
  let r :=
    (score (financial_risk rm) + score (regulatory_risk rm) + score (reputation_risk rm)) / 3 in
  let g := score (growth_strength rm) in
  Math_round ((r * 0.6 - g * 0.1 + 5) / 1.5).

(** The [useMemo] body of [RiskPanel]. *)
Definition overallRisk (riskMatrix : RiskMatrix) : float :=
  Math_min 10 (Math_max 1 (aggregateRisk riskMatrix)).

End RiskPanel.

Import RiskPanel.

(** ** components/DecisionSummary *)

Module DecisionSummary.

(** The word shown in the "... approval threshold" line, rendered only
    when [loan.final_score != null]. *)
Definition thresholdSide (loan : LoanApplication) : option string :=
  match final_score loan with
  | Some f => Some (if geb f 20 then "above" else "below")
  | None => None
  end.

End DecisionSummary.

Import DecisionSummary.

(** ** Vocabulary of the properties *)

Module Props.

(** The records the front-end ships on its own: the demo cases, the
    dashboard mocks and the decision page's fallback. *)
Definition shipped_loans : list LoanApplication :=
  demoLoans ++ MOCK_LOANS ++ [FALLBACK_LOAN].

(** The debate records shipped with the front-end: the memo lists of the
    demo cases and the fallback memos of the decision page. *)
Definition shipped_debates : list (list AgentMemo) :=
  map memos DEMO_CASES ++ [FALLBACK_MEMOS].

Definition finalized (l : LoanApplication) : bool :=
  bool_decide (workflow_state l = "FINALIZED").

(** |sales.risk_score - risk.risk_score| of a debate, when both round-0
    scores are there. *)
Definition divergence (ms : list AgentMemo) : option float :=
  match risk_score_of (find (agent_is Sales) ms),
        risk_score_of (find (agent_is Risk) ms) with
  | Some s, Some r => Some (Math_abs (s - r))
  | _, _ => None
  end.

Definition has_moderator (ms : list AgentMemo) : bool :=
  existsb (agent_is Moderator) ms.

(** Number of memos before position [i] written by the role of [m]. *)
Definition earlier_same_role (ms : list AgentMemo) (i : nat) (m : AgentMemo) : nat :=
  length (filter (fun m' => agent_type m' = agent_type m) (take i ms)).

(** The confidence law in exact rational arithmetic, as the
    specification words it, on the variance [v]. *)
Definition confidence_law (v : Q) : Q :=
  if Qle_bool v 10 then 1 - (1 # 100) * v
  else if Qle_bool v 20 then (9 # 10) - (2 # 100) * (v - 10)
  else if Qle_bool v 40 then (7 # 10) - (1 # 100) * (v - 20)
  else Qmax (1 # 10) ((1 # 2) - (5 # 1000) * (v - 40)).

(** Rounding half-up to two decimals, as a number of hundredths. *)
Definition round_half_up_hundredths (q : Q) : Z :=
  Qfloor (q * 100 + (1 # 2)).

(** The specified confidence of a pair of integer scores, in hundredths. *)
Definition confidence_spec (sales risk : Z) : Z :=
  round_half_up_hundredths (confidence_law (Qabs (inject_Z sales - inject_Z risk))).

(** The number [k / 100]: the double closest to the two-decimal value. *)
Definition hundredths (k : Z) : float := of_int k / 100.

(** The integer variances at which binary evaluation of the law falls
    just under a half and rounds one hundredth low. *)
Definition rounds_low (v : Z) : bool :=
  ((v =? 75) || (v =? 95) || (v =? 97))%Z.

(** A finite number: neither NaN nor an infinity. *)
Definition finite_score (c : CategoryScore) : Prop :=
  is_finite (score c) = true.

(** [agentCounts] after the loop has consumed the prefix [p]. *)
Definition counts_of (counts : gmap AgentType nat) (p : list AgentMemo) : Prop :=
  forall a, default 0%nat (counts !! a) = length (filter (fun m' => agent_type m' = a) p).

(** Demo case 3 with its Risk memo gone, as after an agent failure. *)
Definition case_3_without_risk : DemoCase := {|
  loan := loan case_3;
  memos := filter (fun m => agent_type m <> Risk) (memos case_3);
  riskMatrix := riskMatrix case_3
|}.

(** [p] holds at every integer of [0 .. n]. *)
Definition all_upto (n : nat) (p : Z -> bool) : bool :=
  forallb p (map Z.of_nat (seq 0 (S n))).

(** The amended confidence law at one pair of integer scores, as a
    test: the computed number is the specified hundredths (one less at
    the variances of [rounds_low]) and lies in [0.10, 1.00]. *)
Definition law_holds_at (sales risk : Z) : bool :=
  let c := confidenceFromVariance (of_int sales) (of_int risk) in
  let k := confidence_spec sales risk in
  PrimFloat.Leibniz.eqb c
    (hundredths (if rounds_low (Z.abs (sales - risk)) then k - 1 else k))
  && leb 0.1 c && leb c 1.

(** The confidence of a pair depends on its variance only, as a test. *)
Definition variance_only_at (sales risk : Z) : bool :=
  PrimFloat.Leibniz.eqb
    (confidenceFromVariance (of_int sales) (of_int risk))
    (confidenceFromVariance (of_int (Z.abs (sales - risk))) (of_int 0)).

(** Between two integer variances the confidence does not increase, as
    a test. *)
Definition non_increasing_at (v1 v2 : Z) : bool :=
  negb (v1 <? v2)%Z ||
  leb (confidenceFromVariance (of_int v2) (of_int 0))
      (confidenceFromVariance (of_int v1) (of_int 0)).

(** A zero or a finite non-zero double. *)
Definition SFfin (x : spec_float) : bool :=
  match x with
  | S754_zero _ | S754_finite _ _ _ => true
  | _ => false
  end.

(** A finite non-zero double. *)
Definition SFnz (x : spec_float) : bool :=
  match x with
  | S754_finite _ _ _ => true
  | _ => false
  end.

(** A finite non-zero double of magnitude below one half. *)
Definition SFsmall (x : spec_float) : bool :=
  match x with
  | S754_finite _ m e => ((e <=? 0) && (Zdigits2 (Z.pos m) + e <=? -1))%Z
  | _ => false
  end.

End Props.

Import Props.

(** ** More vocabulary *)

Module MoreProps.

(** The band of the confidence table a pair of integer scores falls in,
    as a test: 90-100% up to variance 10, 70-90% up to 20, 50-70% up to
    40, and 20-50% beyond. *)
Definition band_holds_at (sales risk : Z) : bool :=
  let c := confidenceFromVariance (of_int sales) (of_int risk) in
  let v := Z.abs (sales - risk) in
  if (v <=? 10)%Z then leb 0.9 c && leb c 1
  else if (v <=? 20)%Z then leb 0.7 c && leb c 0.9
  else if (v <=? 40)%Z then leb 0.5 c && leb c 0.7
  else leb 0.2 c && leb c 0.5.

(** The case [c] with further memos appended to its debate. *)
Definition with_more_memos (c : DemoCase) (extra : list AgentMemo) : DemoCase :=
  {| loan := loan c; memos := memos c ++ extra; riskMatrix := riskMatrix c |}.

(** The loan [l] with its [confidence_score] blanked out. *)
Definition without_confidence (l : LoanApplication) : LoanApplication :=
  {| loan_id := loan_id l;
     company_name := company_name l;
     industry := industry l;
     requested_amount := requested_amount l;
     extracted_financials := extracted_financials l;
     status := status l;
     workflow_state := workflow_state l;
     final_score := final_score l;
     compliance_flag := compliance_flag l;
     confidence_score := None;
     loan_created_at := loan_created_at l;
     agent_memos := agent_memos l |}.

(** A risk matrix with the given whole-number scores and no evidence. *)
Definition matrix_of_scores (fin growth reg rep : Z) : RiskMatrix :=
  {| financial_risk := {| score := of_int fin; evidence := [] |};
     growth_strength := {| score := of_int growth; evidence := [] |};
     regulatory_risk := {| score := of_int reg; evidence := [] |};
     reputation_risk := {| score := of_int rep; evidence := [] |} |}.

(** [p] holds at every quadruple of integers of [0 .. 10]. *)
Definition all_matrices (p : Z -> Z -> Z -> Z -> bool) : bool :=
  all_upto 10 (fun a => all_upto 10 (fun b =>
    all_upto 10 (fun c => all_upto 10 (fun d => p a b c d)))).

(** The aggregate of a matrix with whole-number scores in exact integer
    arithmetic: (0.6 * (fin + reg + rep) / 3 - 0.1 * growth + 5) / 1.5
    rounded half-up. *)
Definition aggregate_exact (fin growth reg rep : Z) : Z :=
  ((4 * (fin + reg + rep) - 2 * growth + 115) / 30)%Z.

(** The gauge of a whole-number matrix is the exact aggregate, which the
    clamp leaves alone, as a test. *)
Definition gauge_exact_at (fin growth reg rep : Z) : bool :=
  let rm := matrix_of_scores fin growth reg rep in
  PrimFloat.Leibniz.eqb (overallRisk rm) (of_int (aggregate_exact fin growth reg rep))
  && PrimFloat.Leibniz.eqb (overallRisk rm) (aggregateRisk rm).

(** [of_int] keeps the order of two small integers, as a test. *)
Definition of_int_le_at (n n' : Z) : bool :=
  negb (n <=? n')%Z || leb (of_int n) (of_int n').

(** Number of memos of [ms] written by role [a]. *)
Definition count_role (a : AgentType) (ms : list AgentMemo) : nat :=
  length (filter (fun m' => agent_type m' = a) ms).

(** The shape of a double that is zero or below. *)
Definition SFnonpos (x : spec_float) : Prop :=
  match x with
  | S754_zero _ | S754_infinity true | S754_finite true _ _ => True
  | _ => False
  end.

(** The shape of a double of at least 2^4. *)
Definition SFbig (x : spec_float) : Prop :=
  match x with
  | S754_infinity false => True
  | S754_finite false _ e => (-48 <= e)%Z
  | _ => False
  end.

End MoreProps.

Import MoreProps.

(** ** lib/demo-cases.ts: lookup by id *)

Module DemoLookup.

(** [new Set(DEMO_CASES.map((c) => c.loan.id))]. *)
Definition DEMO_CASE_IDS : gset string :=
  list_to_set (map (fun c => loan_id (loan c)) DEMO_CASES).

Definition isDemoCase (id : string) : bool :=
  bool_decide (id ∈ DEMO_CASE_IDS).

End DemoLookup.

Import DemoLookup.

(** ** components/DebateTimeline: the rounds as rendered *)

Module DebateTimelineView.

(** [{ memo: AgentMemo }]. *)
Record Item := {
  item_memo : AgentMemo
}.

(** [{ round: number; items: { memo: AgentMemo }[] }]. *)
Record RoundGroup := {
  group_round : nat;
  items : list Item
}.

(** One iteration of the [for (const g of grouped)] loop.  [rounds.find]
    returns the first group with the round of [g]; the [push] on its
    [items] is a write at the position where it was found.  With no such
    group a fresh one is pushed at the end and receives the item. *)
Definition rounds_step (rounds : list RoundGroup) (g : RoundedMemo) : list RoundGroup :=
  match list_find (fun r => group_round r = round g) rounds with
  | Some (i, roundGroup) =>
      <[ i := {| group_round := group_round roundGroup;
                 items := items roundGroup ++ [ {| item_memo := memo g |} ] |} ]> rounds
  | None =>
      rounds ++ [ {| group_round := round g;
                     items := [] ++ [ {| item_memo := memo g |} ] |} ]
  end.

(** The [rounds] array of [DebateTimeline] for the given memos. *)
Definition rounds (memos : list AgentMemo) : list RoundGroup :=
  foldl rounds_step [] (groupIntoRounds memos).

End DebateTimelineView.

Import DebateTimelineView.

Module ViewProps.

(** The group of round [k] as it should be: the memos tagged [k], in
    the order of the debate. *)
Definition group_of (k : nat) (grouped : list RoundedMemo) : RoundGroup :=
  {| group_round := k;
     items := (fun g => {| item_memo := memo g |}) <$> filter (fun g => round g = k) grouped |}.

(** All the memos shown, group after group. *)
Definition shown_memos (rs : list RoundGroup) : list AgentMemo :=
  item_memo <$> concat (items <$> rs).

(** The state of the loop after the memos [ms]: the group at position
    [k] is the group of round [k], no role has written more memos than
    there are groups, and no group is empty. *)
Definition rounds_inv (ms : list AgentMemo) (rs : list RoundGroup) : Prop :=
  (forall k r, rs !! k = Some r -> r = group_of k (groupIntoRounds ms)) /\
  (forall a, (count_role a ms <= length rs)%nat) /\
  (forall k, (k < length rs)%nat -> exists g, g ∈ groupIntoRounds ms /\ round g = k).

End ViewProps.

Import ViewProps.

(** ** components/DebateTimeline: the round headers *)

Module DebateTimelineLabels.

(** [round.round === 0 ? "Initial Review" : `Debate Round ${round.round}`];
    a round index is a small whole number, which a template literal
    prints in decimal. *)
Definition roundLabel (r : RoundGroup) : string :=
  if decide (group_round r = 0%nat) then "Initial Review"
  else "Debate Round " +:+ pretty (group_round r).

End DebateTimelineLabels.

Import DebateTimelineLabels.

(** ** components/ChatPanel *)

Module ChatPanel.

Inductive Role := user | assistant.

Record Message := {
  msg_role : Role;
  msg_content : string
}.

#[global] Instance Role_eq_dec : EqDecision Role.
Proof. solve_decision. Defined.

(** The [history] sent with a question:
    [messages.filter((m) => m.role !== "assistant" || messages.indexOf(m) > 0)].
    Every message is an object of its own, so [indexOf] finds it at
    its own position. *)
Definition history (messages : list Message) : list Message :=
  snd <$> filter (fun im => msg_role (snd im) <> assistant \/ (0 < fst im)%nat)
                 (imap pair messages).

End ChatPanel.

Import ChatPanel.

(** ** lib/api.ts *)

Module Api.

(** [process.env.NEXT_PUBLIC_API_URL || "http://localhost:8000"]: an
    unset or empty variable gives the default. *)
Definition API_BASE (NEXT_PUBLIC_API_URL : option string) : string :=
  match NEXT_PUBLIC_API_URL with
  | Some (String c s) => String c s
  | _ => "http://localhost:8000"
  end.

Definition getDecisionPdfUrl (env : option string) (loanId : string) : string :=
  API_BASE env +:+ "/api/decision/" +:+ loanId +:+ "/memo/pdf".

End Api.

Import Api.

(** ** components/DecisionSummary: the figures shown *)

Module DecisionSummaryView.

(** The integer [n] closest to [m * 2^e * 10^f], the larger one on a
    tie: the digits [Number.prototype.toFixed] prints. *)
Definition nearest_scaled (m : positive) (e : Z) (f : nat) : Z :=
  let num := (Z.pos m * 10 ^ Z.of_nat f)%Z in
  match e with
  | Z.neg k => ((2 * num + 2 ^ Z.pos k) / 2 ^ (Z.pos k + 1))%Z
  | _ => (num * 2 ^ e)%Z
  end.

(** [m * 2^e >= 10^21]. *)
Definition at_least_1e21 (m : positive) (e : Z) : bool :=
  match e with
  | Z.neg k => (10 ^ 21 * 2 ^ Z.pos k <=? Z.pos m)%Z
  | _ => (10 ^ 21 <=? Z.pos m * 2 ^ e)%Z
  end.

Fixpoint zeros (n : nat) : string :=
  match n with
  | O => EmptyString
  | S k => "0" +:+ zeros k
  end.

(** The decimal point of [toFixed]: the digits are padded with zeros on
    the left up to [f + 1] characters and the point goes before the last
    [f] of them. *)
Definition insert_point (digits : string) (f : nat) : string :=
  match f with
  | O => digits
  | _ =>
      let m := if (String.length digits <=? f)%nat
               then zeros (f + 1 - String.length digits) +:+ digits
               else digits in
      let k := String.length m in
      String.substring 0 (k - f) m +:+ "." +:+ String.substring (k - f) f m
  end.

(** [x.toFixed(f)].  Magnitudes from 10^21 on are printed by
    [Number.prototype.toString] in exponent form, which is not modelled:
    the result is [None] there. *)
Definition toFixed (x : float) (f : nat) : option string :=
  match Prim2SF x with
  | S754_nan => Some "NaN"
  | S754_infinity false => Some "Infinity"
  | S754_infinity true => Some "-Infinity"
  | S754_zero _ => Some (insert_point "0" f)
  | S754_finite s m e =>
      if at_least_1e21 m e then None
      else Some ((if s then "-" else EmptyString)
                 +:+ insert_point (pretty (nearest_scaled m e f)) f)
  end.

(** [loan.final_score != null ? loan.final_score.toFixed(1) : "—"]. *)
Definition scoreText (loan : LoanApplication) : option string :=
  match final_score loan with
  | Some f => toFixed f 1
  | None => Some "—"
  end.

(** [loan.confidence_score != null
      ? `${(loan.confidence_score * 100).toFixed(0)}%` : "—"]. *)
Definition confidenceText (loan : LoanApplication) : option string :=
  match confidence_score loan with
  | Some c => (fun s => s +:+ "%") <$> toFixed (c * 100) 0
  | None => Some "—"
  end.

(** The text of the threshold line:
    [`${Math.abs(loan.final_score - 20).toFixed(1)} points ${side} approval threshold`],
    rendered only when [loan.final_score != null]. *)
Definition thresholdText (loan : LoanApplication) : option string :=
  match final_score loan with
  | Some f =>
      (fun s => s +:+ " points " +:+ (if geb f 20 then "above" else "below")
                  +:+ " approval threshold")
      <$> toFixed (Math_abs (f - 20)) 1
  | None => None
  end.

End DecisionSummaryView.

Import DecisionSummaryView.

Module ShownProps.

(** The number [k / 10]: a score with one decimal. *)
Definition tenths (k : Z) : float := of_int k / 10.

(** [k] tenths written out with one decimal. *)
Definition decimal1 (k : Z) : string :=
  pretty (k / 10)%Z +:+ "." +:+ pretty (k mod 10)%Z.

(** A loan that carries the given score and confidence. *)
Definition loan_showing (score confidence : option float) : LoanApplication :=
  {| loan_id := "shown";
     company_name := "Shown";
     industry := "Shown";
     requested_amount := 0;
     extracted_financials := None;
     status := Pending;
     workflow_state := "FINALIZED";
     final_score := score;
     compliance_flag := false;
     confidence_score := confidence;
     loan_created_at := now;
     agent_memos := None |}.

(** The percentage shown for a pair of integer scores is the confidence
    in hundredths, as a test. *)
Definition percent_shown_at (sales risk : Z) : bool :=
  let k := confidence_spec sales risk in
  bool_decide
    (confidenceText
       (loan_showing None (Some (confidenceFromVariance (of_int sales) (of_int risk)))) =
     Some (pretty (if rounds_low (Z.abs (sales - risk)) then k - 1 else k)%Z +:+ "%")).

(** A score of [k] tenths is shown digit for digit, with its exact
    distance to the threshold and the right side, as a test. *)
Definition score_shown_at (k : Z) : bool :=
  let l := loan_showing (Some (tenths k)) None in
  bool_decide (scoreText l = Some (decimal1 k)) &&
  bool_decide (thresholdText l =
    Some (decimal1 (Z.abs (k - 200)) +:+ " points "
          +:+ (if (200 <=? k)%Z then "above" else "below")
          +:+ " approval threshold")).

End ShownProps.

Import ShownProps.

(** ** The decision finalizer *)

Module Orchestration.

(** Modelled from the spec: the record of a loan on ingestion.  The
    ingestion code is backend code and not among the sources; the
    specification creates a loan with [status = Pending] and
    [workflow_state = INITIAL_REVIEW]. *)
Definition ingested (l : LoanApplication) : Prop :=
  status l = Pending /\ workflow_state l = "INITIAL_REVIEW".

(** Modelled from the spec: the write of a debate stage, which is
    backend code and not among the sources.  A stage moves the workflow
    state, may append memos and, in round 0, records the Compliance
    finding as the flag; it leaves status, score and confidence alone. *)
Definition advance (state : string) (ms : option (list AgentMemo)) (flag : bool)
    (l : LoanApplication) : LoanApplication :=
  {| loan_id := loan_id l;
     company_name := company_name l;
     industry := industry l;
     requested_amount := requested_amount l;
     extracted_financials := extracted_financials l;
     status := status l;
     workflow_state := state;
     final_score := final_score l;
     compliance_flag := flag;
     confidence_score := confidence_score l;
     loan_created_at := loan_created_at l;
     agent_memos := ms |}.

(** Modelled from the spec: the write of the transition to FINALIZED,
    which is backend code and not among the sources: status, score and
    confidence are set and the workflow state becomes FINALIZED. *)
Definition decide_loan (st : LoanStatus) (sc : float) (conf : option float)
    (l : LoanApplication) : LoanApplication :=
  {| loan_id := loan_id l;
     company_name := company_name l;
     industry := industry l;
     requested_amount := requested_amount l;
     extracted_financials := extracted_financials l;
     status := st;
     workflow_state := "FINALIZED";
     final_score := Some sc;
     compliance_flag := compliance_flag l;
     confidence_score := conf;
     loan_created_at := loan_created_at l;
     agent_memos := agent_memos l |}.

(** Modelled from the spec: the ConfidenceEstimator of the backend, not
    among the sources: the confidence of the round-0 Sales/Risk pair,
    undefined when a score is missing.  The formula is the one of
    [confidenceFromVariance]. *)
Definition estimate (l : LoanApplication) : option float :=
  match agent_memos l with
  | Some ms =>
      match risk_score_of (find (agent_is Sales) ms),
            risk_score_of (find (agent_is Risk) ms) with
      | Some sales, Some risk => Some (confidenceFromVariance sales risk)
      | _, _ => None
      end
  | None => None
  end.

(** Modelled from the spec: the ComplianceVetoGate and the
    DecisionFinalizer at COMPLIANCE_CHECK, which are backend code and
    not among the sources.  Under the veto the record is forced to
    Rejected, score 0.0 and confidence 1.00; otherwise the score is the
    one the weighting formula computed ([computed]: the specification
    leaves the formula open), the status is Approved iff that score is
    at least 20.0 and Rejected otherwise, and the confidence is the
    estimator's. *)
Definition finalize (computed : float) (l : LoanApplication) : LoanApplication :=
  if compliance_flag l then decide_loan Rejected 0 (Some 1) l
  else decide_loan (if geb computed 20 then Approved else Rejected)
         computed (estimate l) l.

(** Modelled from the spec: the workflow state machine of the backend
    orchestrator, not among the sources:
    INITIAL_REVIEW -> DEBATE_ROUND_1 -> (DEBATE_ROUND_2) ->
    COMPLIANCE_CHECK -> FINALIZED.  Round 0 appends the memos of the
    agents and records the Compliance finding; the Moderator round runs
    when the Sales/Risk scores diverge by more than 20; nothing leaves
    FINALIZED. *)
Inductive stage : LoanApplication -> LoanApplication -> Prop :=
| round_0 (l : LoanApplication) (ms : list AgentMemo) (blocked : bool) :
    workflow_state l = "INITIAL_REVIEW" ->
    stage l (advance "DEBATE_ROUND_1" (Some (default [] (agent_memos l) ++ ms)) blocked l)
| moderator_round (l : LoanApplication) (ms : list AgentMemo) (v : float) (m : AgentMemo) :
    workflow_state l = "DEBATE_ROUND_1" ->
    agent_memos l = Some ms -> divergence ms = Some v -> (20 <? v) = true ->
    agent_type m = Moderator ->
    stage l (advance "DEBATE_ROUND_2" (Some (ms ++ [m])) (compliance_flag l) l)
| debate_converged (l : LoanApplication) :
    workflow_state l = "DEBATE_ROUND_1" ->
    (forall ms v, agent_memos l = Some ms -> divergence ms = Some v -> (20 <? v) = false) ->
    stage l (advance "COMPLIANCE_CHECK" (agent_memos l) (compliance_flag l) l)
| debate_moderated (l : LoanApplication) :
    workflow_state l = "DEBATE_ROUND_2" ->
    stage l (advance "COMPLIANCE_CHECK" (agent_memos l) (compliance_flag l) l)
| decision (l : LoanApplication) (computed : float) :
    workflow_state l = "COMPLIANCE_CHECK" ->
    stage l (finalize computed l).

(** Modelled from the spec: the loan records the orchestrator can
    produce (backend code, not among the sources): an ingested record
    taken through any number of stages. *)
Definition produced (l : LoanApplication) : Prop :=
  exists l0, ingested l0 /\ rtc stage l0 l.

(** A loan as ingested, and the record the orchestrator ends with when
    its agents return the fallback memos and the formula computes 20.4. *)
Definition sample_ingested : LoanApplication :=
  {| loan_id := "loan-1";
     company_name := "Acme";
     industry := "Retail";
     requested_amount := 250000;
     extracted_financials := None;
     status := Pending;
     workflow_state := "INITIAL_REVIEW";
     final_score := None;
     compliance_flag := false;
     confidence_score := None;
     loan_created_at := now;
     agent_memos := None |}.

Definition sample_finalized : LoanApplication :=
  finalize 20.4
    (advance "COMPLIANCE_CHECK" (Some (take 3 FALLBACK_MEMOS)) false
       (advance "DEBATE_ROUND_1" (Some (take 3 FALLBACK_MEMOS)) false sample_ingested)).

End Orchestration.

(** ** Exact values of doubles *)

Module Binary64Value.

Local Open Scope Z_scope.

(** [M / 2^n] rounded to the nearest integer, ties to even: the number
    that [n] right shifts followed by [round_nearest_even] leave. *)
Definition rne_num (M n : Z) : Z :=
  let q := M / 2 ^ n in
  let r := M mod 2 ^ n in
  if 2 * r <? 2 ^ n then q
  else if 2 ^ n <? 2 * r then q + 1
  else if Z.even q then q else q + 1.

(** The shift record after [j] right shifts of the integer [M]: the
    quotient, the last bit shifted out and whether a lower bit was set. *)
Definition shr_state (M j : Z) : shr_record :=
  if j =? 0 then {| shr_m := M; shr_r := false; shr_s := false |}
  else {| shr_m := M / 2 ^ j; shr_r := Z.testbit M (j - 1);
          shr_s := negb (M mod 2 ^ (j - 1) =? 0) |}.

(** [2^1024] in units of [2^-1074]: the value given to an infinity,
    above every finite double. *)
Definition cap : Z := 2 ^ 2098.

(** The value of a double in units of [2^-1074], the smallest positive
    double; a whole number for every valid double. *)
Definition SFval (x : spec_float) : Z :=
  match x with
  | S754_zero _ => 0
  | S754_infinity s => if s then - cap else cap
  | S754_nan => 0
  | S754_finite s m e => (if s then -1 else 1) * (Z.pos m * 2 ^ (e + 1074))
  end.

(** The value, in the same units, to which [m * 2^e] is rounded. *)
Definition rnd_val (m e : Z) : Z :=
  let t := fexp prec emax (Zdigits2 m + e) in
  rne_num m (t - e) * 2 ^ (t + 1074).

(** Rounding of the signed number [M * 2^e], overflow included. *)
Definition rnd (M e : Z) : Z :=
  if M =? 0 then 0
  else if 0 <? M then Z.min (rnd_val M e) cap
  else - Z.min (rnd_val (- M) e) cap.

(** A positive normal double with a non-positive exponent, as a
    multiplier. *)
Definition SFscale (c : spec_float) : bool :=
  match c with
  | S754_finite false m e => (2 ^ 52 <=? Z.pos m) && (e <=? 0)
  | _ => false
  end.

Definition fval (x : float) : Z := SFval (Prim2SF x).

(** [Math.round] as a whole number: the integer nearest to a double,
    ties upwards. *)
Definition nearest_int (x : float) : Z :=
  match Prim2SF x with
  | S754_finite s m e => round_half_up s m e
  | S754_infinity s => if s then - 2 ^ 1024 else 2 ^ 1024
  | _ => 0
  end.

End Binary64Value.

(** ** The bands of the confidence law *)

Module ConfidenceBands.

Import Binary64Value.

(** The four bands of the confidence law, as the code evaluates them. *)
Definition band1 (v : float) : float := 1.0 - 0.01 * v.
Definition band2 (v : float) : float := 0.9 - 0.02 * (v - 10).
Definition band3 (v : float) : float := 0.7 - 0.01 * (v - 20).
Definition band4 (v : float) : float := Math_max 0.1 (0.5 - 0.005 * (v - 40)).

(** The band the code selects for a variance. *)
Definition confidence_band (v : float) : float :=
  if v <=? 10 then band1 v
  else if v <=? 20 then band2 v
  else if v <=? 40 then band3 v
  else band4 v.

(** The whole number of hundredths that [Math.round(confidence * 100)]
    yields. *)
Definition percent (c : float) : Z := nearest_int (c * 100).

(** Two-decimal numbers keep the order of their hundredths, as a test. *)
Definition hundredths_le_at (n1 n2 : Z) : bool :=
  negb (n2 <=? n1)%Z || leb (hundredths n2) (hundredths n1).

End ConfidenceBands.

(** * Properties *)

(** ** Round grouping *)

Section GroupIntoRounds.

Implicit Types (ms : list AgentMemo) (m : AgentMemo) (a : AgentType).

Lemma counts_of_empty : counts_of ∅ [].
Proof. intros a. by rewrite lookup_empty. Qed.

Lemma counts_of_step counts p m :
  counts_of counts p ->
  counts_of (<[agent_type m := (default 0%nat (counts !! agent_type m) + 1)%nat]> counts)
            (p ++ [m]).
Proof.
  intros Hc a. rewrite filter_app, length_app.
  destruct (decide (agent_type m = a)) as [<- | Hne].
  - rewrite lookup_insert_eq. simpl. rewrite Hc.
    rewrite filter_cons_True by done. reflexivity.
  - rewrite lookup_insert_ne by done. rewrite Hc.
    rewrite filter_cons_False by done. simpl. lia.
Qed.

(** The loop, started after a prefix [p] with the matching counters,
    appends to [result] one entry per remaining memo, tagged with the
    number of earlier memos of the same role. *)
Lemma groupIntoRounds_loop l p result counts :
  counts_of counts p ->
  fst (foldl groupIntoRounds_step (result, counts) l) =
  result ++ imap (fun i m => {| round := earlier_same_role (p ++ l) (length p + i) m;
                                memo := m |}) l.
Proof.
  revert p result counts. induction l as [| m l IH]; intros p result counts Hc.
  - simpl. by rewrite app_nil_r.
  - cbn [foldl groupIntoRounds_step].
    rewrite (IH (p ++ [m])) by (by apply counts_of_step).
    rewrite imap_cons, <- app_assoc. f_equal. cbn [app]. f_equal.
    + unfold earlier_same_role. rewrite Nat.add_0_r, take_app_length.
      by rewrite Hc.
    + apply imap_ext. intros i x _. cbn. f_equal.
      rewrite <- app_assoc, length_app. cbn. f_equal. lia.
Qed.

(** Tagging every memo with a round and dropping the tags again is the
    identity. *)
Lemma memo_imap_tag (f : nat -> AgentMemo -> nat) l :
  map memo (imap (fun i m => {| round := f i m; memo := m |}) l) = l.
Proof.
  revert f. induction l as [| m l IH]; intros f; [done |].
  rewrite imap_cons. cbn. f_equal. apply (IH (fun i => f (S i))).
Qed.

End GroupIntoRounds.

(** C6.  Round grouping by occurrence order: [groupIntoRounds] keeps
    the memos in the order given and tags the memo at each position with
    the number of earlier memos in the list that have the same
    [agent_type] (0 for the first occurrence of a role, 1 for the
    second, and so on). *)
Theorem groupIntoRounds_occurrence_order (ms : list AgentMemo) :
  groupIntoRounds ms =
  imap (fun i m => {| round := earlier_same_role ms i m; memo := m |}) ms.
Proof.
  unfold groupIntoRounds. destruct (decide (length ms = 0%nat)) as [H0 | _].
  - by apply nil_length_inv in H0 as ->.
  - by rewrite (groupIntoRounds_loop ms [] [] ∅) by apply counts_of_empty.
Qed.

(** C9.  Round grouping preserves the memo list: projecting [memo] out
    of the output of [groupIntoRounds] gives back the input list, with
    the same length, the same memos and the same order. *)
Theorem groupIntoRounds_preserves_memos (ms : list AgentMemo) :
  map memo (groupIntoRounds ms) = ms /\
  length (groupIntoRounds ms) = length ms.
Proof.
  assert (E : map memo (groupIntoRounds ms) = ms).
  { unfold groupIntoRounds. destruct (decide (length ms = 0%nat)) as [H0 | _].
    - by apply nil_length_inv in H0 as ->.
    - rewrite (groupIntoRounds_loop ms [] [] ∅) by apply counts_of_empty.
      apply memo_imap_tag. }
  split; [exact E |]. rewrite <- E at 2. by rewrite length_map.
Qed.

(** ** Worked values *)

Example confidence_scenarios :
  confidenceFromVariance 85 45 = 0.5 /\
  confidenceFromVariance 75 70 = 0.95 /\
  confidenceFromVariance 80 72 = 0.92 /\
  confidenceFromVariance 41 0 = 0.5 /\
  confidenceFromVariance 0 100 = 0.2.
Proof. repeat split. Qed.

Example demo_case_confidences :
  map (fun c => confidence_score (loan c)) DEMO_CASES =
  [Some 0.5; Some 1; Some 0.6; Some 0.45].
Proof. reflexivity. Qed.

Example Math_round_ties :
  Math_round 2.5 = 3 /\ Math_round (-2.5) = (-2) /\ Math_round 49.5 = 50 /\
  Math_round 0.49999999999999994 = 0 /\ Math_round (-0.5) = neg_zero /\
  Math_round 32.499999999999993 = 32.
Proof. repeat split. Qed.

Example groupIntoRounds_second_pass :
  map round (groupIntoRounds (memos case_1 ++ memos case_3 ++ memos case_2)) =
  [0; 0; 0; 0; 1; 1; 1; 2; 2; 2]%nat.
Proof. reflexivity. Qed.

Example overallRisk_fallback : overallRisk FALLBACK_RISK = 4.
Proof. reflexivity. Qed.

(** ** Confidence derivation of the demo cases *)

Lemma applyConfidence_veto (c : DemoCase) :
  compliance_flag (loan c) = true ->
  confidence_score (loan (applyConfidence c)) = Some 1 /\
  status (loan (applyConfidence c)) = status (loan c) /\
  final_score (loan (applyConfidence c)) = final_score (loan c).
Proof. intros H. unfold applyConfidence. rewrite H. by cbn. Qed.

(** Both scores present and no veto: the confidence is the one of the
    Sales/Risk pair. *)
Lemma applyConfidence_scores (c : DemoCase) (sales risk : float) :
  compliance_flag (loan c) = false ->
  risk_score_of (find (agent_is Sales) (memos c)) = Some sales ->
  risk_score_of (find (agent_is Risk) (memos c)) = Some risk ->
  confidence_score (loan (applyConfidence c)) = Some (confidenceFromVariance sales risk).
Proof. intros H Hs Hr. unfold applyConfidence. rewrite H, Hs, Hr. by cbn. Qed.

(** C7.  Undefined confidence on missing scores: when the compliance
    flag is off and the Sales memo or the Risk memo, or its
    [risk_score], is absent, [applyConfidence] writes nothing: the case
    comes back as it was, so a [confidence_score] that was null or
    undefined stays so. *)
Theorem applyConfidence_missing_score (c : DemoCase) :
  compliance_flag (loan c) = false ->
  risk_score_of (find (agent_is Sales) (memos c)) = None \/
  risk_score_of (find (agent_is Risk) (memos c)) = None ->
  applyConfidence c = c /\
  (confidence_score (loan c) = None ->
   confidence_score (loan (applyConfidence c)) = None).
Proof.
  intros Hflag Hmiss.
  assert (E : applyConfidence c = c).
  { unfold applyConfidence. rewrite Hflag.
    destruct Hmiss as [-> | ->]; [done |].
    by destruct (risk_score_of (find (agent_is Sales) (memos c))). }
  split; [exact E |]. by rewrite E.
Qed.

Lemma applyConfidence_missing_score_witness :
  applyConfidence case_3_without_risk = case_3_without_risk /\
  (confidence_score (loan case_3_without_risk) = None ->
   confidence_score (loan (applyConfidence case_3_without_risk)) = None).
Proof.
  apply applyConfidence_missing_score; [reflexivity | right; reflexivity].
Defined.

(** ** The shipped records *)

(** C1.  Veto absolutism fails on a shipped record: the dashboard mock
    [demo-3] carries the compliance flag, is Rejected with confidence
    1.0, and yet has [final_score] 12.0 rather than 0.0. *)
Theorem mock_demo_3_veto_final_score :
  exists l, MOCK_LOANS !! 2%nat = Some l /\
    compliance_flag l = true /\
    status l = Rejected /\
    confidence_score l = Some 1 /\
    final_score l = Some 12 /\
    final_score l <> Some 0.
Proof.
  eexists. split; [reflexivity |]. cbn. do 4 (split; [reflexivity |]).
  intros H. apply (inj Some) in H.
  apply (f_equal (fun x => x =? 0)) in H. vm_compute in H. discriminate.
Qed.

(** The veto is honoured by the demo case that carries the flag. *)
Lemma demo_case_2_veto :
  exists c, DEMO_CASES !! 1%nat = Some c /\
    compliance_flag (loan c) = true /\
    status (loan c) = Rejected /\
    final_score (loan c) = Some 0 /\
    confidence_score (loan c) = Some 1.
Proof. eexists. split; [reflexivity |]. repeat split. Qed.

(** Every shipped record with the compliance flag is Rejected with
    confidence 1.0. *)
Lemma shipped_veto_status_confidence (l : LoanApplication) :
  In l shipped_loans -> compliance_flag l = true ->
  status l = Rejected /\ confidence_score l = Some 1.
Proof.
  intros Hin. vm_compute in Hin.
  repeat (destruct Hin as [<- | Hin]; [cbn; intros; first [discriminate | by split] |]).
  destruct Hin.
Qed.

(** C3.  Moderator round iff divergence fails on shipped debates: demo
    cases 3 and 4 diverge by 30 and 51 points and have no Moderator
    memo, and the fallback memos diverge by 14 points and have one. *)
Theorem shipped_debates_moderator_mismatch :
  (exists c, DEMO_CASES !! 2%nat = Some c /\
     divergence (memos c) = Some 30 /\ (20 <? 30) = true /\
     has_moderator (memos c) = false) /\
  (exists c, DEMO_CASES !! 3%nat = Some c /\
     divergence (memos c) = Some 51 /\ (20 <? 51) = true /\
     has_moderator (memos c) = false) /\
  (divergence FALLBACK_MEMOS = Some 14 /\ (20 <? 14) = false /\
     has_moderator FALLBACK_MEMOS = true).
Proof.
  split; [| split].
  - eexists. split; [reflexivity |]. by vm_compute.
  - eexists. split; [reflexivity |]. by vm_compute.
  - by vm_compute.
Qed.

(** The demo cases that agree with the rule: case 1 diverges by 40 and
    ends with a Moderator memo, case 2 diverges by 5 and has none. *)
Lemma demo_cases_1_2_moderator :
  (exists c, DEMO_CASES !! 0%nat = Some c /\
     divergence (memos c) = Some 40 /\ (20 <? 40) = true /\
     has_moderator (memos c) = true /\
     agent_type <$> last (memos c) = Some Moderator) /\
  (exists c, DEMO_CASES !! 1%nat = Some c /\
     divergence (memos c) = Some 5 /\ (20 <? 5) = false /\
     has_moderator (memos c) = false).
Proof.
  split.
  - eexists. split; [reflexivity |]. by vm_compute.
  - eexists. split; [reflexivity |]. by vm_compute.
Qed.

(** In every shipped debate that has a Moderator memo, that memo comes
    last, after the Sales, Risk and Compliance memos. *)
Lemma shipped_moderator_last (ms : list AgentMemo) :
  In ms shipped_debates -> has_moderator ms = true ->
  agent_type <$> last ms = Some Moderator /\
  map agent_type (take 3 ms) = [Sales; Risk; Compliance].
Proof.
  intros Hin. vm_compute in Hin.
  repeat (destruct Hin as [<- | Hin]; [intros H; first [discriminate H | by split] |]).
  destruct Hin.
Qed.

(** The shipped records keep the approval threshold: each of them that
    is finalized, carries no compliance flag and has a [final_score] is
    Approved exactly when [final_score >= 20] and Rejected otherwise;
    the threshold line of [DecisionSummary] says "above" exactly for the
    Approved ones. *)
Lemma approval_threshold_shipped (l : LoanApplication) (f : float) :
  In l shipped_loans ->
  finalized l = true ->
  compliance_flag l = false ->
  final_score l = Some f ->
  (status l = Approved <-> geb f 20 = true) /\
  (geb f 20 = false -> status l = Rejected) /\
  thresholdSide l =
    Some (if bool_decide (status l = Approved) then "above" else "below").
Proof.
  intros Hin. vm_compute in Hin.
  repeat (destruct Hin as [<- | Hin];
    [ intros Hfin Hflag Hscore; try discriminate Hflag; try discriminate Hfin;
      try discriminate Hscore; apply (inj Some) in Hscore; subst f;
      vm_compute; repeat split; intros; congruence |]).
  destruct Hin.
Qed.

(** ** The confidence law *)

Lemma all_upto_spec (n : nat) (p : Z -> bool) :
  all_upto n p = true -> forall z, (0 <= z <= Z.of_nat n)%Z -> p z = true.
Proof.
  unfold all_upto. rewrite forallb_forall. intros H z Hz. apply H.
  apply in_map_iff. exists (Z.to_nat z). split; [lia |].
  apply in_seq. lia.
Qed.

(** A test that holds on the whole square of scores [0 .. 100]. *)
Lemma all_scores (p : Z -> Z -> bool) :
  all_upto 100 (fun s => all_upto 100 (p s)) = true ->
  forall s r, (0 <= s <= 100)%Z -> (0 <= r <= 100)%Z -> p s r = true.
Proof.
  intros H s r Hs Hr.
  apply (all_upto_spec 100 (p s)); [| exact Hr].
  apply (all_upto_spec 100 (fun s => all_upto 100 (p s))); [exact H | exact Hs].
Qed.

Lemma law_holds_everywhere :
  all_upto 100 (fun s => all_upto 100 (law_holds_at s)) = true.
Proof. vm_compute. reflexivity. Qed.

Lemma variance_only_everywhere :
  all_upto 100 (fun s => all_upto 100 (variance_only_at s)) = true.
Proof. vm_compute. reflexivity. Qed.

Lemma non_increasing_everywhere :
  all_upto 100 (fun v1 => all_upto 100 (non_increasing_at v1)) = true.
Proof. vm_compute. reflexivity. Qed.

(** The claim C2 as stated fails: at Sales 75 and Risk 0 the law gives
    0.325, which rounds half-up to 0.33, and the code returns 0.32. *)
Lemma confidence_law_fails_at_75_0 :
  confidence_spec 75 0 = 33%Z /\
  confidenceFromVariance (of_int 75) (of_int 0) = 0.32 /\
  confidenceFromVariance (of_int 75) (of_int 0) <> hundredths (confidence_spec 75 0).
Proof.
  split; [reflexivity |]. split; [reflexivity |].
  intros H. apply (f_equal (fun x => x =? 0.32)) in H.
  vm_compute in H. discriminate.
Qed.

(** C2 (amended).  For integer scores in 0..100 the number returned by
    [confidenceFromVariance] is the piecewise law of the variance
    rounded half-up to two decimals, except at the variances 75, 95 and
    97, where the binary64 evaluation falls just under the half and the
    result is one hundredth lower; it always lies in [0.10, 1.00]. *)
Theorem confidence_law_binary64 (sales risk : Z) :
  (0 <= sales <= 100)%Z -> (0 <= risk <= 100)%Z ->
  confidenceFromVariance (of_int sales) (of_int risk) =
    hundredths (if rounds_low (Z.abs (sales - risk))
                then confidence_spec sales risk - 1
                else confidence_spec sales risk) /\
  leb 0.1 (confidenceFromVariance (of_int sales) (of_int risk)) = true /\
  leb (confidenceFromVariance (of_int sales) (of_int risk)) 1 = true.
Proof.
  intros Hs Hr.
  pose proof (all_scores law_holds_at law_holds_everywhere sales risk Hs Hr) as H.
  unfold law_holds_at in H. cbv zeta in H.
  apply andb_prop in H as [H H3]. apply andb_prop in H as [H1 H2].
  apply FloatAxioms.Leibniz.eqb_spec in H1. auto.
Qed.

Lemma confidence_law_binary64_witness :
  confidenceFromVariance (of_int 85) (of_int 45) =
    hundredths (if rounds_low (Z.abs (85 - 45))
                then confidence_spec 85 45 - 1
                else confidence_spec 85 45) /\
  leb 0.1 (confidenceFromVariance (of_int 85) (of_int 45)) = true /\
  leb (confidenceFromVariance (of_int 85) (of_int 45)) 1 = true.
Proof. apply confidence_law_binary64; lia. Defined.

(** Between two pairs of integer scores in 0..100, by enumeration: the
    pair with the strictly larger variance never has the larger
    confidence, rounding included. *)
Lemma confidence_non_increasing (s1 r1 s2 r2 : Z) :
  (0 <= s1 <= 100)%Z -> (0 <= r1 <= 100)%Z ->
  (0 <= s2 <= 100)%Z -> (0 <= r2 <= 100)%Z ->
  (Z.abs (s1 - r1) < Z.abs (s2 - r2))%Z ->
  geb (confidenceFromVariance (of_int s1) (of_int r1))
      (confidenceFromVariance (of_int s2) (of_int r2)) = true.
Proof.
  intros Hs1 Hr1 Hs2 Hr2 Hlt.
  pose proof (all_scores _ variance_only_everywhere s1 r1 Hs1 Hr1) as E1.
  pose proof (all_scores _ variance_only_everywhere s2 r2 Hs2 Hr2) as E2.
  apply FloatAxioms.Leibniz.eqb_spec in E1, E2. rewrite E1, E2.
  pose proof (all_scores _ non_increasing_everywhere
                (Z.abs (s1 - r1)) (Z.abs (s2 - r2))) as H.
  unfold non_increasing_at in H.
  apply Z.ltb_lt in Hlt. rewrite Hlt in H. apply H; lia.
Qed.

(** ** Symmetry *)

Section Binary64.

(** The sign given to [binary_round] only decides the sign of its
    result. *)
Lemma SFabs_binary_round (s : bool) (m : positive) (e : Z) :
  SFabs (binary_round prec emax s m e) = SFabs (binary_round prec emax (negb s) m e).
Proof.
  unfold binary_round, binary_round_aux.
  destruct (shl_align m e _) as [mz ez].
  destruct (shr_fexp prec emax (Z.pos mz) ez loc_Exact) as [mrs' e'].
  destruct (shr_fexp prec emax _ e' loc_Exact) as [mrs'' e''].
  destruct (shr_m mrs''); [reflexivity | | reflexivity].
  destruct (e'' <=? emax - prec)%Z; reflexivity.
Qed.

Lemma SFabs_binary_normalize_opp (z e : Z) (szero : bool) :
  SFabs (binary_normalize prec emax (- z) e szero) =
  SFabs (binary_normalize prec emax z e szero).
Proof.
  destruct z as [| m | m]; cbn [Z.opp binary_normalize]; [reflexivity | |].
  - apply (SFabs_binary_round true).
  - apply (SFabs_binary_round false).
Qed.

(** [|x - y|] and [|y - x|] are the same double, also when a NaN, an
    infinity or a signed zero is involved. *)
Lemma SFabs_sub_swap (x y : spec_float) :
  SFabs (SF64sub x y) = SFabs (SF64sub y x).
Proof.
  destruct x as [sx | sx | | sx mx ex], y as [sy | sy | | sy my ey];
    try (destruct sx, sy; reflexivity); try (destruct sx; reflexivity);
    try (destruct sy; reflexivity); try reflexivity.
  unfold SF64sub, SFsub. rewrite (Z.min_comm ey ex).
  rewrite <- SFabs_binary_normalize_opp. f_equal. f_equal. lia.
Qed.

Lemma abs_sub_swap (a b : float) : abs (a - b) = abs (b - a).
Proof.
  apply Prim2SF_inj. rewrite !FloatAxioms.abs_spec, !FloatAxioms.sub_spec. apply SFabs_sub_swap.
Qed.

End Binary64.

(** C8.  Confidence symmetry: for all numbers [a] and [b],
    [confidenceFromVariance a b] is [confidenceFromVariance b a]; the
    function reads its arguments through [|a - b|] only. *)
Theorem confidenceFromVariance_symmetric (a b : float) :
  confidenceFromVariance a b = confidenceFromVariance b a.
Proof.
  unfold confidenceFromVariance, Math_abs. by rewrite (abs_sub_swap a b).
Qed.

(** ** Binary64 arithmetic never invents a NaN *)

Section Rounding.

Local Open Scope Z_scope.

Lemma shr_1_bounds (r : shr_record) :
  0 <= shr_m r ->
  0 <= shr_m (shr_1 r) /\
  Zdigits2 (shr_m (shr_1 r)) <= Z.max 0 (Zdigits2 (shr_m r) - 1).
Proof.
  destruct r as [m rr s]. destruct m as [| [p | p |] | p];
    cbn [shr_1 shr_m Zdigits2 digits2_pos]; lia.
Qed.

Lemma iter_shr_1_bounds (p : positive) (r : shr_record) :
  0 <= shr_m r ->
  0 <= shr_m (SpecFloat.iter_pos shr_1 p r) /\
  Zdigits2 (shr_m (SpecFloat.iter_pos shr_1 p r)) <= Z.max 0 (Zdigits2 (shr_m r) - Z.pos p).
Proof.
  revert r. induction p as [p IH | p IH |]; intros r Hr; cbn [SpecFloat.iter_pos].
  - destruct (shr_1_bounds r Hr) as [H1 H1'].
    destruct (IH _ H1) as [H2 H2']. destruct (IH _ H2) as [H3 H3'].
    split; [exact H3 | lia].
  - destruct (IH _ Hr) as [H2 H2']. destruct (IH _ H2) as [H3 H3'].
    split; [exact H3 | lia].
  - apply shr_1_bounds, Hr.
Qed.

Lemma shr_m_of_loc (m : Z) (l : location) : shr_m (shr_record_of_loc m l) = m.
Proof. destruct l as [| []]; reflexivity. Qed.

Lemma shr_fexp_bounds (m e : Z) (l : location) :
  0 <= m ->
  0 <= shr_m (fst (shr_fexp prec emax m e l)) /\
  (snd (shr_fexp prec emax m e l) = e \/
   snd (shr_fexp prec emax m e l) = fexp prec emax (Zdigits2 m + e)) /\
  Zdigits2 (shr_m (fst (shr_fexp prec emax m e l))) + snd (shr_fexp prec emax m e l)
    <= Z.max (snd (shr_fexp prec emax m e l)) (Zdigits2 m + e).
Proof.
  intros Hm. unfold shr_fexp, shr.
  destruct (fexp prec emax (Zdigits2 m + e) - e) as [| p | p] eqn:En;
    cbn [fst snd]; rewrite ?shr_m_of_loc.
  - repeat split; [lia | auto | lia].
  - destruct (iter_shr_1_bounds p (shr_record_of_loc m l)) as [H1 H2].
    { now rewrite shr_m_of_loc. }
    rewrite shr_m_of_loc in H2.
    repeat split; [exact H1 | right; lia | lia].
  - repeat split; [lia | auto | lia].
Qed.

Lemma digits2_succ (p : positive) :
  Z.pos (digits2_pos (Pos.succ p)) <= Z.pos (digits2_pos p) + 1.
Proof.
  induction p as [p IH | p IH |];
    [ change (Pos.succ p~1) with ((Pos.succ p)~0)%positive
    | change (Pos.succ p~0) with (p~1)%positive
    | change (Pos.succ 1) with 2%positive ];
    cbn [digits2_pos]; lia.
Qed.

Lemma round_nearest_even_bounds (m : Z) (l : location) :
  0 <= m ->
  0 <= round_nearest_even m l /\
  Zdigits2 (round_nearest_even m l) <= Zdigits2 m + 1.
Proof.
  intros Hm.
  assert (H1 : 0 <= m + 1 /\ Zdigits2 (m + 1) <= Zdigits2 m + 1).
  { destruct m as [| p | p]; [split; [lia | now vm_compute] | | lia].
    split; [lia |]. replace (Z.pos p + 1) with (Z.pos (Pos.succ p)) by lia.
    cbn [Zdigits2]. pose proof (digits2_succ p). lia. }
  unfold round_nearest_even. destruct l as [| []]; try destruct (Z.even m); lia.
Qed.

Lemma binary_round_aux_num (s : bool) (mx ex : Z) (lx : location) :
  0 <= mx -> binary_round_aux prec emax s mx ex lx <> S754_nan.
Proof.
  intros Hm. unfold binary_round_aux.
  pose proof (shr_fexp_bounds mx ex lx Hm) as (H1 & _ & _).
  destruct (shr_fexp prec emax mx ex lx) as [mrs' e']. cbn [fst snd] in H1.
  pose proof (round_nearest_even_bounds (shr_m mrs') (loc_of_shr_record mrs') H1) as [H2 _].
  pose proof (shr_fexp_bounds _ e' loc_Exact H2) as (H3 & _ & _).
  destruct (shr_fexp prec emax _ e' loc_Exact) as [mrs'' e'']. cbn [fst snd] in H3.
  destruct (shr_m mrs''); [discriminate | | lia].
  destruct (e'' <=? emax - prec); discriminate.
Qed.

Lemma binary_round_aux_fin (s : bool) (mx ex : Z) (lx : location) :
  0 <= mx -> ex <= 971 -> Zdigits2 mx + ex <= 1023 ->
  SFfin (binary_round_aux prec emax s mx ex lx) = true.
Proof.
  intros Hm He Hd. unfold binary_round_aux.
  pose proof (shr_fexp_bounds mx ex lx Hm) as (H1 & E1 & D1).
  destruct (shr_fexp prec emax mx ex lx) as [mrs' e']. cbn [fst snd] in H1, E1, D1.
  pose proof (round_nearest_even_bounds (shr_m mrs') (loc_of_shr_record mrs') H1) as [H2 D2].
  pose proof (shr_fexp_bounds _ e' loc_Exact H2) as (H3 & E3 & _).
  destruct (shr_fexp prec emax _ e' loc_Exact) as [mrs'' e'']. cbn [fst snd] in H3, E3.
  unfold fexp, SpecFloat.emin, prec, emax in *.
  destruct (shr_m mrs''); [reflexivity | | lia].
  destruct (Z.leb_spec e'' (1024 - 53)); [reflexivity | lia].
Qed.

End Rounding.

Section Operations.

Local Open Scope Z_scope.

Implicit Types x y : spec_float.

Lemma binary_normalize_num (m e : Z) (s : bool) :
  binary_normalize prec emax m e s <> S754_nan.
Proof.
  destruct m as [| p | p]; cbn [binary_normalize]; [discriminate | |];
    unfold binary_round; destruct (shl_align p e _) as [mz ez];
    apply binary_round_aux_num; lia.
Qed.

Lemma SF64add_num x y :
  x <> S754_nan -> SFfin y = true -> SF64add x y <> S754_nan.
Proof.
  destruct x as [sx | sx | | sx mx ex], y as [sy | sy | | sy my ey];
    intros Hx Hy; try discriminate Hy; try congruence;
    unfold SF64add, SFadd; try discriminate;
    try (destruct sx, sy; discriminate).
  apply binary_normalize_num.
Qed.

Lemma SF64sub_num x y :
  x <> S754_nan -> SFfin y = true -> SF64sub x y <> S754_nan.
Proof.
  destruct x as [sx | sx | | sx mx ex], y as [sy | sy | | sy my ey];
    intros Hx Hy; try discriminate Hy; try congruence;
    unfold SF64sub, SFsub; try discriminate;
    try (destruct sx, sy; discriminate).
  apply binary_normalize_num.
Qed.

Lemma SF64mul_num x y :
  x <> S754_nan -> SFnz y = true -> SF64mul x y <> S754_nan.
Proof.
  destruct x as [sx | sx | | sx mx ex], y as [sy | sy | | sy my ey];
    intros Hx Hy; try discriminate Hy; try congruence;
    unfold SF64mul, SFmul; try discriminate.
  apply binary_round_aux_num. lia.
Qed.

Lemma SFdiv_core_nonneg (m1 m2 : positive) (e1 e2 : Z) :
  0 <= fst (fst (SFdiv_core_binary prec emax (Z.pos m1) e1 (Z.pos m2) e2)).
Proof.
  unfold SFdiv_core_binary.
  set (s := _ - _ - _). set (m' := match s with Z.pos _ => _ | _ => _ end).
  assert (Hm' : 0 <= m').
  { subst m'. destruct s; [lia | | lia]. apply Z.shiftl_nonneg. lia. }
  pose proof (Z.div_pos m' (Z.pos m2) Hm' ltac:(lia)) as Hq.
  unfold Z.div in Hq. destruct (Z.div_eucl m' (Z.pos m2)) as [q r]. exact Hq.
Qed.

Lemma SF64div_num x y :
  x <> S754_nan -> SFnz y = true -> SF64div x y <> S754_nan.
Proof.
  destruct x as [sx | sx | | sx mx ex], y as [sy | sy | | sy my ey];
    intros Hx Hy; try discriminate Hy; try congruence;
    unfold SF64div, SFdiv; try discriminate.
  pose proof (SFdiv_core_nonneg mx my ex ey) as Hq.
  destruct (SFdiv_core_binary prec emax (Z.pos mx) ex (Z.pos my) ey) as [[mz ez] lz].
  apply binary_round_aux_num. exact Hq.
Qed.

Lemma digits2_size (p : positive) : digits2_pos p = Pos.size p.
Proof. induction p as [p IH | p IH |]; cbn; congruence. Qed.

Lemma digits2_mul (a b : positive) :
  Z.pos (digits2_pos (a * b)) <= Z.pos (digits2_pos a) + Z.pos (digits2_pos b).
Proof.
  rewrite (digits2_size a), (digits2_size b), (digits2_size (a * b)).
  pose proof (Pos.size_gt a) as Ha. pose proof (Pos.size_gt b) as Hb.
  pose proof (Pos.size_le (a * b)) as Hab.
  apply Pos2Z.pos_lt_pos in Ha, Hb. apply Pos2Z.pos_le_pos in Hab.
  rewrite Pos2Z.inj_pow in Ha, Hb, Hab.
  rewrite (Pos2Z.inj_xO (a * b)), Pos2Z.inj_mul in Hab.
  set (sa := Z.pos (Pos.size a)) in *. set (sb := Z.pos (Pos.size b)) in *.
  set (sab := Z.pos (Pos.size (a * b))) in *.
  assert (H : 2 ^ sab < 2 ^ (sa + sb + 1)).
  { rewrite !Z.pow_add_r by lia. change (2 ^ 1) with 2.
    assert (0 < 2 ^ sa) by (apply Z.pow_pos_nonneg; lia).
    assert (0 < 2 ^ sb) by (apply Z.pow_pos_nonneg; lia).
    nia. }
  apply Z.pow_lt_mono_r_iff in H; subst sa sb sab; lia.
Qed.

Lemma valid_binary_bounds (s : bool) (m : positive) (e : Z) :
  valid_binary (S754_finite s m e) = true ->
  e <= 971 /\ Z.pos (digits2_pos m) + e <= 1024.
Proof.
  unfold SpecFloat.valid_binary, bounded, canonical_mantissa, fexp, SpecFloat.emin, prec, emax.
  intros H. apply andb_prop in H as [H1 H2].
  apply Z.eqb_eq in H1. apply Z.leb_le in H2. lia.
Qed.

(** Multiplying a double by a constant below one half never overflows. *)
Lemma SF64mul_small_fin x y :
  SFfin x = true -> valid_binary x = true -> SFsmall y = true ->
  SFfin (SF64mul x y) = true.
Proof.
  destruct x as [sx | sx | | sx mx ex], y as [sy | sy | | sy my ey];
    intros Hx Hv Hy; try discriminate Hx; try discriminate Hy; [reflexivity |].
  unfold SF64mul, SFmul.
  apply valid_binary_bounds in Hv as [He Hd].
  cbn [SFsmall Zdigits2] in Hy. apply andb_prop in Hy as [Hy1 Hy2].
  apply Z.leb_le in Hy1, Hy2.
  apply binary_round_aux_fin; [lia | lia |].
  cbn [Zdigits2]. pose proof (digits2_mul mx my). lia.
Qed.

Lemma SFfin_num x : SFfin x = true -> x <> S754_nan.
Proof. destruct x; intros H; first [discriminate H | discriminate]. Qed.

End Operations.

Section Numbers.

Local Open Scope Z_scope.

Implicit Types x y : float.
Local Open Scope float_scope.

Lemma SFeqb_refl (sx : spec_float) : sx <> S754_nan -> SFeqb sx sx = true.
Proof.
  destruct sx as [s | s | | s m e]; intros H; try congruence;
    unfold SFeqb, SFcompare; try (destruct s; reflexivity).
  destruct s; rewrite Z.compare_refl, Pos.compare_cont_refl; reflexivity.
Qed.

Lemma is_nan_spec x : is_nan x = false <-> Prim2SF x <> S754_nan.
Proof.
  unfold is_nan. rewrite FloatAxioms.eqb_spec. split.
  - intros H E. rewrite E in H. discriminate.
  - intros H. now rewrite SFeqb_refl.
Qed.

Lemma is_finite_spec x : is_finite x = true -> SFfin (Prim2SF x) = true.
Proof.
  unfold is_finite, is_infinity, is_nan.
  rewrite !FloatAxioms.eqb_spec, FloatAxioms.abs_spec.
  change (Prim2SF infinity) with (S754_infinity false).
  destruct (Prim2SF x) as [s | s | | s m e]; intros H; try reflexivity.
  - destruct s; discriminate H.
  - discriminate H.
Qed.

Lemma of_uint63_num (n : int) : is_nan (of_uint63 n) = false.
Proof. apply is_nan_spec. rewrite FloatAxioms.of_uint63_spec. apply binary_normalize_num. Qed.

Lemma opp_num x : is_nan x = false -> is_nan (- x) = false.
Proof.
  rewrite !is_nan_spec, FloatAxioms.opp_spec.
  destruct (Prim2SF x); intros H; first [discriminate | congruence].
Qed.

End Numbers.

Section Comparisons.

Local Open Scope Z_scope.

Local Open Scope float_scope.

Lemma SFltb_SFleb (sx sy : spec_float) : SFltb sx sy = true -> SFleb sx sy = true.
Proof. unfold SFltb, SFleb. destruct (SFcompare sx sy) as [[] |]; congruence. Qed.

Lemma SFcompare_swap (sx sy : spec_float) :
  SFcompare sy sx = option_map CompOpp (SFcompare sx sy).
Proof.
  destruct sx as [s1 | s1 | | s1 m1 e1], sy as [s2 | s2 | | s2 m2 e2];
    try reflexivity; try (destruct s1; reflexivity); try (destruct s2; reflexivity);
    try (destruct s1, s2; reflexivity).
  cbn [SFcompare option_map]. f_equal.
  rewrite (Z.compare_antisym e1 e2). 
  change (Pos.compare_cont Eq m2 m1) with (m2 ?= m1)%positive.
  change (Pos.compare_cont Eq m1 m2) with (m1 ?= m2)%positive.
  rewrite (Pos.compare_antisym m1 m2).
  destruct s1, s2; try reflexivity;
    destruct (e1 ?= e2)%Z; cbn; try reflexivity;
    destruct (m1 ?= m2)%positive; reflexivity.
Qed.

Lemma SFcompare_num (sx sy : spec_float) :
  sx <> S754_nan -> sy <> S754_nan -> SFcompare sx sy <> None.
Proof.
  destruct sx as [s1 | s1 | | s1 m1 e1], sy as [s2 | s2 | | s2 m2 e2];
    intros H1 H2; try congruence; discriminate.
Qed.

Lemma ltb_leb (x y : float) : (x <? y) = true -> (x <=? y) = true.
Proof. rewrite FloatAxioms.ltb_spec, FloatAxioms.leb_spec. apply SFltb_SFleb. Qed.

Lemma not_ltb_leb (x y : float) :
  is_nan x = false -> is_nan y = false -> (x <? y) = false -> (y <=? x) = true.
Proof.
  rewrite !is_nan_spec, FloatAxioms.ltb_spec, FloatAxioms.leb_spec. intros Hx Hy.
  unfold SFltb, SFleb. rewrite (SFcompare_swap (Prim2SF x) (Prim2SF y)).
  pose proof (SFcompare_num _ _ Hx Hy) as Hc.
  destruct (SFcompare (Prim2SF x) (Prim2SF y)) as [[] |]; cbn; congruence.
Qed.

End Comparisons.

(** ** The overall-risk gauge *)

Section Gauge.

Lemma of_int_num (z : Z) : is_nan (of_int z) = false.
Proof.
  unfold of_int. destruct (z <? 0)%Z; [apply opp_num |]; apply of_uint63_num.
Qed.

Lemma Math_round_num (x : float) : is_nan x = false -> is_nan (Math_round x) = false.
Proof.
  intros H. unfold Math_round.
  destruct (Prim2SF x) as [| | | s m [| k | k]]; try exact H.
  cbv zeta. destruct (_ =? 0)%Z; [destruct s; reflexivity | apply of_int_num].
Qed.

Lemma Math_max_1 (x : float) :
  is_nan x = false ->
  is_nan (Math_max 1 x) = false /\ (1 <=? Math_max 1 x) = true.
Proof.
  intros Hx. unfold Math_max. rewrite Hx. change (is_nan 1) with false. cbn [orb].
  destruct (1 <? x) eqn:E1.
  - split; [exact Hx | by apply ltb_leb].
  - destruct (x <? 1) eqn:E2; [split; reflexivity |].
    change (get_sign 1) with false. split; reflexivity.
Qed.

Lemma Math_min_10 (y : float) :
  is_nan y = false -> (1 <=? y) = true ->
  (1 <=? Math_min 10 y) = true /\ (Math_min 10 y <=? 10) = true.
Proof.
  intros Hy H1. unfold Math_min. rewrite Hy. change (is_nan 10) with false. cbn [orb].
  destruct (10 <? y) eqn:E1; [split; reflexivity |].
  destruct (y <? 10) eqn:E2.
  - split; [exact H1 | by apply ltb_leb].
  - change (get_sign 10) with false. split; [exact H1 |].
    apply not_ltb_leb; [reflexivity | exact Hy | exact E1].
Qed.

(** With finite category scores the aggregate is a number: the sum may
    overflow to an infinity, but no step subtracts two infinities or
    divides one by another. *)
Lemma aggregateRisk_num (rm : RiskMatrix) :
  finite_score (financial_risk rm) -> finite_score (growth_strength rm) ->
  finite_score (regulatory_risk rm) -> finite_score (reputation_risk rm) ->
  is_nan (aggregateRisk rm) = false.
Proof.
  unfold finite_score. intros Hf Hg Hreg Hrep.
  unfold aggregateRisk. apply Math_round_num, is_nan_spec.
  rewrite FloatAxioms.div_spec, FloatAxioms.add_spec, FloatAxioms.sub_spec,
    !FloatAxioms.mul_spec, FloatAxioms.div_spec, !FloatAxioms.add_spec.
  apply SF64div_num; [| reflexivity]. apply SF64add_num; [| reflexivity].
  apply SF64sub_num.
  - apply SF64mul_num; [| reflexivity]. apply SF64div_num; [| reflexivity].
    apply SF64add_num; [| by apply is_finite_spec].
    apply SF64add_num; [| by apply is_finite_spec].
    by apply SFfin_num, is_finite_spec.
  - apply SF64mul_small_fin;
      [by apply is_finite_spec | apply Prim2SF_valid | reflexivity].
Qed.

End Gauge.

(** C10.  Overall-risk gauge bound: for every risk matrix whose four
    category scores are finite numbers, the value shown by [RiskPanel],
    [Math.min(10, Math.max(1, aggregateRisk(riskMatrix)))], lies in the
    closed interval from 1 to 10. *)
Theorem overallRisk_in_gauge (rm : RiskMatrix) :
  finite_score (financial_risk rm) -> finite_score (growth_strength rm) ->
  finite_score (regulatory_risk rm) -> finite_score (reputation_risk rm) ->
  leb 1 (overallRisk rm) = true /\ leb (overallRisk rm) 10 = true.
Proof.
  intros Hf Hg Hreg Hrep. unfold overallRisk, leb.
  destruct (Math_max_1 (aggregateRisk rm)) as [Hn H1].
  { by apply aggregateRisk_num. }
  by apply Math_min_10.
Qed.

Lemma overallRisk_in_gauge_witness :
  leb 1 (overallRisk FALLBACK_RISK) = true /\ leb (overallRisk FALLBACK_RISK) 10 = true.
Proof. apply overallRisk_in_gauge; reflexivity. Defined.

(** * Further properties *)

(** ** Worked values *)

Example toFixed_samples :
  toFixed 20.4 1 = Some "20.4" /\ toFixed 16 1 = Some "16.0" /\
  toFixed 1.005 2 = Some "1.00" /\ toFixed 2.5 0 = Some "3" /\
  toFixed (-2.5) 0 = Some "-3" /\ toFixed (-0.04) 1 = Some "-0.0" /\
  toFixed 0.000001 7 = Some "0.0000010" /\ toFixed nan 1 = Some "NaN" /\
  toFixed 1e21 1 = None.
Proof. repeat split. Qed.

Example summary_of_case_4 :
  scoreText (loan (applyConfidence case_4)) = Some "20.4" /\
  confidenceText (loan (applyConfidence case_4)) = Some "45%" /\
  thresholdText (loan (applyConfidence case_4)) =
    Some "0.4 points above approval threshold".
Proof. repeat split. Qed.

Example rounds_of_three_passes :
  (fun r => (roundLabel r, length (items r))) <$>
    rounds (memos case_1 ++ memos case_3 ++ memos case_1) =
  [("Initial Review", 4%nat); ("Debate Round 1", 4%nat); ("Debate Round 2", 3%nat)].
Proof. reflexivity. Qed.

Example history_sample :
  history [ {| msg_role := assistant; msg_content := "Ask me anything" |};
            {| msg_role := user; msg_content := "Why rejected?" |};
            {| msg_role := assistant; msg_content := "Ask me anything" |} ] =
  [ {| msg_role := user; msg_content := "Why rejected?" |};
    {| msg_role := assistant; msg_content := "Ask me anything" |} ].
Proof. reflexivity. Qed.

Example pdf_url_sample :
  getDecisionPdfUrl None "case-1" = "http://localhost:8000/api/decision/case-1/memo/pdf".
Proof. reflexivity. Qed.

(** ** More on the confidence law *)

Lemma is_nan_eq (x : float) : is_nan x = true -> x = nan.
Proof.
  intros H. apply Prim2SF_inj. change (Prim2SF nan) with S754_nan.
  destruct (Prim2SF x) eqn:E; try reflexivity;
    assert (Hn : is_nan x = false) by (apply is_nan_spec; rewrite E; discriminate);
    congruence.
Qed.

Lemma sub_nan_l (b : float) : nan - b = nan.
Proof. apply Prim2SF_inj. rewrite FloatAxioms.sub_spec. reflexivity. Qed.

Lemma sub_nan_r (a : float) : a - nan = nan.
Proof.
  apply Prim2SF_inj. rewrite FloatAxioms.sub_spec.
  change (Prim2SF nan) with S754_nan. by destruct (Prim2SF a).
Qed.

Lemma sub_diag (a : float) : is_finite a = true -> a - a = 0.
Proof.
  intros H. apply is_finite_spec in H.
  apply Prim2SF_inj. rewrite FloatAxioms.sub_spec.
  change (Prim2SF 0) with (S754_zero false).
  destruct (Prim2SF a) as [[] | | | s m e]; try discriminate H; try reflexivity.
  unfold SF64sub, SFsub. by rewrite Z.sub_diag.
Qed.

(** Full agreement is full confidence: equal finite scores, whatever
    their value, give exactly 1. *)
Theorem confidence_of_equal_scores (a : float) :
  is_finite a = true -> confidenceFromVariance a a = 1.
Proof.
  intros H. unfold confidenceFromVariance, Math_abs. by rewrite (sub_diag a H).
Qed.

Lemma confidence_of_equal_scores_witness : confidenceFromVariance 72.5 72.5 = 1.
Proof. apply confidence_of_equal_scores. reflexivity. Defined.

(** A score that is NaN is never turned into a confidence: the result
    is NaN as soon as one argument is. *)
Theorem confidence_of_nan (a b : float) :
  is_nan a = true \/ is_nan b = true ->
  is_nan (confidenceFromVariance a b) = true.
Proof.
  intros [H | H]; apply is_nan_eq in H; subst;
    unfold confidenceFromVariance, Math_abs;
    rewrite ?sub_nan_l, ?sub_nan_r; reflexivity.
Qed.

Lemma confidence_of_nan_witness : is_nan (confidenceFromVariance nan 50) = true.
Proof. apply confidence_of_nan. left. reflexivity. Defined.

Lemma band_holds_everywhere :
  all_upto 100 (fun s => all_upto 100 (band_holds_at s)) = true.
Proof. vm_compute. reflexivity. Qed.

(** The table of the docstring, as the code computes it on integer
    scores in 0..100: variance up to 10 gives 90-100%, up to 20 gives
    70-90%, up to 40 gives 50-70%, and beyond 40 gives 20-50% (exactly
    50% is still reached at variance 41, and the 10% floor is out of
    reach of scores in range). *)
Theorem confidence_bands (sales risk : Z) :
  (0 <= sales <= 100)%Z -> (0 <= risk <= 100)%Z ->
  let c := confidenceFromVariance (of_int sales) (of_int risk) in
  let v := Z.abs (sales - risk) in
  ((v <= 10)%Z -> leb 0.9 c = true /\ leb c 1 = true) /\
  ((10 < v <= 20)%Z -> leb 0.7 c = true /\ leb c 0.9 = true) /\
  ((20 < v <= 40)%Z -> leb 0.5 c = true /\ leb c 0.7 = true) /\
  ((40 < v)%Z -> leb 0.2 c = true /\ leb c 0.5 = true).
Proof.
  intros Hs Hr c v.
  pose proof (all_scores band_holds_at band_holds_everywhere sales risk Hs Hr) as H.
  unfold band_holds_at in H. fold c v in H.
  destruct (Z.leb_spec v 10); [| destruct (Z.leb_spec v 20); [| destruct (Z.leb_spec v 40)]];
    apply andb_prop in H; repeat split; intros; try lia; tauto.
Qed.

Lemma confidence_bands_witness :
  let c := confidenceFromVariance (of_int 86) (of_int 35) in
  let v := Z.abs (86 - 35) in
  ((v <= 10)%Z -> leb 0.9 c = true /\ leb c 1 = true) /\
  ((10 < v <= 20)%Z -> leb 0.7 c = true /\ leb c 0.9 = true) /\
  ((20 < v <= 40)%Z -> leb 0.5 c = true /\ leb c 0.7 = true) /\
  ((40 < v)%Z -> leb 0.2 c = true /\ leb c 0.5 = true).
Proof. apply confidence_bands; lia. Defined.

(** ** More on the confidence derivation *)

(** [applyConfidence] touches [confidence_score] and nothing else: the
    memos, the risk matrix and every other field of the loan are those
    of the case it was given. *)
Theorem applyConfidence_frame (c : DemoCase) :
  memos (applyConfidence c) = memos c /\
  riskMatrix (applyConfidence c) = riskMatrix c /\
  without_confidence (loan (applyConfidence c)) = without_confidence (loan c).
Proof.
  unfold applyConfidence.
  destruct (compliance_flag (loan c)); [done |].
  destruct (risk_score_of (find (agent_is Sales) (memos c))); [| done].
  by destruct (risk_score_of (find (agent_is Risk) (memos c))).
Qed.

(** Deriving the confidence twice is the same as deriving it once. *)
Theorem applyConfidence_idempotent (c : DemoCase) :
  applyConfidence (applyConfidence c) = applyConfidence c.
Proof.
  unfold applyConfidence at 2 3.
  destruct (compliance_flag (loan c)) eqn:Hflag.
  - unfold applyConfidence. cbn. by rewrite Hflag.
  - destruct (risk_score_of (find (agent_is Sales) (memos c))) as [s |] eqn:Hs.
    + destruct (risk_score_of (find (agent_is Risk) (memos c))) as [r |] eqn:Hr.
      * unfold applyConfidence. cbn. by rewrite Hflag, Hs, Hr.
      * unfold applyConfidence. by rewrite Hflag, Hs, Hr.
    + unfold applyConfidence. by rewrite Hflag, Hs.
Qed.

Lemma find_app_Some {A} (f : A -> bool) (l l' : list A) (x : A) :
  find f l = Some x -> find f (l ++ l') = Some x.
Proof.
  induction l as [| y l IH]; [done |]. cbn. by destruct (f y).
Qed.

(** Only the first Sales memo and the first Risk memo count: once both
    roles have spoken, memos appended later (a Moderator round, a second
    pass of the agents) leave the derived confidence as it is. *)
Theorem applyConfidence_later_memos (c : DemoCase) (extra : list AgentMemo) :
  is_Some (find (agent_is Sales) (memos c)) ->
  is_Some (find (agent_is Risk) (memos c)) ->
  confidence_score (loan (applyConfidence (with_more_memos c extra))) =
  confidence_score (loan (applyConfidence c)).
Proof.
  intros [s Hs] [r Hr]. unfold applyConfidence, with_more_memos. cbn.
  rewrite (find_app_Some _ _ extra _ Hs), (find_app_Some _ _ extra _ Hr), Hs, Hr.
  destruct (compliance_flag (loan c)); [done |].
  destruct (risk_score_of (Some s)); [| done].
  by destruct (risk_score_of (Some r)).
Qed.

Lemma applyConfidence_later_memos_witness :
  confidence_score (loan (applyConfidence (with_more_memos case_3 (memos case_1)))) =
  confidence_score (loan (applyConfidence case_3)).
Proof. apply applyConfidence_later_memos; by eexists. Defined.

(** ** Lookup of the demo cases *)

(** [isDemoCase] and [getDemoCase] agree on every id: an id is a demo
    id exactly when the lookup finds a case. *)
Theorem isDemoCase_getDemoCase (id : string) :
  isDemoCase id = true <-> is_Some (getDemoCase id).
Proof.
  unfold isDemoCase, DEMO_CASE_IDS, getDemoCase.
  rewrite bool_decide_eq_true, elem_of_list_to_set, list_elem_of_In, in_map_iff.
  split.
  - intros (c & <- & Hc).
    destruct (find _ DEMO_CASES) as [c' |] eqn:E; [by eexists |].
    eapply find_none in E; [| exact Hc]. by rewrite bool_decide_eq_false in E.
  - intros [c Hc]. apply find_some in Hc as [Hin Hid].
    exists c. by rewrite bool_decide_eq_true in Hid.
Qed.

(** What the lookup returns is a demo case carrying the id asked for,
    and a miss means no demo case has that id. *)
Theorem getDemoCase_sound (id : string) :
  match getDemoCase id with
  | Some c => In c DEMO_CASES /\ loan_id (loan c) = id
  | None => forall c, In c DEMO_CASES -> loan_id (loan c) <> id
  end.
Proof.
  unfold getDemoCase. destruct (find _ DEMO_CASES) as [c |] eqn:E.
  - apply find_some in E as [Hin Hid]. by rewrite bool_decide_eq_true in Hid.
  - intros c Hc. eapply find_none in E; [| exact Hc]. by rewrite bool_decide_eq_false in E.
Qed.

(** The ids of the demo cases are pairwise distinct, so looking a demo
    case up by its own id gives that very case back. *)
Theorem getDemoCase_round_trip (c : DemoCase) :
  In c DEMO_CASES -> getDemoCase (loan_id (loan c)) = Some c.
Proof.
  intros Hin. unfold DEMO_CASES, DEMO_CASES_literal in Hin. cbn [map] in Hin.
  repeat (destruct Hin as [<- | Hin]; [reflexivity |]). destruct Hin.
Qed.

Lemma getDemoCase_round_trip_witness :
  getDemoCase (loan_id (loan (applyConfidence case_2))) = Some (applyConfidence case_2).
Proof. apply getDemoCase_round_trip. right. left. reflexivity. Defined.

(** ** More on the overall-risk gauge *)

Lemma all_matrices_spec (p : Z -> Z -> Z -> Z -> bool) :
  all_matrices p = true ->
  forall a b c d, (0 <= a <= 10)%Z -> (0 <= b <= 10)%Z ->
    (0 <= c <= 10)%Z -> (0 <= d <= 10)%Z -> p a b c d = true.
Proof.
  intros H a b c d Ha Hb Hc Hd. unfold all_matrices in H.
  apply (all_upto_spec 10 (fun d => p a b c d)); [| exact Hd].
  apply (all_upto_spec 10 (fun c => all_upto 10 (fun d => p a b c d))); [| exact Hc].
  apply (all_upto_spec 10
    (fun b => all_upto 10 (fun c => all_upto 10 (fun d => p a b c d)))); [| exact Hb].
  apply (all_upto_spec 10 _ H a Ha).
Qed.

Lemma all_scores_10 (p : Z -> Z -> bool) :
  all_upto 10 (fun a => all_upto 10 (p a)) = true ->
  forall a b, (0 <= a <= 10)%Z -> (0 <= b <= 10)%Z -> p a b = true.
Proof.
  intros H a b Ha Hb.
  apply (all_upto_spec 10 (p a)); [| exact Hb].
  apply (all_upto_spec 10 (fun a => all_upto 10 (p a))); [exact H | exact Ha].
Qed.

Lemma gauge_exact_everywhere : all_matrices gauge_exact_at = true.
Proof. vm_compute. reflexivity. Qed.

(** The gauge reads the scores only. *)
Lemma overallRisk_scores (rm : RiskMatrix) (fin growth reg rep : Z) :
  score (financial_risk rm) = of_int fin ->
  score (growth_strength rm) = of_int growth ->
  score (regulatory_risk rm) = of_int reg ->
  score (reputation_risk rm) = of_int rep ->
  overallRisk rm = overallRisk (matrix_of_scores fin growth reg rep) /\
  aggregateRisk rm = aggregateRisk (matrix_of_scores fin growth reg rep).
Proof.
  intros Hf Hg Hq Hp. unfold overallRisk, aggregateRisk.
  rewrite Hf, Hg, Hq, Hp. by split.
Qed.

Lemma aggregate_exact_range (fin growth reg rep : Z) :
  (0 <= fin <= 10)%Z -> (0 <= growth <= 10)%Z ->
  (0 <= reg <= 10)%Z -> (0 <= rep <= 10)%Z ->
  (3 <= aggregate_exact fin growth reg rep <= 7)%Z.
Proof.
  intros Hf Hg Hq Hp. unfold aggregate_exact. split.
  - apply Z.div_le_lower_bound; lia.
  - apply Z.lt_succ_r. apply Z.div_lt_upper_bound; lia.
Qed.

Lemma of_int_le_small : all_upto 10 (fun n => all_upto 10 (of_int_le_at n)) = true.
Proof. vm_compute. reflexivity. Qed.

(** On whole-number scores in 0..10 the gauge is the exact aggregate
    (4 (fin + reg + rep) - 2 growth + 115) div 30: binary rounding never
    shows, the result lies between 3 and 7, and the clamp to 1..10 never
    fires. *)
Theorem overallRisk_whole_scores (rm : RiskMatrix) (fin growth reg rep : Z) :
  (0 <= fin <= 10)%Z -> (0 <= growth <= 10)%Z ->
  (0 <= reg <= 10)%Z -> (0 <= rep <= 10)%Z ->
  score (financial_risk rm) = of_int fin ->
  score (growth_strength rm) = of_int growth ->
  score (regulatory_risk rm) = of_int reg ->
  score (reputation_risk rm) = of_int rep ->
  overallRisk rm = of_int (aggregate_exact fin growth reg rep) /\
  overallRisk rm = aggregateRisk rm /\
  (3 <= aggregate_exact fin growth reg rep <= 7)%Z.
Proof.
  intros Hf Hg Hq Hp Ef Eg Eq Ep.
  destruct (overallRisk_scores rm _ _ _ _ Ef Eg Eq Ep) as [-> ->].
  pose proof (all_matrices_spec _ gauge_exact_everywhere fin growth reg rep Hf Hg Hq Hp) as H.
  unfold gauge_exact_at in H. cbv zeta in H. apply andb_prop in H as [H1 H2].
  apply FloatAxioms.Leibniz.eqb_spec in H1, H2.
  split; [exact H1 |]. split; [exact H2 |]. by apply aggregate_exact_range.
Qed.

Lemma overallRisk_whole_scores_witness :
  overallRisk FALLBACK_RISK = of_int (aggregate_exact 4 8 1 1) /\
  overallRisk FALLBACK_RISK = aggregateRisk FALLBACK_RISK /\
  (3 <= aggregate_exact 4 8 1 1 <= 7)%Z.
Proof. apply overallRisk_whole_scores; first [lia | reflexivity]. Defined.

(** The gauge moves the right way: on whole-number scores in 0..10,
    raising a risk score or lowering the growth score never lowers the
    overall risk shown. *)
Theorem overallRisk_monotone (rm rm' : RiskMatrix) (fin growth reg rep fin' growth' reg' rep' : Z) :
  (0 <= fin <= fin')%Z -> (fin' <= 10)%Z ->
  (0 <= growth' <= growth)%Z -> (growth <= 10)%Z ->
  (0 <= reg <= reg')%Z -> (reg' <= 10)%Z ->
  (0 <= rep <= rep')%Z -> (rep' <= 10)%Z ->
  score (financial_risk rm) = of_int fin ->
  score (growth_strength rm) = of_int growth ->
  score (regulatory_risk rm) = of_int reg ->
  score (reputation_risk rm) = of_int rep ->
  score (financial_risk rm') = of_int fin' ->
  score (growth_strength rm') = of_int growth' ->
  score (regulatory_risk rm') = of_int reg' ->
  score (reputation_risk rm') = of_int rep' ->
  leb (overallRisk rm) (overallRisk rm') = true.
Proof.
  intros Hf Hf' Hg Hg' Hq Hq' Hp Hp' Ef Eg Eq Ep Ef' Eg' Eq' Ep'.
  destruct (overallRisk_scores rm _ _ _ _ Ef Eg Eq Ep) as [-> _].
  destruct (overallRisk_scores rm' _ _ _ _ Ef' Eg' Eq' Ep') as [-> _].
  pose proof (all_matrices_spec _ gauge_exact_everywhere fin growth reg rep) as H.
  pose proof (all_matrices_spec _ gauge_exact_everywhere fin' growth' reg' rep') as H'.
  unfold gauge_exact_at in H, H'. cbv zeta in H, H'.
  destruct (andb_prop _ _ (H ltac:(lia) ltac:(lia) ltac:(lia) ltac:(lia))) as [E _].
  destruct (andb_prop _ _ (H' ltac:(lia) ltac:(lia) ltac:(lia) ltac:(lia))) as [E' _].
  apply FloatAxioms.Leibniz.eqb_spec in E, E'. rewrite E, E'.
  pose proof (aggregate_exact_range fin growth reg rep
                ltac:(lia) ltac:(lia) ltac:(lia) ltac:(lia)) as R.
  pose proof (aggregate_exact_range fin' growth' reg' rep'
                ltac:(lia) ltac:(lia) ltac:(lia) ltac:(lia)) as R'.
  assert (Hle : (aggregate_exact fin growth reg rep <=
                 aggregate_exact fin' growth' reg' rep')%Z).
  { unfold aggregate_exact. apply Z.div_le_mono; lia. }
  pose proof (all_scores_10 of_int_le_at of_int_le_small
                (aggregate_exact fin growth reg rep)
                (aggregate_exact fin' growth' reg' rep')
                ltac:(lia) ltac:(lia)) as T.
  unfold of_int_le_at in T. apply Z.leb_le in Hle. by rewrite Hle in T.
Qed.

Lemma overallRisk_monotone_witness :
  leb (overallRisk (riskMatrix case_4)) (overallRisk (riskMatrix case_3)) = true.
Proof.
  apply (overallRisk_monotone _ _ 4 8 1 1 9 4 1 1); first [lia | reflexivity].
Defined.

(** ** The rounds as rendered *)

Section Rounds.

Implicit Types (ms : list AgentMemo) (m : AgentMemo) (a : AgentType).

Lemma groupIntoRounds_imap ms :
  groupIntoRounds ms =
  imap (fun i m => {| round := earlier_same_role ms i m; memo := m |}) ms.
Proof.
  unfold groupIntoRounds. destruct (decide (length ms = 0%nat)) as [H0 | _].
  - by apply nil_length_inv in H0 as ->.
  - by rewrite (groupIntoRounds_loop ms [] [] ∅) by apply counts_of_empty.
Qed.

(** A memo arriving last is tagged with the number of memos its role
    has written so far, and the earlier tags stay. *)
Lemma groupIntoRounds_snoc ms m :
  groupIntoRounds (ms ++ [m]) =
  groupIntoRounds ms ++ [ {| round := count_role (agent_type m) ms; memo := m |} ].
Proof.
  rewrite !groupIntoRounds_imap, imap_app. f_equal.
  - apply imap_ext. intros i x Hi. cbn. f_equal.
    unfold earlier_same_role. apply lookup_lt_Some in Hi.
    by rewrite take_app_le by lia.
  - cbn. f_equal. unfold earlier_same_role, count_role.
    by rewrite Nat.add_0_r, take_app_length.
Qed.

Lemma count_role_snoc a ms m :
  count_role a (ms ++ [m]) =
  (count_role a ms + (if decide (agent_type m = a) then 1 else 0))%nat.
Proof.
  unfold count_role. rewrite filter_app, length_app. f_equal.
  destruct (decide (agent_type m = a)).
  - by rewrite filter_cons_True.
  - by rewrite filter_cons_False.
Qed.

Lemma rounds_snoc ms m :
  rounds (ms ++ [m]) =
  rounds_step (rounds ms) {| round := count_role (agent_type m) ms; memo := m |}.
Proof. unfold rounds. by rewrite groupIntoRounds_snoc, foldl_app. Qed.

(** The tag of a memo is below the number of memos of its role. *)
Lemma round_lt_count ms g :
  g ∈ groupIntoRounds ms -> (round g < count_role (agent_type (memo g)) ms)%nat.
Proof.
  induction ms as [| m ms IH] using rev_ind; [by intros ?%elem_of_nil |].
  rewrite groupIntoRounds_snoc, elem_of_app, list_elem_of_singleton, count_role_snoc.
  intros [Hg | ->].
  - specialize (IH Hg). lia.
  - cbn. rewrite decide_True by done. lia.
Qed.

Lemma filter_none {A} (P : A -> Prop) `{!forall x, Decision (P x)} (l : list A) :
  (forall x, x ∈ l -> ~ P x) -> filter P l = [].
Proof.
  induction l as [| x l IH]; [done |]. intros Hn.
  rewrite filter_cons_False by (apply Hn; left).
  apply IH. intros y Hy. apply Hn. by right.
Qed.

Lemma group_of_snoc_same k grouped g :
  round g = k ->
  group_of k (grouped ++ [g]) =
  {| group_round := k;
     items := items (group_of k grouped) ++ [ {| item_memo := memo g |} ] |}.
Proof.
  intros Hk. unfold group_of. cbn. f_equal.
  by rewrite filter_app, fmap_app, filter_cons_True.
Qed.

Lemma group_of_snoc_other k grouped g :
  round g <> k -> group_of k (grouped ++ [g]) = group_of k grouped.
Proof.
  intros Hk. unfold group_of. f_equal.
  by rewrite filter_app, filter_cons_False, app_nil_r.
Qed.

Lemma rounds_inv_holds ms : rounds_inv ms (rounds ms).
Proof.
  induction ms as [| m ms (Hgrp & Hcnt & Hne)] using rev_ind.
  - change (rounds []) with (@nil RoundGroup). repeat split.
    + intros k r Hk. by rewrite lookup_nil in Hk.
    + intros a. cbn. lia.
    + intros k Hk. cbn in Hk. lia.
  - rewrite rounds_snoc. set (c := count_role (agent_type m) ms).
    set (g := {| round := c; memo := m |}). set (rs := rounds ms) in *.
    assert (Hrounds : forall g', g' ∈ groupIntoRounds ms -> (round g' < length rs)%nat).
    { intros g' Hg'. pose proof (round_lt_count _ _ Hg').
      pose proof (Hcnt (agent_type (memo g'))). lia. }
    unfold rounds_step. destruct (list_find _ rs) as [[i r0] |] eqn:Efind.
    + apply list_find_Some in Efind as (Hi & Hr0 & _). cbn in Hr0.
      pose proof (Hgrp _ _ Hi) as ->. cbn in Hr0. subst i.
      pose proof (lookup_lt_Some _ _ _ Hi) as Hlt.
      repeat split.
      * intros k r Hk. rewrite groupIntoRounds_snoc. fold c g.
        destruct (decide (k = c)) as [-> | Hne'].
        -- rewrite list_lookup_insert_eq in Hk by done. apply (inj Some) in Hk as <-.
           by rewrite group_of_snoc_same.
        -- rewrite list_lookup_insert_ne in Hk by done.
           rewrite group_of_snoc_other by (cbn; congruence). by apply Hgrp.
      * intros a. rewrite length_insert, count_role_snoc.
        destruct (decide (agent_type m = a)) as [<- | _]; [fold c; lia |].
        pose proof (Hcnt a). lia.
      * intros k. rewrite length_insert. intros Hk.
        destruct (Hne k Hk) as (g' & Hg' & Hg'k). exists g'.
        rewrite groupIntoRounds_snoc, elem_of_app. auto.
    + apply list_find_None in Efind.
      assert (Hc : c = length rs).
      { pose proof (Hcnt (agent_type m)). fold c in H.
        destruct (decide (c = length rs)) as [| Hne']; [done |].
        assert (Hlt : (c < length rs)%nat) by lia.
        apply lookup_lt_is_Some in Hlt as [r Hr].
        pose proof (Hgrp _ _ Hr) as ->.
        rewrite Forall_forall in Efind.
        exfalso. apply (Efind (group_of c (groupIntoRounds ms))); [| done].
        by eapply list_elem_of_lookup_2. }
      repeat split.
      * intros k r Hk. rewrite groupIntoRounds_snoc. fold c g.
        destruct (decide (k = c)) as [-> | Hne'].
        -- rewrite lookup_app_r in Hk by lia.
           replace (c - length rs)%nat with 0%nat in Hk by lia.
           cbn in Hk. apply (inj Some) in Hk as <-.
           unfold group_of. rewrite filter_app, fmap_app.
           rewrite (filter_none _ (groupIntoRounds ms)).
           ++ by rewrite filter_cons_True.
           ++ intros g' Hg' Hg'c. apply Hrounds in Hg'. lia.
        -- assert (Hk' : (k < length rs)%nat).
           { apply lookup_lt_Some in Hk. rewrite length_app in Hk. cbn in Hk. lia. }
           rewrite lookup_app_l in Hk by done.
           rewrite group_of_snoc_other by (cbn; congruence). by apply Hgrp.
      * intros a. rewrite length_app, count_role_snoc. cbn.
        pose proof (Hcnt a). destruct (decide _); lia.
      * intros k. rewrite length_app. cbn. intros Hk.
        destruct (decide (k = c)) as [-> | Hne'].
        -- exists g. split; [| done].
           rewrite groupIntoRounds_snoc, elem_of_app, list_elem_of_singleton. auto.
        -- destruct (Hne k ltac:(lia)) as (g' & Hg' & Hg'k). exists g'.
           rewrite groupIntoRounds_snoc, elem_of_app. auto.
Qed.

End Rounds.

(** The rounds are rendered in the order 0, 1, 2, ... with no gap and
    no repeat: the header at position [k] is the one of round [k]. *)
Theorem rounds_headers (ms : list AgentMemo) :
  group_round <$> rounds ms = seq 0 (length (rounds ms)).
Proof.
  destruct (rounds_inv_holds ms) as (Hgrp & _ & _).
  apply list_eq. intros k. rewrite list_lookup_fmap.
  destruct (rounds ms !! k) as [r |] eqn:E.
  - rewrite (Hgrp _ _ E). cbn.
    by rewrite lookup_seq_lt by (by eapply lookup_lt_Some).
  - cbn. symmetry. apply lookup_seq_ge. by apply lookup_ge_None.
Qed.

(** The group rendered at position [k] holds exactly the memos that
    [groupIntoRounds] tagged with round [k], in the order of the debate,
    and it is never empty. *)
Theorem rounds_items (ms : list AgentMemo) (k : nat) (r : RoundGroup) :
  rounds ms !! k = Some r ->
  item_memo <$> items r = memo <$> filter (fun g => round g = k) (groupIntoRounds ms) /\
  items r <> [].
Proof.
  destruct (rounds_inv_holds ms) as (Hgrp & _ & Hne). intros Hk.
  rewrite (Hgrp _ _ Hk). cbn. split.
  - by rewrite <- list_fmap_compose.
  - destruct (Hne k) as (g & Hg & Hgk); [by eapply lookup_lt_Some |].
    intros E. apply fmap_nil_inv in E.
    by pose proof (filter_nil_not_elem_of _ _ g E Hgk).
Qed.

Lemma rounds_items_witness :
  item_memo <$> items (group_of 0 (groupIntoRounds FALLBACK_MEMOS)) =
    memo <$> filter (fun g => round g = 0%nat) (groupIntoRounds FALLBACK_MEMOS) /\
  items (group_of 0 (groupIntoRounds FALLBACK_MEMOS)) <> [].
Proof. apply (rounds_items FALLBACK_MEMOS 0). reflexivity. Defined.

(** The number of rounds rendered is the largest number of memos any
    single role has written. *)
Theorem rounds_count (ms : list AgentMemo) :
  (forall a, (count_role a ms <= length (rounds ms))%nat) /\
  (ms <> [] -> exists a, count_role a ms = length (rounds ms)).
Proof.
  destruct (rounds_inv_holds ms) as (_ & Hcnt & Hne). split; [exact Hcnt |].
  intros Hms. destruct (length (rounds ms)) as [| K] eqn:EK.
  - destruct ms as [| m ms]; [done |]. exfalso.
    pose proof (Hcnt (agent_type m)) as H. rewrite ?EK in H.
    unfold count_role in H. rewrite filter_cons_True in H by done. cbn in H. lia.
  - destruct (Hne K) as (g & Hg & Hgk); [rewrite ?EK; lia |].
    exists (agent_type (memo g)).
    pose proof (round_lt_count _ _ Hg). pose proof (Hcnt (agent_type (memo g))). lia.
Qed.

Lemma concat_insert_app {A} (l : list (list A)) (i : nat) (x y : list A) :
  l !! i = Some x -> concat (<[i := x ++ y]> l) ≡ₚ concat l ++ y.
Proof.
  revert i. induction l as [| z l IH]; intros [| i] Hi; try done.
  - cbn in Hi. apply (inj Some) in Hi as ->. cbn.
    rewrite <- !app_assoc. f_equiv. apply Permutation_app_comm.
  - cbn in *. rewrite (IH _ Hi). by rewrite app_assoc.
Qed.

Lemma shown_memos_step (rs : list RoundGroup) (g : RoundedMemo) :
  shown_memos (rounds_step rs g) ≡ₚ shown_memos rs ++ [memo g].
Proof.
  unfold shown_memos, rounds_step.
  destruct (list_find _ rs) as [[i r0] |] eqn:Efind.
  - apply list_find_Some in Efind as (Hi & _ & _).
    rewrite list_fmap_insert. cbn.
    rewrite (concat_insert_app (items <$> rs) i (items r0)); [by rewrite fmap_app |].
    by rewrite list_lookup_fmap, Hi.
  - by rewrite fmap_app, concat_app, fmap_app; cbn.
Qed.

(** Nothing is lost and nothing is shown twice: the memos of all the
    groups together are the memos of the debate, rearranged. *)
Theorem rounds_show_every_memo (ms : list AgentMemo) :
  shown_memos (rounds ms) ≡ₚ ms.
Proof.
  induction ms as [| m ms IH] using rev_ind; [done |].
  by rewrite rounds_snoc, shown_memos_step, IH.
Qed.

Lemma tagged_roles_NoDup (ms : list AgentMemo) (k : nat) :
  NoDup ((fun g => agent_type (memo g)) <$>
         filter (fun g => round g = k) (groupIntoRounds ms)).
Proof.
  induction ms as [| m ms IH] using rev_ind; [constructor |].
  rewrite groupIntoRounds_snoc, filter_app, fmap_app.
  set (c := count_role (agent_type m) ms).
  destruct (decide (c = k)) as [<- | Hne].
  - rewrite filter_cons_True by done. cbn.
    apply NoDup_app. split; [exact IH |]. split; [| apply NoDup_singleton].
    intros a Ha Ha'. apply list_elem_of_singleton in Ha' as ->.
    apply list_elem_of_fmap in Ha as (g' & Hrole & Hg').
    apply list_elem_of_filter in Hg' as [Hround Hg'].
    pose proof (round_lt_count _ _ Hg') as Hlt. rewrite <- Hrole in Hlt.
    fold c in Hlt. lia.
  - rewrite filter_cons_False by done. cbn. by rewrite app_nil_r.
Qed.

(** No role appears twice in a round, so a group never holds more than
    four memos. *)
Theorem rounds_roles_distinct (ms : list AgentMemo) (r : RoundGroup) :
  r ∈ rounds ms ->
  NoDup ((fun i => agent_type (item_memo i)) <$> items r) /\
  (length (items r) <= 4)%nat.
Proof.
  intros (k & Hk)%list_elem_of_lookup_1.
  destruct (rounds_inv_holds ms) as (Hgrp & _ & _).
  rewrite (Hgrp _ _ Hk). cbn.
  assert (Hnd : NoDup ((fun i => agent_type (item_memo i)) <$>
    ((fun g => {| item_memo := memo g |}) <$>
       filter (fun g => round g = k) (groupIntoRounds ms)))).
  { rewrite <- list_fmap_compose. apply tagged_roles_NoDup. }
  split; [exact Hnd |].
  rewrite <- (length_fmap (fun i => agent_type (item_memo i))).
  change 4%nat with (length [Sales; Risk; Compliance; Moderator]).
  apply submseteq_length, NoDup_submseteq; [exact Hnd |].
  intros [] _; set_solver.
Qed.

Lemma rounds_roles_distinct_witness :
  NoDup ((fun i => agent_type (item_memo i)) <$>
         items (group_of 0 (groupIntoRounds FALLBACK_MEMOS))) /\
  (length (items (group_of 0 (groupIntoRounds FALLBACK_MEMOS))) <= 4)%nat.
Proof.
  apply (rounds_roles_distinct FALLBACK_MEMOS). left.
Defined.

(** ** The round headers *)

Lemma roundLabel_inj (r r' : RoundGroup) :
  roundLabel r = roundLabel r' -> group_round r = group_round r'.
Proof.
  unfold roundLabel.
  destruct (decide (group_round r = 0%nat)) as [-> | Hr],
           (decide (group_round r' = 0%nat)) as [-> | Hr'];
    [done | discriminate | discriminate |].
  intros H. apply (inj (String.app "Debate Round ")) in H. by apply (inj pretty) in H.
Qed.

(** No two headers of a rendered debate read the same. *)
Theorem round_labels_distinct (ms : list AgentMemo) :
  NoDup (roundLabel <$> rounds ms).
Proof.
  apply NoDup_fmap_2_strong.
  - intros r r' Hr Hr' Hl. apply roundLabel_inj in Hl.
    destruct (rounds_inv_holds ms) as (Hgrp & _ & _).
    apply list_elem_of_lookup_1 in Hr as [k Hk], Hr' as [k' Hk'].
    rewrite (Hgrp _ _ Hk), (Hgrp _ _ Hk') in *. cbn in Hl. by subst.
  - apply (NoDup_fmap_1 group_round). rewrite rounds_headers. apply NoDup_seq.
Qed.

(** ** The chat history *)

Lemma history_later (messages : list Message) (n : nat) :
  snd <$> filter (fun im => msg_role (snd im) <> assistant \/ (0 < fst im)%nat)
                 (imap (fun i m => (S (n + i), m)) messages) = messages.
Proof.
  revert n. induction messages as [| m l IH]; intros n; [done |].
  rewrite imap_cons, filter_cons_True by (right; cbn; lia). cbn. f_equal.
  rewrite <- (IH (S n)) at 2. do 2 f_equal. apply imap_ext. intros i x _. cbn.
  f_equal. lia.
Qed.

(** The history sent with a question is the conversation without its
    opening message when that one is the assistant's greeting; nothing
    else is dropped and the order is kept. *)
Theorem history_drops_greeting_only (messages : list Message) :
  history messages =
  match messages with
  | m :: rest => if decide (msg_role m = assistant) then rest else m :: rest
  | [] => []
  end.
Proof.
  destruct messages as [| m rest]; [done |]. unfold history. rewrite imap_cons.
  assert (E : snd <$> filter
                (fun im => msg_role (snd im) <> assistant \/ (0 < fst im)%nat)
                (imap (pair ∘ S) rest) = rest).
  { rewrite <- (history_later rest 0) at 2. do 2 f_equal. }
  destruct (decide (msg_role m = assistant)) as [Ha | Hna].
  - rewrite filter_cons_False; [exact E |]. cbn. intros [? | ?]; [done | lia].
  - rewrite filter_cons_True by (by left). cbn. by rewrite E.
Qed.

(** ** The decision PDF link *)

Lemma string_app_length (s t : string) :
  String.length (s +:+ t) = (String.length s + String.length t)%nat.
Proof.
  induction s as [| c s IH]; [done |].
  change (String.length (String c s +:+ t)) with (S (String.length (s +:+ t))).
  by rewrite IH.
Qed.

Lemma string_app_inj_r (s s' t : string) : s +:+ t = s' +:+ t -> s = s'.
Proof.
  revert s'. induction s as [| c s IH]; intros [| c' s'] H.
  - done.
  - apply (f_equal String.length) in H. rewrite !string_app_length in H. cbn in H. lia.
  - apply (f_equal String.length) in H. rewrite !string_app_length in H. cbn in H. lia.
  - change (String c (s +:+ t) = String c' (s' +:+ t)) in H.
    injection H as -> H. f_equal. by apply IH.
Qed.

(** Two loans share a decision PDF link only if they share their id,
    whatever the configured API base. *)
Theorem getDecisionPdfUrl_inj (env : option string) (id id' : string) :
  getDecisionPdfUrl env id = getDecisionPdfUrl env id' -> id = id'.
Proof.
  unfold getDecisionPdfUrl. intros H.
  apply (inj (String.app (API_BASE env))) in H.
  apply (inj (String.app "/api/decision/")) in H.
  by apply string_app_inj_r in H.
Qed.

Lemma getDecisionPdfUrl_inj_witness : "case-1" = "case-1".
Proof. apply (getDecisionPdfUrl_inj None). reflexivity. Defined.

(** ** The figures of the decision summary *)

Lemma percent_shown_everywhere :
  all_upto 100 (fun s => all_upto 100 (percent_shown_at s)) = true.
Proof. vm_compute. reflexivity. Qed.

Lemma score_shown_everywhere : all_upto 1000 score_shown_at = true.
Proof. vm_compute. reflexivity. Qed.

(** The percentage printed in the summary is the confidence in
    hundredths: for integer scores in 0..100 the text is the whole
    number of the amended law followed by a percent sign, with no
    rounding artefact of the multiplication by 100. *)
Theorem confidence_percent_shown (l : LoanApplication) (sales risk : Z) :
  (0 <= sales <= 100)%Z -> (0 <= risk <= 100)%Z ->
  confidence_score l = Some (confidenceFromVariance (of_int sales) (of_int risk)) ->
  confidenceText l =
    Some (pretty (if rounds_low (Z.abs (sales - risk))
                  then confidence_spec sales risk - 1
                  else confidence_spec sales risk)%Z +:+ "%").
Proof.
  intros Hs Hr Hc.
  pose proof (all_scores _ percent_shown_everywhere sales risk Hs Hr) as H.
  unfold percent_shown_at in H. cbv zeta in H. apply bool_decide_eq_true in H.
  rewrite <- H. unfold confidenceText. by rewrite Hc.
Qed.

Lemma confidence_percent_shown_witness :
  confidenceText (loan (applyConfidence case_1)) =
    Some (pretty (if rounds_low (Z.abs (85 - 45))
                  then confidence_spec 85 45 - 1
                  else confidence_spec 85 45)%Z +:+ "%").
Proof. apply confidence_percent_shown; first [lia | reflexivity]. Defined.

(** A final score that is a whole number of tenths between 0 and 100
    is printed digit for digit, and the threshold line gives its exact
    distance to 20 with "above" from 20.0 on and "below" under it. *)
Theorem score_shown (l : LoanApplication) (k : Z) :
  (0 <= k <= 1000)%Z ->
  final_score l = Some (tenths k) ->
  scoreText l = Some (decimal1 k) /\
  thresholdText l =
    Some (decimal1 (Z.abs (k - 200)) +:+ " points "
          +:+ (if (200 <=? k)%Z then "above" else "below")
          +:+ " approval threshold").
Proof.
  intros Hk Hf.
  pose proof (all_upto_spec 1000 score_shown_at score_shown_everywhere k Hk) as H.
  unfold score_shown_at in H. cbv zeta in H. apply andb_prop in H as [H1 H2].
  apply bool_decide_eq_true in H1, H2.
  rewrite <- H1, <- H2. unfold scoreText, thresholdText. by rewrite Hf.
Qed.

Lemma score_shown_witness :
  scoreText (loan case_4) = Some (decimal1 204) /\
  thresholdText (loan case_4) =
    Some (decimal1 (Z.abs (204 - 200)) +:+ " points "
          +:+ (if (200 <=? 204)%Z then "above" else "below")
          +:+ " approval threshold").
Proof. apply score_shown; first [lia | reflexivity]. Defined.

(** ** The gauge shows a whole number *)

Section WholeGauge.

Local Open Scope Z_scope.

Lemma shr_fexp_ge (m e : Z) (l : location) : e <= snd (shr_fexp prec emax m e l).
Proof.
  unfold shr_fexp, shr. destruct (fexp prec emax (Zdigits2 m + e) - e); cbn [snd]; lia.
Qed.

Lemma shr_1_digits (r : shr_record) :
  0 <= shr_m r ->
  Zdigits2 (shr_m (shr_1 r)) = Z.max 0 (Zdigits2 (shr_m r) - 1).
Proof.
  destruct r as [m rr s]. destruct m as [| [p | p |] | p];
    cbn [shr_1 shr_m Zdigits2 digits2_pos]; lia.
Qed.

Lemma iter_shr_1_digits (p : positive) (r : shr_record) :
  0 <= shr_m r ->
  Zdigits2 (shr_m (SpecFloat.iter_pos shr_1 p r)) = Z.max 0 (Zdigits2 (shr_m r) - Z.pos p).
Proof.
  revert r. induction p as [p IH | p IH |]; intros r Hr; cbn [SpecFloat.iter_pos].
  - destruct (shr_1_bounds r Hr) as [H1 _].
    destruct (iter_shr_1_bounds p _ H1) as [H2 _].
    rewrite (IH _ H2), (IH _ H1), (shr_1_digits r Hr). lia.
  - destruct (iter_shr_1_bounds p _ Hr) as [H2 _].
    rewrite (IH _ H2), (IH _ Hr). lia.
  - by apply shr_1_digits.
Qed.

(** Above the subnormal range a shift to the canonical exponent keeps
    the leading digit. *)
Lemma shr_fexp_positive (m e : Z) (l : location) :
  0 < m -> -1000 <= e ->
  0 < shr_m (fst (shr_fexp prec emax m e l)).
Proof.
  intros Hm He. unfold shr_fexp, shr.
  assert (Hd : 1 <= Zdigits2 m) by (destruct m; cbn; lia).
  destruct (fexp prec emax (Zdigits2 m + e) - e) as [| p | p] eqn:En;
    cbn [fst]; rewrite ?shr_m_of_loc; try lia.
  pose proof (iter_shr_1_digits p (shr_record_of_loc m l)) as Hdig.
  destruct (iter_shr_1_bounds p (shr_record_of_loc m l)) as [Hnn _].
  { rewrite shr_m_of_loc. lia. }
  rewrite shr_m_of_loc in Hdig. specialize (Hdig ltac:(lia)).
  unfold fexp, SpecFloat.emin, prec, emax in En.
  destruct (shr_m (SpecFloat.iter_pos shr_1 p (shr_record_of_loc m l))) as [| q | q];
    [cbn in Hdig; lia | lia | lia].
Qed.

(** Rounding a positive integer significand at an exponent of at least
    [-48] gives a positive double whose exponent is at least that, or
    the positive infinity. *)
Lemma binary_round_aux_large (mx ex : Z) :
  0 < mx -> -48 <= ex ->
  binary_round_aux prec emax false mx ex loc_Exact = S754_infinity false \/
  exists m e, binary_round_aux prec emax false mx ex loc_Exact = S754_finite false m e /\
              -48 <= e.
Proof.
  intros Hm He. unfold binary_round_aux.
  pose proof (shr_fexp_ge mx ex loc_Exact) as G1.
  pose proof (shr_fexp_positive mx ex loc_Exact Hm ltac:(lia)) as P1.
  destruct (shr_fexp prec emax mx ex loc_Exact) as [mrs' e']. cbn [fst snd] in G1, P1.
  assert (P2 : 0 < round_nearest_even (shr_m mrs') (loc_of_shr_record mrs')).
  { unfold round_nearest_even. destruct (loc_of_shr_record mrs') as [| []];
      try destruct (Z.even (shr_m mrs')); lia. }
  pose proof (shr_fexp_ge (round_nearest_even (shr_m mrs') (loc_of_shr_record mrs'))
                e' loc_Exact) as G2.
  pose proof (shr_fexp_positive _ e' loc_Exact P2 ltac:(lia)) as P3.
  destruct (shr_fexp prec emax _ e' loc_Exact) as [mrs'' e'']. cbn [fst snd] in G2, P3.
  destruct (shr_m mrs'') as [| m | m]; [lia | | lia].
  destruct (e'' <=? emax - prec); [right | left; reflexivity].
  exists m, e''. split; [reflexivity | lia].
Qed.

Lemma digits2_ge_5 (p : positive) : (16 <= p)%positive -> 5 <= Z.pos (digits2_pos p).
Proof.
  intros Hp. rewrite digits2_size. pose proof (Pos.size_gt p) as Hs.
  apply Pos2Z.pos_lt_pos in Hs. rewrite Pos2Z.inj_pow in Hs.
  destruct (Z.le_gt_cases 5 (Z.pos (Pos.size p))) as [| Hlt]; [done |].
  assert (2 ^ Z.pos (Pos.size p) <= 2 ^ 4) by (apply Z.pow_le_mono_r; lia).
  change (2 ^ 4) with 16 in *. lia.
Qed.

Lemma binary_normalize_large (p : positive) :
  (16 <= p)%positive ->
  binary_normalize prec emax (Z.pos p) 0 false = S754_infinity false \/
  exists m e, binary_normalize prec emax (Z.pos p) 0 false = S754_finite false m e /\
              -48 <= e.
Proof.
  intros Hp. cbn [binary_normalize]. unfold binary_round.
  pose proof (digits2_ge_5 p Hp) as Hd.
  assert (He : -48 <= snd (shl_align p 0 (fexp prec emax (Z.pos (digits2_pos p) + 0)))).
  { unfold shl_align, fexp, SpecFloat.emin, prec, emax.
    destruct (Z.max _ _ - 0) eqn:E; cbn [snd]; lia. }
  destruct (shl_align p 0 _) as [mz ez]. cbn [snd] in He.
  apply binary_round_aux_large; lia.
Qed.

(** The sign given to [binary_round] is the sign of its result. *)
Lemma binary_round_sign (s : bool) (m : positive) (e : Z) :
  match binary_round prec emax s m e with
  | S754_zero s' | S754_infinity s' | S754_finite s' _ _ => s' = s
  | S754_nan => True
  end.
Proof.
  unfold binary_round, binary_round_aux.
  destruct (shl_align m e _) as [mz ez].
  destruct (shr_fexp prec emax (Z.pos mz) ez loc_Exact) as [mrs' e'].
  destruct (shr_fexp prec emax _ e' loc_Exact) as [mrs'' e''].
  destruct (shr_m mrs''); [done | | done].
  by destruct (e'' <=? emax - prec).
Qed.

End WholeGauge.

Section WholeGaugeNumbers.

Local Open Scope Z_scope.

Lemma Prim2SF_1 : Prim2SF 1%float = S754_finite false 4503599627370496 (-52).
Proof. reflexivity. Qed.

Lemma Prim2SF_10 : Prim2SF 10%float = S754_finite false 5629499534213120 (-49).
Proof. reflexivity. Qed.

(** A number that is not above 1 is shown as 1. *)
Lemma clamp_low (x : float) :
  is_nan x = false -> (1 <? x)%float = false -> (x <? 1)%float = true ->
  Math_min 10 (Math_max 1 x) = 1%float.
Proof.
  intros Hn H1 H2. unfold Math_max. rewrite Hn, H1, H2. reflexivity.
Qed.

(** A number above 10 is shown as 10. *)
Lemma clamp_high (x : float) :
  is_nan x = false -> (1 <? x)%float = true -> (10 <? x)%float = true ->
  Math_min 10 (Math_max 1 x) = 10%float.
Proof.
  intros Hn H1 H2.
  assert (E : Math_max 1 x = x) by (unfold Math_max; rewrite Hn, H1; reflexivity).
  rewrite E. unfold Math_min. rewrite Hn, H2. reflexivity.
Qed.

Lemma clamp_nonpos (x : float) :
  SFnonpos (Prim2SF x) -> Math_min 10 (Math_max 1 x) = 1%float.
Proof.
  intros H. apply clamp_low.
  - apply is_nan_spec. by destruct (Prim2SF x).
  - rewrite FloatAxioms.ltb_spec, Prim2SF_1.
    by destruct (Prim2SF x) as [s | [] | | [] m e].
  - rewrite FloatAxioms.ltb_spec, Prim2SF_1.
    by destruct (Prim2SF x) as [s | [] | | [] m e].
Qed.

Lemma clamp_big (x : float) :
  SFbig (Prim2SF x) -> Math_min 10 (Math_max 1 x) = 10%float.
Proof.
  intros H. apply clamp_high.
  - apply is_nan_spec. by destruct (Prim2SF x).
  - rewrite FloatAxioms.ltb_spec, Prim2SF_1.
    destruct (Prim2SF x) as [s | [] | | [] m e]; try done.
    cbn in H. unfold SFltb, SFcompare.
    by destruct (Z.compare_spec (-52) e); try lia.
  - rewrite FloatAxioms.ltb_spec, Prim2SF_10.
    destruct (Prim2SF x) as [s | [] | | [] m e]; try done.
    cbn in H. unfold SFltb, SFcompare.
    by destruct (Z.compare_spec (-49) e); try lia.
Qed.

Lemma of_uint63_spec_small (n : Z) :
  0 <= n < 2 ^ 63 ->
  Prim2SF (of_uint63 (Uint63.of_Z n)) = binary_normalize prec emax n 0 false.
Proof.
  intros Hn. rewrite FloatAxioms.of_uint63_spec, Uint63.of_Z_spec.
  by rewrite Z.mod_small.
Qed.

Lemma of_int_negative (n : Z) :
  - 2 ^ 63 < n < 0 -> SFnonpos (Prim2SF (of_int n)).
Proof.
  intros Hn. unfold of_int. destruct (Z.ltb_spec n 0); [| lia].
  rewrite FloatAxioms.opp_spec, of_uint63_spec_small by lia.
  destruct n as [| p | p]; try lia.
  change (- Z.neg p) with (Z.pos p). cbn [binary_normalize].
  pose proof (binary_round_sign false p 0) as Hs.
  pose proof (binary_normalize_num (Z.pos p) 0 false) as Hnn. cbn [binary_normalize] in Hnn.
  destruct (binary_round prec emax false p 0) as [s | s | | s m e];
    cbn in Hs; subst; cbn; done.
Qed.

Lemma of_int_big (n : Z) :
  16 <= n < 2 ^ 63 -> SFbig (Prim2SF (of_int n)).
Proof.
  intros Hn. unfold of_int. destruct (Z.ltb_spec n 0); [lia |].
  rewrite of_uint63_spec_small by lia.
  destruct n as [| p | p]; try lia.
  destruct (binary_normalize_large p ltac:(lia)) as [-> | (m & e & -> & He)]; done.
Qed.

Lemma clamp_of_small_int :
  all_upto 15 (fun n => PrimFloat.Leibniz.eqb
                          (Math_min 10 (Math_max 1 (of_int n)))
                          (of_int (Z.min 10 (Z.max 1 n)))) = true.
Proof. vm_compute. reflexivity. Qed.

(** The clamp of a whole number is the whole number clamped. *)
Lemma clamp_of_int (n : Z) :
  - 2 ^ 63 < n < 2 ^ 63 ->
  Math_min 10 (Math_max 1 (of_int n)) = of_int (Z.min 10 (Z.max 1 n)).
Proof.
  intros Hn.
  destruct (Z.lt_ge_cases n 0) as [Hneg | Hnn].
  { rewrite clamp_nonpos by (apply of_int_negative; lia).
    by replace (Z.min 10 (Z.max 1 n)) with 1 by lia. }
  destruct (Z.le_gt_cases 16 n) as [Hbig | Hsmall].
  { rewrite clamp_big by (apply of_int_big; lia).
    by replace (Z.min 10 (Z.max 1 n)) with 10 by lia. }
  apply FloatAxioms.Leibniz.eqb_spec.
  apply (all_upto_spec 15 _ clamp_of_small_int). lia.
Qed.

Lemma valid_mantissa_bound (s : bool) (m : positive) (e : Z) :
  valid_binary (S754_finite s m e) = true -> Z.pos m < 2 ^ 53.
Proof.
  unfold SpecFloat.valid_binary, bounded, canonical_mantissa, fexp, SpecFloat.emin, prec, emax.
  intros H. apply andb_prop in H as [H1 _]. apply Z.eqb_eq in H1.
  rewrite digits2_size in H1. pose proof (Pos.size_gt m) as Hs.
  apply Pos2Z.pos_lt_pos in Hs. rewrite Pos2Z.inj_pow in Hs.
  eapply Z.lt_le_trans; [exact Hs |]. apply Z.pow_le_mono_r; lia.
Qed.

Lemma round_half_up_bound (s : bool) (m k : positive) :
  Z.abs (round_half_up s m (Z.neg k)) <= Z.pos m.
Proof.
  unfold round_half_up. rewrite Z.shiftr_div_pow2, Z.shiftl_mul_pow2 by lia.
  replace (2 ^ Z.pos k) with (2 * 2 ^ (Z.pos k - 1)).
  2: { rewrite <- (Z.pow_succ_r 2) by lia. f_equal. lia. }
  assert (HP : 0 < 2 ^ (Z.pos k - 1)) by (apply Z.pow_pos_nonneg; lia).
  set (P := 2 ^ (Z.pos k - 1)) in *. rewrite Z.mul_1_l.
  destruct s.
  - assert (- Z.pos m <= (Z.neg m + P) / (2 * P)) by (apply Z.div_le_lower_bound; nia).
    assert ((Z.neg m + P) / (2 * P) < 1) by (apply Z.div_lt_upper_bound; lia).
    lia.
  - assert (0 <= (Z.pos m + P) / (2 * P)) by (apply Z.div_pos; lia).
    assert ((Z.pos m + P) / (2 * P) <= Z.pos m) by (apply Z.div_le_upper_bound; nia).
    lia.
Qed.

(** Whatever number comes out of the aggregate, the gauge shows a whole
    number between 1 and 10. *)
Lemma clamp_round_whole (y : float) :
  is_nan y = false ->
  exists n, 1 <= n <= 10 /\ Math_min 10 (Math_max 1 (Math_round y)) = of_int n.
Proof.
  intros Hy. pose proof (Prim2SF_valid y) as Hv.
  pose proof (proj1 (is_nan_spec y) Hy) as Hnn.
  unfold Math_round.
  destruct (Prim2SF y) as [s | s | | s m e] eqn:E; [| | done |].
  - exists 1. split; [lia |]. apply clamp_nonpos. by rewrite E.
  - destruct s.
    + exists 1. split; [lia |]. apply clamp_nonpos. by rewrite E.
    + exists 10. split; [lia |]. apply clamp_big. by rewrite E.
  - assert (Hbig : (0 <= e) -> exists n, 1 <= n <= 10 /\
                     Math_min 10 (Math_max 1 y) = of_int n).
    { intros He. destruct s.
      - exists 1. split; [lia |]. apply clamp_nonpos. by rewrite E.
      - exists 10. split; [lia |]. apply clamp_big. rewrite E. cbn. lia. }
    destruct e as [| k | k]; [apply Hbig; lia | apply Hbig; lia |].
    cbv zeta. pose proof (round_half_up_bound s m k) as Hb.
    pose proof (valid_mantissa_bound _ _ _ Hv) as Hm.
    destruct (Z.eqb_spec (round_half_up s m (Z.neg k)) 0) as [_ | _].
    + exists 1. split; [lia |]. by destruct s.
    + exists (Z.min 10 (Z.max 1 (round_half_up s m (Z.neg k)))). split; [lia |].
      apply clamp_of_int. lia.
Qed.

End WholeGaugeNumbers.

Lemma aggregate_argument_num (rm : RiskMatrix) :
  finite_score (financial_risk rm) -> finite_score (growth_strength rm) ->
  finite_score (regulatory_risk rm) -> finite_score (reputation_risk rm) ->
  is_nan (((score (financial_risk rm) + score (regulatory_risk rm)
            + score (reputation_risk rm)) / 3 * 0.6
           - score (growth_strength rm) * 0.1 + 5) / 1.5)%float = false.
Proof.
  unfold finite_score. intros Hf Hg Hreg Hrep. apply is_nan_spec.
  rewrite FloatAxioms.div_spec, FloatAxioms.add_spec, FloatAxioms.sub_spec,
    !FloatAxioms.mul_spec, FloatAxioms.div_spec, !FloatAxioms.add_spec.
  apply SF64div_num; [| reflexivity]. apply SF64add_num; [| reflexivity].
  apply SF64sub_num.
  - apply SF64mul_num; [| reflexivity]. apply SF64div_num; [| reflexivity].
    apply SF64add_num; [| by apply is_finite_spec].
    apply SF64add_num; [| by apply is_finite_spec].
    by apply SFfin_num, is_finite_spec.
  - apply SF64mul_small_fin;
      [by apply is_finite_spec | apply Prim2SF_valid | reflexivity].
Qed.

(** The overall-risk gauge always shows a whole number: for every risk
    matrix with finite scores, of whatever size or sign, the value is
    one of 1, 2, ..., 10. *)
Theorem overallRisk_whole_number (rm : RiskMatrix) :
  finite_score (financial_risk rm) -> finite_score (growth_strength rm) ->
  finite_score (regulatory_risk rm) -> finite_score (reputation_risk rm) ->
  exists n : Z, (1 <= n <= 10)%Z /\ overallRisk rm = of_int n.
Proof.
  intros Hf Hg Hreg Hrep. unfold overallRisk, aggregateRisk.
  apply clamp_round_whole. by apply aggregate_argument_num.
Qed.

Lemma overallRisk_whole_number_witness :
  exists n : Z, (1 <= n <= 10)%Z /\ overallRisk (riskMatrix case_3) = of_int n.
Proof. apply overallRisk_whole_number; reflexivity. Defined.

(** ** More on round grouping and the confidence law *)

(** Rounds already assigned never change: the tags of a debate are a
    prefix of the tags of any longer debate that starts with it. *)
Theorem groupIntoRounds_prefix_stable (ms more : list AgentMemo) :
  take (length ms) (groupIntoRounds (ms ++ more)) = groupIntoRounds ms.
Proof.
  rewrite !groupIntoRounds_imap, imap_app.
  rewrite take_app_length' by (by rewrite length_imap).
  apply imap_ext. intros i x Hi. cbn. f_equal.
  unfold earlier_same_role. apply lookup_lt_Some in Hi.
  by rewrite take_app_le by lia.
Qed.

(** The confidence reads the two scores through their distance only:
    pairs of integer scores in 0..100 that are equally far apart get
    the same confidence, wherever they lie on the scale. *)
Theorem confidence_depends_on_variance (s r s' r' : Z) :
  (0 <= s <= 100)%Z -> (0 <= r <= 100)%Z ->
  (0 <= s' <= 100)%Z -> (0 <= r' <= 100)%Z ->
  Z.abs (s - r) = Z.abs (s' - r') ->
  confidenceFromVariance (of_int s) (of_int r) =
  confidenceFromVariance (of_int s') (of_int r').
Proof.
  intros Hs Hr Hs' Hr' Hv.
  pose proof (all_scores _ variance_only_everywhere s r Hs Hr) as E.
  pose proof (all_scores _ variance_only_everywhere s' r' Hs' Hr') as E'.
  apply FloatAxioms.Leibniz.eqb_spec in E, E'. by rewrite E, E', Hv.
Qed.

Lemma confidence_depends_on_variance_witness :
  confidenceFromVariance (of_int 80) (of_int 72) =
  confidenceFromVariance (of_int 10) (of_int 18).
Proof. apply confidence_depends_on_variance; lia. Defined.

Lemma rounds_count_witness :
  (forall a, (count_role a FALLBACK_MEMOS <= length (rounds FALLBACK_MEMOS))%nat) /\
  (FALLBACK_MEMOS <> [] ->
   exists a, count_role a FALLBACK_MEMOS = length (rounds FALLBACK_MEMOS)).
Proof. apply rounds_count. Defined.

(** * Finalized records *)

Import Orchestration.

Section Finalizer.

Lemma workflow_state_finalize (c : float) (l : LoanApplication) :
  workflow_state (finalize c l) = "FINALIZED".
Proof. unfold finalize. by destruct (compliance_flag l). Qed.

Lemma compliance_flag_finalize (c : float) (l : LoanApplication) :
  compliance_flag (finalize c l) = compliance_flag l.
Proof. unfold finalize. destruct (compliance_flag l) eqn:E; exact E. Qed.

(** Only the decision stage writes FINALIZED. *)
Lemma stage_finalized (l l' : LoanApplication) :
  stage l l' -> workflow_state l' = "FINALIZED" ->
  exists c, l' = finalize c l.
Proof.
  intros Hs E. inversion Hs as [l1 ms b H | l1 ms v m H | l1 H | l1 H | l1 c H];
    subst; try discriminate E.
  by exists c.
Qed.

(** FINALIZED is terminal. *)
Lemma finalized_terminal (l l' : LoanApplication) :
  workflow_state l = "FINALIZED" -> ~ stage l l'.
Proof.
  intros E Hs. inversion Hs; congruence.
Qed.

(** A produced record in FINALIZED was written by the finalizer. *)
Lemma produced_finalized (l : LoanApplication) :
  produced l -> finalized l = true -> exists c l1, l = finalize c l1.
Proof.
  intros (l0 & [_ H0] & Hr) Hf. unfold finalized in Hf.
  apply bool_decide_eq_true in Hf.
  apply rtc_inv_r in Hr as [<- | (l1 & _ & Hs)].
  - rewrite H0 in Hf. discriminate Hf.
  - destruct (stage_finalized _ _ Hs Hf) as [c ->]. by exists c, l1.
Qed.

End Finalizer.

(** C4.  Approval threshold: every finalized loan record, whether the
    orchestrator produced it or the front-end ships it, on which the
    compliance veto does not apply and whose [final_score] is not null,
    is Approved exactly when [final_score >= 20] and Rejected otherwise;
    the threshold line of [DecisionSummary] reads "above" exactly on
    the Approved ones. *)
Theorem approval_threshold_finalized (l : LoanApplication) (f : float) :
  produced l \/ In l shipped_loans ->
  finalized l = true ->
  compliance_flag l = false -> final_score l = Some f ->
  (status l = Approved <-> geb f 20 = true) /\
  (geb f 20 = false -> status l = Rejected) /\
  thresholdSide l =
    Some (if bool_decide (status l = Approved) then "above" else "below").
Proof.
  intros [Hp | Hin] Hf Hflag Hscore; [| by apply approval_threshold_shipped].
  destruct (produced_finalized l Hp Hf) as (c & l1 & ->).
  rewrite compliance_flag_finalize in Hflag.
  unfold thresholdSide. rewrite Hscore.
  unfold finalize in *. rewrite Hflag in *. cbn in Hscore |- *.
  apply (inj Some) in Hscore. subst c.
  unfold geb in *. destruct (20 <=? f); cbn [status decide_loan];
    (split; [split; intros; congruence |]); (split; [intros; congruence | reflexivity]).
Qed.

Lemma sample_produced : produced sample_finalized.
Proof.
  exists sample_ingested. split; [by split |].
  eapply rtc_l; [by apply (round_0 _ (take 3 FALLBACK_MEMOS) false) |].
  eapply rtc_l.
  { apply debate_converged; [reflexivity |].
    intros ms v Hms Hv. cbn in Hms. apply (inj Some) in Hms. subst ms.
    vm_compute in Hv. apply (inj Some) in Hv. subst v. reflexivity. }
  eapply rtc_l; [| apply rtc_refl].
  by apply (decision _ 20.4).
Qed.

Lemma approval_threshold_finalized_witness :
  (status sample_finalized = Approved <-> geb 20.4 20 = true) /\
  (geb 20.4 20 = false -> status sample_finalized = Rejected) /\
  thresholdSide sample_finalized =
    Some (if bool_decide (status sample_finalized = Approved) then "above" else "below").
Proof.
  apply approval_threshold_finalized;
    [left; apply sample_produced | reflexivity | reflexivity | reflexivity].
Defined.

(** * The confidence never rises with the variance *)

Import Binary64Value ConfidenceBands.

(** ** Rounding to nearest, on integers *)

Section RoundToNearest.

Local Open Scope Z_scope.

Lemma rne_num_bounds (M n : Z) :
  M / 2 ^ n <= rne_num M n <= M / 2 ^ n + 1.
Proof.
  unfold rne_num. cbv zeta.
  destruct (_ <? _); [lia |]. destruct (_ <? _); [lia |].
  destruct (Z.even _); lia.
Qed.

(** Rounding a quotient to nearest keeps the order of the numerators. *)
Lemma rne_num_mono (M1 M2 n : Z) :
  0 <= n -> M1 <= M2 -> rne_num M1 n <= rne_num M2 n.
Proof.
  intros Hn HM.
  assert (HP : 0 < 2 ^ n) by (apply Z.pow_pos_nonneg; lia).
  pose proof (Z.div_le_mono M1 M2 (2 ^ n) HP HM) as Hq.
  destruct (Z.eq_dec (M1 / 2 ^ n) (M2 / 2 ^ n)) as [E | NE].
  - pose proof (Z.div_mod M1 (2 ^ n) ltac:(lia)) as D1.
    pose proof (Z.div_mod M2 (2 ^ n) ltac:(lia)) as D2.
    unfold rne_num. cbv zeta. rewrite <- E in *.
    set (q := M1 / 2 ^ n) in *. set (r1 := M1 mod 2 ^ n) in *.
    set (r2 := M2 mod 2 ^ n) in *.
    assert (r1 <= r2) by lia.
    destruct (Z.ltb_spec (2 * r1) (2 ^ n)), (Z.ltb_spec (2 * r2) (2 ^ n)),
      (Z.ltb_spec (2 ^ n) (2 * r1)), (Z.ltb_spec (2 ^ n) (2 * r2)),
      (Z.even q); lia.
  - pose proof (rne_num_bounds M1 n). pose proof (rne_num_bounds M2 n). lia.
Qed.

Lemma rne_num_exact (M n : Z) :
  0 <= n -> M mod 2 ^ n = 0 -> rne_num M n = M / 2 ^ n.
Proof.
  intros Hn E. unfold rne_num. cbv zeta. rewrite E.
  assert (HP : 0 < 2 ^ n) by (apply Z.pow_pos_nonneg; lia).
  destruct (Z.ltb_spec (2 * 0) (2 ^ n)); lia.
Qed.

(** Shifting numerator and divisor alike does not change the rounded
    quotient. *)
Lemma rne_num_scale (M n j : Z) :
  0 <= n -> 0 <= j -> rne_num (M * 2 ^ j) (n + j) = rne_num M n.
Proof.
  intros Hn Hj. unfold rne_num. cbv zeta.
  assert (HP : 0 < 2 ^ n) by (apply Z.pow_pos_nonneg; lia).
  assert (HJ : 0 < 2 ^ j) by (apply Z.pow_pos_nonneg; lia).
  rewrite Z.pow_add_r by lia.
  rewrite Z.div_mul_cancel_r by lia.
  rewrite Z.mul_mod_distr_r by lia.
  set (q := M / 2 ^ n). set (r := M mod 2 ^ n).
  destruct (Z.ltb_spec (2 * (r * 2 ^ j)) (2 ^ n * 2 ^ j)), (Z.ltb_spec (2 * r) (2 ^ n)),
    (Z.ltb_spec (2 ^ n * 2 ^ j) (2 * (r * 2 ^ j))), (Z.ltb_spec (2 ^ n) (2 * r));
    try reflexivity; nia.
Qed.

Lemma rne_num_0 (M : Z) : rne_num M 0 = M.
Proof.
  unfold rne_num. cbv zeta. change (2 ^ 0) with 1.
  rewrite Z.div_1_r, Z.mod_1_r. reflexivity.
Qed.

Lemma shr_1_eq (m : Z) (r s : bool) :
  0 <= m ->
  shr_1 {| shr_m := m; shr_r := r; shr_s := s |} =
  {| shr_m := m / 2; shr_r := Z.odd m; shr_s := r || s |}.
Proof.
  intros Hm. rewrite <- Z.div2_div.
  destruct m as [| [p | p |] | p]; try reflexivity. lia.
Qed.

Lemma testbit_div (M j : Z) : 0 <= j -> Z.testbit M j = Z.odd (M / 2 ^ j).
Proof.
  intros Hj. rewrite Z.testbit_odd, Z.shiftr_div_pow2 by lia. reflexivity.
Qed.

Lemma mod_pow2_succ (M j : Z) :
  0 <= j ->
  M mod 2 ^ (j + 1) = M mod 2 ^ j + 2 ^ j * (if Z.testbit M j then 1 else 0).
Proof.
  intros Hj. rewrite Z.pow_add_r by lia. change (2 ^ 1) with 2.
  assert (HJ : 0 < 2 ^ j) by (apply Z.pow_pos_nonneg; lia).
  rewrite Z.rem_mul_r by lia. f_equal. f_equal.
  rewrite testbit_div by lia. rewrite Zmod_odd. reflexivity.
Qed.

(** One right shift of the record takes the state at [j] to the state
    at [j + 1]. *)
Lemma shr_1_state (M j : Z) :
  0 <= M -> 0 <= j -> shr_1 (shr_state M j) = shr_state M (j + 1).
Proof.
  intros HM Hj. unfold shr_state.
  destruct (Z.eqb_spec (j + 1) 0); [lia |].
  destruct (Z.eqb_spec j 0) as [-> | Hj0].
  - rewrite shr_1_eq by lia. cbn [Z.add]. change (2 ^ 1) with 2. change (1 - 1) with 0.
    change (2 ^ 0) with 1. rewrite Z.mod_1_r. rewrite Z.bit0_odd. reflexivity.
  - assert (HJ : 0 < 2 ^ j) by (apply Z.pow_pos_nonneg; lia).
    rewrite shr_1_eq by (apply Z.div_pos; lia).
    replace (j + 1 - 1) with j by lia.
    rewrite Z.pow_add_r by lia. change (2 ^ 1) with 2.
    rewrite Z.div_div by lia. f_equal.
    + symmetry. apply testbit_div. lia.
    + pose proof (mod_pow2_succ M (j - 1) ltac:(lia)) as E.
      replace (j - 1 + 1) with j in E by lia.
      rewrite E.
      assert (HJ' : 0 < 2 ^ (j - 1)) by (apply Z.pow_pos_nonneg; lia).
      pose proof (Z.mod_pos_bound M (2 ^ (j - 1)) HJ').
      destruct (Z.testbit M (j - 1)); cbn [orb].
      * destruct (Z.eqb_spec (M mod 2 ^ (j - 1) + 2 ^ (j - 1) * 1) 0); [lia |].
        reflexivity.
      * rewrite Z.mul_0_r, Z.add_0_r. reflexivity.
Qed.

Lemma iter_shr_1_state (p : positive) (M j : Z) :
  0 <= M -> 0 <= j ->
  SpecFloat.iter_pos shr_1 p (shr_state M j) = shr_state M (j + Z.pos p).
Proof.
  intros HM. revert j. induction p as [p IH | p IH |]; intros j Hj; cbn [SpecFloat.iter_pos].
  - rewrite shr_1_state, IH, IH by lia. f_equal. lia.
  - rewrite IH, IH by lia. f_equal. lia.
  - apply shr_1_state; lia.
Qed.

(** [round_nearest_even] on the shifted record is the rounded
    quotient. *)
Lemma rne_shr_state (M n : Z) :
  0 <= M -> 0 <= n ->
  round_nearest_even (shr_m (shr_state M n)) (loc_of_shr_record (shr_state M n)) =
  rne_num M n.
Proof.
  intros HM Hn. unfold shr_state.
  destruct (Z.eqb_spec n 0) as [-> | Hn0].
  - rewrite rne_num_0. reflexivity.
  - cbn [shr_m loc_of_shr_record round_nearest_even].
    unfold rne_num. cbv zeta.
    pose proof (mod_pow2_succ M (n - 1) ltac:(lia)) as E.
    replace (n - 1 + 1) with n in E by lia. rewrite E.
    assert (HJ' : 0 < 2 ^ (n - 1)) by (apply Z.pow_pos_nonneg; lia).
    pose proof (Z.mod_pos_bound M (2 ^ (n - 1)) HJ') as Hb.
    assert (EP : 2 ^ n = 2 * 2 ^ (n - 1)).
    { rewrite <- (Z.pow_succ_r 2 (n - 1)) by lia. f_equal. lia. }
    rewrite EP. set (q := M / (2 * 2 ^ (n - 1))). set (r := M mod 2 ^ (n - 1)) in *.
    destruct (Z.testbit M (n - 1)); destruct (Z.eqb_spec r 0) as [Er | Er]; cbn [negb].
    + destruct (Z.ltb_spec (2 * (r + 2 ^ (n - 1) * 1)) (2 * 2 ^ (n - 1))); [lia |].
      destruct (Z.ltb_spec (2 * 2 ^ (n - 1)) (2 * (r + 2 ^ (n - 1) * 1))); [lia |].
      reflexivity.
    + destruct (Z.ltb_spec (2 * (r + 2 ^ (n - 1) * 1)) (2 * 2 ^ (n - 1))); [lia |].
      destruct (Z.ltb_spec (2 * 2 ^ (n - 1)) (2 * (r + 2 ^ (n - 1) * 1))); [| lia].
      reflexivity.
    + destruct (Z.ltb_spec (2 * (r + 2 ^ (n - 1) * 0)) (2 * 2 ^ (n - 1))); [| lia].
      reflexivity.
    + destruct (Z.ltb_spec (2 * (r + 2 ^ (n - 1) * 0)) (2 * 2 ^ (n - 1))); [| lia].
      reflexivity.
Qed.

Lemma shr_fexp_exact (m e : Z) :
  0 <= m -> e <= fexp prec emax (Zdigits2 m + e) ->
  shr_fexp prec emax m e loc_Exact =
  (shr_state m (fexp prec emax (Zdigits2 m + e) - e), fexp prec emax (Zdigits2 m + e)).
Proof.
  intros Hm He. unfold shr_fexp, shr.
  change (shr_record_of_loc m loc_Exact) with (shr_state m 0).
  destruct (fexp prec emax (Zdigits2 m + e) - e) as [| p | p] eqn:En.
  - f_equal. lia.
  - rewrite iter_shr_1_state by lia. f_equal. lia.
  - lia.
Qed.

(** A positive number of [d] binary digits lies in [2^(d-1), 2^d). *)
Lemma Zdigits2_bounds (m : Z) :
  0 < m -> 2 ^ (Zdigits2 m - 1) <= m < 2 ^ Zdigits2 m.
Proof.
  destruct m as [| p | p]; try lia. intros _. cbn [Zdigits2].
  rewrite digits2_size.
  pose proof (Pos.size_gt p) as Hg. pose proof (Pos.size_le p) as Hl.
  apply Pos2Z.pos_lt_pos in Hg. apply Pos2Z.pos_le_pos in Hl.
  rewrite Pos2Z.inj_pow in Hg, Hl. rewrite (Pos2Z.inj_xO p) in Hl.
  split; [| exact Hg].
  assert (E : 2 ^ Z.pos (Pos.size p) = 2 * 2 ^ (Z.pos (Pos.size p) - 1)).
  { rewrite <- (Z.pow_succ_r 2 (Z.pos (Pos.size p) - 1)) by lia. f_equal. lia. }
  lia.
Qed.

Lemma Zdigits2_unique (m d : Z) :
  0 < m -> 2 ^ (d - 1) <= m < 2 ^ d -> Zdigits2 m = d.
Proof.
  intros Hm [H1 H2]. pose proof (Zdigits2_bounds m Hm) as [H3 H4].
  assert (0 < Zdigits2 m) by (destruct m; cbn; lia).
  assert (0 < d).
  { destruct (Z.lt_ge_cases 0 d) as [| Hd]; [assumption |].
    destruct (Z.eq_dec d 0) as [-> | ]; [cbn in H2; lia |].
    rewrite Z.pow_neg_r in H2 by lia. lia. }
  assert (A : 2 ^ (d - 1) < 2 ^ Zdigits2 m) by lia.
  assert (B : 2 ^ (Zdigits2 m - 1) < 2 ^ d) by lia.
  apply Z.pow_lt_mono_r_iff in A; [| lia | lia].
  apply Z.pow_lt_mono_r_iff in B; [| lia | lia]. lia.
Qed.

Lemma Zdigits2_pos_digits (m : Z) : 0 < m -> 0 < Zdigits2 m.
Proof. destruct m; cbn; lia. Qed.

Lemma Zdigits2_shift (m j : Z) :
  0 < m -> 0 <= j -> Zdigits2 (m * 2 ^ j) = Zdigits2 m + j.
Proof.
  intros Hm Hj. pose proof (Zdigits2_bounds m Hm) as [H1 H2].
  pose proof (Zdigits2_pos_digits m Hm).
  assert (HJ : 0 < 2 ^ j) by (apply Z.pow_pos_nonneg; lia).
  apply Zdigits2_unique; [nia |].
  replace (Zdigits2 m + j - 1) with (Zdigits2 m - 1 + j) by lia.
  rewrite !Z.pow_add_r by lia. nia.
Qed.

Lemma Zdigits2_div (m n : Z) :
  0 < m -> 0 <= n -> n < Zdigits2 m -> Zdigits2 (m / 2 ^ n) = Zdigits2 m - n.
Proof.
  intros Hm Hn Hd. pose proof (Zdigits2_bounds m Hm) as [H1 H2].
  assert (HJ : 0 < 2 ^ n) by (apply Z.pow_pos_nonneg; lia).
  assert (E1 : 2 ^ (Zdigits2 m - 1) = 2 ^ (Zdigits2 m - n - 1) * 2 ^ n).
  { rewrite <- Z.pow_add_r by lia. f_equal. lia. }
  assert (E2 : 2 ^ (Zdigits2 m) = 2 ^ (Zdigits2 m - n) * 2 ^ n).
  { rewrite <- Z.pow_add_r by lia. f_equal. lia. }
  assert (L : 2 ^ (Zdigits2 m - n - 1) <= m / 2 ^ n).
  { apply Z.div_le_lower_bound; lia. }
  assert (U : m / 2 ^ n < 2 ^ (Zdigits2 m - n)).
  { apply Z.div_lt_upper_bound; lia. }
  assert (0 < 2 ^ (Zdigits2 m - n - 1)) by (apply Z.pow_pos_nonneg; lia).
  apply Zdigits2_unique; [lia |]. split; [exact L | exact U].
Qed.

Lemma fexp_eq (x : Z) : fexp prec emax x = Z.max (x - 53) (-1074).
Proof. reflexivity. Qed.

Lemma pow2_pos (a : Z) : 0 <= a -> 0 < 2 ^ a.
Proof. intros. apply Z.pow_pos_nonneg; lia. Qed.

Lemma pow2_le (a b : Z) : 0 <= a <= b -> 2 ^ a <= 2 ^ b.
Proof. intros. apply Z.pow_le_mono_r; lia. Qed.

Lemma pow2_split (a b : Z) : 0 <= a <= b -> 2 ^ b = 2 ^ (b - a) * 2 ^ a.
Proof. intros. rewrite <- Z.pow_add_r by lia. f_equal. lia. Qed.

Lemma shr_fexp_small (q t : Z) :
  0 <= q -> Zdigits2 q <= 53 -> -1074 <= t ->
  shr_fexp prec emax q t loc_Exact = (shr_record_of_loc q loc_Exact, t).
Proof.
  intros Hq Hd Ht. unfold shr_fexp, shr. rewrite fexp_eq.
  destruct (Z.max (Zdigits2 q + t - 53) (-1074) - t) as [| p | p] eqn:En;
    [reflexivity | lia | reflexivity].
Qed.

Lemma Zdigits2_le (q d : Z) : 0 <= d -> 0 <= q < 2 ^ d -> Zdigits2 q <= d.
Proof.
  intros Hd [H0 H1]. destruct (Z.eq_dec q 0) as [-> | Hq]; [cbn; lia |].
  pose proof (Zdigits2_bounds q ltac:(lia)) as [H2 H3].
  pose proof (Zdigits2_pos_digits q ltac:(lia)).
  assert (A : 2 ^ (Zdigits2 q - 1) < 2 ^ d) by lia.
  apply Z.pow_lt_mono_r_iff in A; lia.
Qed.

Lemma below_cap (q t : Z) :
  0 <= q < 2 ^ 53 -> -1074 <= t <= 971 -> q * 2 ^ (t + 1074) < cap.
Proof.
  intros [H0 H1] Ht.
  assert (P : 0 < 2 ^ (t + 1074)) by (apply pow2_pos; lia).
  apply Z.lt_le_trans with (2 ^ 53 * 2 ^ (t + 1074)).
  - apply Z.mul_lt_mono_pos_r; assumption.
  - rewrite <- Z.pow_add_r by lia. unfold cap. apply pow2_le. lia.
Qed.

Lemma above_cap (q t : Z) :
  2 ^ 52 <= q -> 972 <= t -> cap <= q * 2 ^ (t + 1074).
Proof.
  intros Hq Ht.
  assert (P : 0 < 2 ^ (t + 1074)) by (apply pow2_pos; lia).
  apply Z.le_trans with (2 ^ 52 * 2 ^ (t + 1074)).
  - rewrite <- Z.pow_add_r by lia. unfold cap. apply pow2_le. lia.
  - apply Z.mul_le_mono_nonneg_r; [lia | exact Hq].
Qed.

Lemma cap_pos : 0 < cap.
Proof. apply pow2_pos. lia. Qed.

(** The value of the double that [binary_round_aux] returns for the
    exact number [m * 2^e]: the rounded value, or an infinity when the
    rounded value reaches [2^1024]. *)
Lemma binary_round_aux_val (s : bool) (m e : Z) :
  0 < m -> e <= fexp prec emax (Zdigits2 m + e) ->
  SFval (binary_round_aux prec emax s m e loc_Exact) =
  (if s then -1 else 1) * Z.min (rnd_val m e) cap.
Proof.
  intros Hm He. unfold binary_round_aux, rnd_val. cbv zeta.
  rewrite shr_fexp_exact by lia.
  rewrite rne_shr_state by lia.
  set (t := fexp prec emax (Zdigits2 m + e)) in *.
  set (n := t - e) in *. set (q := rne_num m n).
  pose proof (Zdigits2_bounds m Hm) as [HD1 HD2].
  pose proof (Zdigits2_pos_digits m Hm) as HD0.
  assert (Ht : t = Z.max (Zdigits2 m + e - 53) (-1074)) by (subst t; apply fexp_eq).
  assert (HN : 0 < 2 ^ n) by (apply pow2_pos; lia).
  assert (Hf : 0 <= m / 2 ^ n < 2 ^ 53).
  { split; [apply Z.div_pos; lia |]. apply Z.div_lt_upper_bound; [lia |].
    destruct (Z.le_gt_cases (Zdigits2 m) n).
    - pose proof (pow2_le (Zdigits2 m) n ltac:(lia)).
      assert (1 <= 2 ^ 53) by (apply Z.pow_le_mono_r with (b := 0); lia). nia.
    - rewrite Z.mul_comm, <- Z.pow_add_r by lia.
      pose proof (pow2_le (Zdigits2 m) (53 + n) ltac:(lia)). lia. }
  assert (Hf' : -1074 < t -> 2 ^ 52 <= m / 2 ^ n).
  { intros Hgt. apply Z.div_le_lower_bound; [lia |].
    rewrite Z.mul_comm, <- Z.pow_add_r by lia.
    replace (52 + n) with (Zdigits2 m - 1) by lia. exact HD1. }
  pose proof (rne_num_bounds m n) as Hq. fold q in Hq.
  assert (HT : 0 < 2 ^ (t + 1074)) by (apply pow2_pos; lia).
  destruct (Z.eq_dec q (2 ^ 53)) as [E53 | N53].
  - (* the mantissa has grown to 2^53: one more shift *)
    rewrite shr_fexp_exact; rewrite E53;
      change (Zdigits2 (2 ^ 53)) with 54; rewrite ?fexp_eq; [| lia | lia].
    replace (Z.max (54 + t - 53) (-1074)) with (t + 1) by lia.
    replace (t + 1 - t) with 1 by lia.
    change (shr_m (shr_state (2 ^ 53) 1)) with (Z.pos (Z.to_pos (2 ^ 52))).
    assert (EV : 2 ^ 53 * 2 ^ (t + 1074) = 2 ^ 52 * 2 ^ (t + 1 + 1074)).
    { rewrite <- !Z.pow_add_r by lia. f_equal. lia. }
    rewrite EV.
    destruct (Z.leb_spec (t + 1) (emax - prec)) as [Hle | Hgt];
      change (emax - prec) with 971 in *; cbn [SFval].
    + f_equal. rewrite Z.min_l; [reflexivity |].
      apply Z.lt_le_incl, below_cap; [| lia].
      split; [apply Z.pow_nonneg; lia | apply Z.pow_lt_mono_r; lia].
    + rewrite Z.min_r; [destruct s; lia |].
      apply above_cap; lia.
  - assert (Hq53 : 0 <= q < 2 ^ 53) by lia.
    rewrite shr_fexp_small; [| lia | apply Zdigits2_le; lia | lia].
    rewrite shr_m_of_loc. pose proof cap_pos as HC.
    destruct q as [| p | p] eqn:Eq; [| | lia].
    + cbn [SFval]. lia.
    + destruct (Z.leb_spec t (emax - prec)) as [Hle | Hgt];
        change (emax - prec) with 971 in *; cbn [SFval].
      * f_equal. rewrite Z.min_l; [reflexivity |].
        apply Z.lt_le_incl, below_cap; lia.
      * rewrite Z.min_r; [destruct s; lia |].
        apply above_cap; [| lia]. pose proof (Hf' ltac:(lia)). lia.
Qed.

Lemma rnd_val_scale (m e j : Z) :
  0 < m -> 0 <= j -> e <= fexp prec emax (Zdigits2 m + e) ->
  rnd_val (m * 2 ^ j) (e - j) = rnd_val m e.
Proof.
  intros Hm Hj He. unfold rnd_val. cbv zeta.
  rewrite Zdigits2_shift by lia.
  replace (Zdigits2 m + j + (e - j)) with (Zdigits2 m + e) by lia.
  set (t := fexp prec emax (Zdigits2 m + e)) in *.
  replace (t - (e - j)) with (t - e + j) by lia.
  rewrite rne_num_scale by lia. reflexivity.
Qed.

Lemma rnd_val_exact (m e : Z) :
  fexp prec emax (Zdigits2 m + e) = e -> rnd_val m e = m * 2 ^ (e + 1074).
Proof.
  intros He. unfold rnd_val. cbv zeta. rewrite He, Z.sub_diag, rne_num_0. reflexivity.
Qed.

Lemma rnd_val_nonneg (m e : Z) : 0 < m -> 0 <= rnd_val m e.
Proof.
  intros Hm. unfold rnd_val. cbv zeta. rewrite fexp_eq.
  set (t := Z.max _ _). pose proof (rne_num_bounds m (t - e)) as Hq.
  assert (0 <= m / 2 ^ (t - e)).
  { destruct (Z.le_gt_cases 0 (t - e)).
    - apply Z.div_pos; [lia | apply pow2_pos; lia].
    - rewrite Z.pow_neg_r by lia. rewrite Z.div_0_r. lia. }
  assert (0 < 2 ^ (t + 1074)) by (apply pow2_pos; lia).
  nia.
Qed.

(** Rounding to nearest keeps the order: within a binade by
    [rne_num_mono], and across binades because the power of two between
    the two numbers is itself representable. *)
Lemma rnd_val_mono_aligned (X1 X2 e : Z) :
  0 < X1 -> X1 <= X2 ->
  e <= fexp prec emax (Zdigits2 X1 + e) ->
  rnd_val X1 e <= rnd_val X2 e.
Proof.
  intros H1 H12 He1. unfold rnd_val. cbv zeta.
  pose proof (Zdigits2_bounds X1 H1) as [L1 U1].
  pose proof (Zdigits2_bounds X2 ltac:(lia)) as [L2 U2].
  pose proof (Zdigits2_pos_digits X1 H1) as P1.
  pose proof (Zdigits2_pos_digits X2 ltac:(lia)) as P2.
  assert (HD : Zdigits2 X1 <= Zdigits2 X2) by (apply Zdigits2_le; lia).
  rewrite !fexp_eq in *.
  set (D1 := Zdigits2 X1) in *. set (D2 := Zdigits2 X2) in *.
  set (t1 := Z.max (D1 + e - 53) (-1074)) in *.
  set (t2 := Z.max (D2 + e - 53) (-1074)) in *.
  assert (Ht : t1 <= t2) by lia.
  destruct (Z.eq_dec t1 t2) as [E | NE].
  - rewrite <- E. apply Z.mul_le_mono_nonneg_r; [apply Z.pow_nonneg; lia |].
    apply rne_num_mono; lia.
  - assert (Et2 : t2 = D2 + e - 53) by lia.
    assert (HDlt : D1 < D2) by lia.
    set (n1 := t1 - e) in *. set (n2 := t2 - e) in *.
    assert (Hn1 : 0 <= n1) by lia. assert (Hn2 : n1 < n2) by lia.
    assert (En2 : n2 = D2 - 53) by lia.
    (* lower bound for the larger *)
    assert (Q2 : 2 ^ 52 <= rne_num X2 n2).
    { pose proof (rne_num_bounds X2 n2) as Hb.
      assert (2 ^ 52 <= X2 / 2 ^ n2); [| lia].
      apply Z.div_le_lower_bound; [apply pow2_pos; lia |].
      rewrite Z.mul_comm, <- Z.pow_add_r by lia.
      replace (52 + n2) with (D2 - 1) by lia. exact L2. }
    (* upper bound for the smaller *)
    assert (Q1 : rne_num X1 n1 <= 2 ^ (D2 - 1 - n1)).
    { assert (HB : X1 <= 2 ^ (D2 - 1)).
      { pose proof (pow2_le D1 (D2 - 1) ltac:(lia)). lia. }
      pose proof (rne_num_mono X1 (2 ^ (D2 - 1)) n1 Hn1 HB) as Hm.
      rewrite (rne_num_exact (2 ^ (D2 - 1)) n1) in Hm; [| lia |].
      - rewrite <- Z.pow_sub_r in Hm by lia. exact Hm.
      - rewrite (pow2_split n1 (D2 - 1)) by lia. apply Z.mod_mul.
        pose proof (pow2_pos n1 Hn1). lia. }
    assert (P : 0 < 2 ^ (t1 + 1074)) by (apply pow2_pos; lia).
    assert (P' : 0 < 2 ^ (t2 + 1074)) by (apply pow2_pos; lia).
    assert (EQ : 2 ^ (D2 - 1 - n1) * 2 ^ (t1 + 1074) = 2 ^ 52 * 2 ^ (t2 + 1074)).
    { rewrite <- !Z.pow_add_r by lia. f_equal. lia. }
    nia.
Qed.

Lemma rnd_val_mono (m1 e1 m2 e2 K : Z) :
  0 < m1 -> 0 < m2 ->
  e1 <= fexp prec emax (Zdigits2 m1 + e1) ->
  e2 <= fexp prec emax (Zdigits2 m2 + e2) ->
  0 <= e1 + K -> 0 <= e2 + K ->
  m1 * 2 ^ (e1 + K) <= m2 * 2 ^ (e2 + K) ->
  rnd_val m1 e1 <= rnd_val m2 e2.
Proof.
  intros H1 H2 He1 He2 K1 K2 Hle.
  rewrite <- (rnd_val_scale m1 e1 (e1 + K)), <- (rnd_val_scale m2 e2 (e2 + K)) by lia.
  replace (e1 - (e1 + K)) with (- K) by lia.
  replace (e2 - (e2 + K)) with (- K) by lia.
  pose proof (pow2_pos (e1 + K) K1).
  apply rnd_val_mono_aligned; [nia | exact Hle |].
  rewrite Zdigits2_shift by lia. rewrite fexp_eq in *. lia.
Qed.

(** What [valid_binary] says of a finite double: a canonical exponent,
    and a full 53-bit mantissa unless the double is subnormal. *)
Lemma valid_finite (s : bool) (m : positive) (e : Z) :
  valid_binary (S754_finite s m e) = true ->
  fexp prec emax (Zdigits2 (Z.pos m) + e) = e /\ -1074 <= e <= 971 /\
  Z.pos m < 2 ^ 53 /\ (-1074 < e -> 2 ^ 52 <= Z.pos m).
Proof.
  unfold SpecFloat.valid_binary, bounded, canonical_mantissa. intros H.
  apply andb_prop in H as [H1 H2]. apply Z.eqb_eq in H1. apply Z.leb_le in H2.
  change (emax - prec) with 971 in H2. change (Z.pos (digits2_pos m)) with (Zdigits2 (Z.pos m)) in H1.
  split; [exact H1 |]. rewrite fexp_eq in H1.
  pose proof (Zdigits2_bounds (Z.pos m) ltac:(lia)) as [L U].
  pose proof (Zdigits2_pos_digits (Z.pos m) ltac:(lia)) as P.
  split; [lia |]. split.
  - pose proof (pow2_le (Zdigits2 (Z.pos m)) 53 ltac:(lia)). lia.
  - intros He. replace (Zdigits2 (Z.pos m)) with 53 in L by lia. exact L.
Qed.

Lemma valid_finite_val (s : bool) (m : positive) (e : Z) :
  valid_binary (S754_finite s m e) = true ->
  0 < Z.pos m * 2 ^ (e + 1074) < cap.
Proof.
  intros H. apply valid_finite in H as (_ & He & Hm & _).
  pose proof (pow2_pos (e + 1074) ltac:(lia)).
  split; [lia | apply below_cap; lia].
Qed.

Lemma magnitude_compare (m1 m2 : positive) (e1 e2 : Z) (s1 s2 : bool) :
  valid_binary (S754_finite s1 m1 e1) = true ->
  valid_binary (S754_finite s2 m2 e2) = true ->
  match e1 ?= e2 with
  | Lt => Lt
  | Gt => Gt
  | Eq => Pos.compare_cont Eq m1 m2
  end = (Z.pos m1 * 2 ^ (e1 + 1074) ?= Z.pos m2 * 2 ^ (e2 + 1074)).
Proof.
  intros V1 V2.
  apply valid_finite in V1 as (_ & He1 & Hm1 & Hn1).
  apply valid_finite in V2 as (_ & He2 & Hm2 & Hn2).
  pose proof (pow2_pos (e1 + 1074) ltac:(lia)) as P1.
  pose proof (pow2_pos (e2 + 1074) ltac:(lia)) as P2.
  destruct (Z.compare_spec e1 e2) as [E | L | G].
  - subst e2. rewrite <- Zmult_compare_compat_r by lia. reflexivity.
  - symmetry. apply Z.compare_lt_iff.
    pose proof (Hn2 ltac:(lia)) as Hm2'.
    rewrite (pow2_split (e1 + 1074) (e2 + 1074)) by lia.
    pose proof (pow2_le 1 (e2 + 1074 - (e1 + 1074)) ltac:(lia)) as HP.
    change (2 ^ 1) with 2 in HP.
    set (d := 2 ^ (e2 + 1074 - (e1 + 1074))) in *.
    assert (Z.pos m1 < Z.pos m2 * d) by nia. nia.
  - symmetry. apply Z.compare_gt_iff.
    pose proof (Hn1 ltac:(lia)) as Hm1'.
    rewrite (pow2_split (e2 + 1074) (e1 + 1074)) by lia.
    pose proof (pow2_le 1 (e1 + 1074 - (e2 + 1074)) ltac:(lia)) as HP.
    change (2 ^ 1) with 2 in HP.
    set (d := 2 ^ (e1 + 1074 - (e2 + 1074))) in *.
    assert (Z.pos m2 < Z.pos m1 * d) by nia. nia.
Qed.

(** On valid doubles other than NaN, [SFcompare] compares the values. *)
Lemma SFcompare_val (x y : spec_float) :
  valid_binary x = true -> valid_binary y = true ->
  x <> S754_nan -> y <> S754_nan ->
  SFcompare x y = Some (SFval x ?= SFval y).
Proof.
  pose proof cap_pos as C.
  destruct x as [s1 | s1 | | s1 m1 e1], y as [s2 | s2 | | s2 m2 e2];
    intros V1 V2 N1 N2; try congruence; cbn [SFcompare SFval]; f_equal;
    try (pose proof (valid_finite_val _ _ _ V1) as B1);
    try (pose proof (valid_finite_val _ _ _ V2) as B2).
  all: try solve [try destruct s1; try destruct s2; symmetry;
    first [apply Z.compare_eq_iff; lia | apply Z.compare_lt_iff; lia
          | apply Z.compare_gt_iff; lia]].
  pose proof (magnitude_compare m1 m2 e1 e2 s1 s2 V1 V2) as M.
  destruct s1, s2.
  - set (a := Z.pos m1 * _) in *. set (b := Z.pos m2 * _) in *.
    replace (-1 * a) with (- a) by lia. replace (-1 * b) with (- b) by lia.
    rewrite Z.compare_opp, (Z.compare_antisym a b), <- M.
    destruct (e1 ?= e2); reflexivity.
  - symmetry; apply Z.compare_lt_iff; lia.
  - symmetry; apply Z.compare_gt_iff; lia.
  - rewrite !Z.mul_1_l. exact M.
Qed.

Lemma rnd_range (M e : Z) : - cap <= rnd M e <= cap.
Proof.
  pose proof cap_pos. unfold rnd.
  destruct (Z.eqb_spec M 0); [lia |].
  destruct (Z.ltb_spec 0 M).
  - pose proof (rnd_val_nonneg M e ltac:(lia)). lia.
  - pose proof (rnd_val_nonneg (- M) e ltac:(lia)). lia.
Qed.

Lemma rnd_sign (M e : Z) : (0 <= M -> 0 <= rnd M e) /\ (M <= 0 -> rnd M e <= 0).
Proof.
  pose proof cap_pos. unfold rnd.
  destruct (Z.eqb_spec M 0); [lia |].
  destruct (Z.ltb_spec 0 M).
  - pose proof (rnd_val_nonneg M e ltac:(lia)). lia.
  - pose proof (rnd_val_nonneg (- M) e ltac:(lia)). lia.
Qed.

(** Rounding keeps the order of signed numbers, overflow included. *)
Lemma rnd_mono (M1 M2 e : Z) :
  e <= -1074 -> M1 <= M2 -> rnd M1 e <= rnd M2 e.
Proof.
  intros He HM.
  assert (A : forall a b, 0 < a -> a <= b -> rnd_val a e <= rnd_val b e).
  { intros a b Ha Hab. apply (rnd_val_mono a e b e (- e)); try lia;
      rewrite ?fexp_eq; try lia.
    apply Z.mul_le_mono_nonneg_r; [apply Z.pow_nonneg; lia | exact Hab]. }
  destruct (rnd_sign M1 e) as [P1 N1]. destruct (rnd_sign M2 e) as [P2 N2].
  destruct (Z.lt_trichotomy M1 0) as [L1 | [E1 | G1]];
    destruct (Z.lt_trichotomy M2 0) as [L2 | [E2 | G2]]; try lia.
  - unfold rnd. destruct (Z.eqb_spec M1 0); [lia |]. destruct (Z.eqb_spec M2 0); [lia |].
    destruct (Z.ltb_spec 0 M1); [lia |]. destruct (Z.ltb_spec 0 M2); [lia |].
    pose proof (A (- M2) (- M1) ltac:(lia) ltac:(lia)). lia.
  - unfold rnd. destruct (Z.eqb_spec M1 0); [lia |]. destruct (Z.eqb_spec M2 0); [lia |].
    destruct (Z.ltb_spec 0 M1); [| lia]. destruct (Z.ltb_spec 0 M2); [| lia].
    pose proof (A M1 M2 ltac:(lia) ltac:(lia)). lia.
Qed.

(** A double rounds to itself. *)
Lemma rnd_exact (s : bool) (m : positive) (e : Z) :
  valid_binary (S754_finite s m e) = true ->
  rnd (SFval (S754_finite s m e)) (-1074) = SFval (S754_finite s m e).
Proof.
  intros V. pose proof (valid_finite_val _ _ _ V) as B.
  apply valid_finite in V as (Hc & He & _).
  assert (E : rnd_val (Z.pos m * 2 ^ (e + 1074)) (-1074) = Z.pos m * 2 ^ (e + 1074)).
  { replace (-1074) with (e - (e + 1074)) at 1 by lia.
    rewrite rnd_val_scale by lia. apply rnd_val_exact, Hc. }
  cbn [SFval]. set (a := Z.pos m * 2 ^ (e + 1074)) in *.
  unfold rnd. destruct s.
  - replace (-1 * a) with (- a) by lia.
    destruct (Z.eqb_spec (- a) 0); [lia |]. destruct (Z.ltb_spec 0 (- a)); [lia |].
    rewrite Z.opp_involutive, E. lia.
  - rewrite Z.mul_1_l.
    destruct (Z.eqb_spec a 0); [lia |]. destruct (Z.ltb_spec 0 a); [| lia].
    rewrite E. lia.
Qed.

Lemma iter_xO (d m : positive) : Z.pos (Pos.iter xO m d) = Z.pos m * 2 ^ Z.pos d.
Proof.
  induction d as [| d IH] using Pos.peano_ind.
  - cbn [Pos.iter]. lia.
  - rewrite Pos.iter_succ, Pos2Z.inj_xO, IH, Pos2Z.inj_succ, Z.pow_succ_r by lia. lia.
Qed.

Lemma shl_align_val (m : positive) (e e' : Z) :
  snd (shl_align m e e') = Z.min e e' /\
  Z.pos (fst (shl_align m e e')) = Z.pos m * 2 ^ (e - Z.min e e').
Proof.
  unfold shl_align. destruct (e' - e) as [| d | d] eqn:Ed; cbn [fst snd].
  - split; [lia |]. replace (e - Z.min e e') with 0 by lia. lia.
  - split; [lia |]. replace (e - Z.min e e') with 0 by lia. lia.
  - split; [lia |]. rewrite iter_xO. f_equal. f_equal. lia.
Qed.

Lemma binary_round_val (s : bool) (m : positive) (e : Z) :
  -1074 <= e ->
  SFval (binary_round prec emax s m e) =
  (if s then -1 else 1) * Z.min (rnd_val (Z.pos m * 2 ^ (e + 1074)) (-1074)) cap.
Proof.
  intros He. unfold binary_round.
  pose proof (shl_align_val m e (fexp prec emax (Z.pos (digits2_pos m) + e))) as [E1 E2].
  destruct (shl_align m e _) as [mz ez]. cbn [fst snd] in E1, E2.
  change (Z.pos (digits2_pos m)) with (Zdigits2 (Z.pos m)) in *.
  set (t := fexp prec emax (Zdigits2 (Z.pos m) + e)) in *.
  assert (Ht : t = Z.max (Zdigits2 (Z.pos m) + e - 53) (-1074)) by (subst t; apply fexp_eq).
  assert (Hpre : ez <= fexp prec emax (Zdigits2 (Z.pos mz) + ez)).
  { rewrite E2, Zdigits2_shift by lia.
    replace (Zdigits2 (Z.pos m) + (e - Z.min e t) + ez) with (Zdigits2 (Z.pos m) + e) by lia.
    fold t. lia. }
  rewrite binary_round_aux_val by (lia || exact Hpre). f_equal. f_equal.
  rewrite <- (rnd_val_scale (Z.pos mz) ez (ez + 1074)) by lia.
  replace (ez - (ez + 1074)) with (-1074) by lia. f_equal.
  rewrite E2, <- Z.mul_assoc, <- Z.pow_add_r by lia. f_equal. f_equal. lia.
Qed.

Lemma binary_normalize_val (M e : Z) :
  -1074 <= e ->
  SFval (binary_normalize prec emax M e false) = rnd (M * 2 ^ (e + 1074)) (-1074).
Proof.
  intros He. pose proof (pow2_pos (e + 1074) ltac:(lia)) as P.
  destruct M as [| p | p]; cbn [binary_normalize].
  - reflexivity.
  - rewrite binary_round_val by lia. unfold rnd.
    destruct (Z.eqb_spec (Z.pos p * 2 ^ (e + 1074)) 0); [lia |].
    destruct (Z.ltb_spec 0 (Z.pos p * 2 ^ (e + 1074))); [lia | lia].
  - rewrite binary_round_val by lia. unfold rnd.
    destruct (Z.eqb_spec (Z.neg p * 2 ^ (e + 1074)) 0); [lia |].
    destruct (Z.ltb_spec 0 (Z.neg p * 2 ^ (e + 1074))); [lia |].
    replace (- (Z.neg p * 2 ^ (e + 1074))) with (Z.pos p * 2 ^ (e + 1074)) by lia. lia.
Qed.

(** Subtraction of finite doubles: the exact difference, rounded. *)
Lemma SF64sub_val (x y : spec_float) :
  valid_binary x = true -> valid_binary y = true ->
  SFfin x = true -> SFfin y = true ->
  SFval (SF64sub x y) = rnd (SFval x - SFval y) (-1074).
Proof.
  destruct x as [sx | sx | | sx mx ex], y as [sy | sy | | sy my ey];
    intros Vx Vy Fx Fy; try discriminate Fx; try discriminate Fy.
  - destruct sx, sy; reflexivity.
  - unfold SF64sub, SFsub. rewrite <- (rnd_exact (negb sy) my ey) by exact Vy.
    f_equal. cbn [SFval]. destruct sy; cbn [negb]; lia.
  - unfold SF64sub, SFsub. rewrite <- (rnd_exact sx mx ex) at 1 by exact Vx.
    f_equal. cbn [SFval]. lia.
  - unfold SF64sub, SFsub. cbv zeta.
    apply valid_finite in Vx as (_ & Hex & _). apply valid_finite in Vy as (_ & Hey & _).
    rewrite binary_normalize_val by lia. f_equal.
    destruct (shl_align_val mx ex (Z.min ex ey)) as [_ ->].
    destruct (shl_align_val my ey (Z.min ex ey)) as [_ ->].
    replace (Z.min ex (Z.min ex ey)) with (Z.min ex ey) by lia.
    replace (Z.min ey (Z.min ex ey)) with (Z.min ex ey) by lia.
    set (ez := Z.min ex ey) in *. cbn [SFval].
    rewrite (pow2_split (ez + 1074) (ex + 1074)) by lia.
    rewrite (pow2_split (ez + 1074) (ey + 1074)) by lia.
    replace (ex + 1074 - (ez + 1074)) with (ex - ez) by lia.
    replace (ey + 1074 - (ez + 1074)) with (ey - ez) by lia.
    unfold cond_Zopp. destruct sx, sy; ring.
Qed.

(** Multiplication of a finite double by a positive normal constant:
    the exact product, rounded. *)
Lemma SF64mul_val (x : spec_float) (my : positive) (ey : Z) :
  valid_binary x = true -> SFfin x = true -> 2 ^ 52 <= Z.pos my ->
  SFval (SF64mul x (S754_finite false my ey)) = rnd (SFval x * Z.pos my) (ey - 1074).
Proof.
  destruct x as [sx | sx | | sx mx ex]; intros Vx Fx Hy; try discriminate Fx.
  - reflexivity.
  - unfold SF64mul, SFmul. rewrite xorb_false_r.
    pose proof (valid_finite_val _ _ _ Vx) as B.
    apply valid_finite in Vx as (_ & Hex & _).
    assert (HD : 53 <= Zdigits2 (Z.pos (mx * my))).
    { pose proof (Zdigits2_bounds (Z.pos (mx * my)) ltac:(lia)) as [_ U].
      pose proof (Zdigits2_pos_digits (Z.pos (mx * my)) ltac:(lia)).
      assert (A : 2 ^ 52 < 2 ^ Zdigits2 (Z.pos (mx * my))) by nia.
      apply Z.pow_lt_mono_r_iff in A; lia. }
    assert (Hpre : ex + ey <= fexp prec emax (Zdigits2 (Z.pos (mx * my)) + (ex + ey))).
    { rewrite fexp_eq. lia. }
    rewrite binary_round_aux_val by (lia || exact Hpre).
    assert (E : rnd_val (Z.pos mx * 2 ^ (ex + 1074) * Z.pos my) (ey - 1074) =
                rnd_val (Z.pos (mx * my)) (ex + ey)).
    { rewrite <- (rnd_val_scale (Z.pos (mx * my)) (ex + ey) (ex + 1074)) by lia.
      f_equal; lia. }
    cbn [SFval]. set (a := Z.pos mx * 2 ^ (ex + 1074)) in *.
    unfold rnd. destruct sx.
    + destruct (Z.eqb_spec (-1 * a * Z.pos my) 0); [nia |].
      destruct (Z.ltb_spec 0 (-1 * a * Z.pos my)); [nia |].
      replace (- (-1 * a * Z.pos my)) with (a * Z.pos my) by lia.
      rewrite E. lia.
    + destruct (Z.eqb_spec (1 * a * Z.pos my) 0); [nia |].
      destruct (Z.ltb_spec 0 (1 * a * Z.pos my)); [| nia].
      rewrite !Z.mul_1_l, E. reflexivity.
Qed.

Lemma SF64mul_comm (x y : spec_float) : SF64mul x y = SF64mul y x.
Proof.
  destruct x as [sx | sx | | sx mx ex], y as [sy | sy | | sy my ey];
    unfold SF64mul, SFmul; try reflexivity; rewrite ?(xorb_comm sx sy); try reflexivity.
  rewrite (Pos.mul_comm mx my), (Z.add_comm ex ey). reflexivity.
Qed.

End RoundToNearest.

(** ** The order of doubles is the order of their values *)

Section ValueOrder.

Local Open Scope Z_scope.
Local Open Scope float_scope.

Lemma mul_comm (x y : float) : x * y = y * x.
Proof. apply Prim2SF_inj. rewrite !FloatAxioms.mul_spec. apply SF64mul_comm. Qed.

(** [<=] and [<] on doubles other than NaN, read on the values. *)
Lemma leb_fval (x y : float) :
  is_nan x = false -> is_nan y = false -> (x <=? y) = (fval x <=? fval y)%Z.
Proof.
  rewrite !is_nan_spec. intros Hx Hy.
  rewrite FloatAxioms.leb_spec. unfold SFleb, fval.
  rewrite SFcompare_val by (apply Prim2SF_valid || assumption).
  unfold Z.leb. destruct (_ ?= _)%Z; reflexivity.
Qed.

Lemma ltb_fval (x y : float) :
  is_nan x = false -> is_nan y = false -> (x <? y) = (fval x <? fval y)%Z.
Proof.
  rewrite !is_nan_spec. intros Hx Hy.
  rewrite FloatAxioms.ltb_spec. unfold SFltb, fval.
  rewrite SFcompare_val by (apply Prim2SF_valid || assumption).
  unfold Z.ltb. destruct (_ ?= _)%Z; reflexivity.
Qed.

Lemma leb_num (x y : float) :
  (x <=? y) = true -> is_nan x = false /\ is_nan y = false.
Proof.
  rewrite FloatAxioms.leb_spec, !is_nan_spec. unfold SFleb. intros H.
  split; intros E; rewrite E in H; [discriminate H |].
  destruct (Prim2SF x); discriminate H.
Qed.

Lemma ltb_num (x y : float) :
  (x <? y) = true -> is_nan x = false /\ is_nan y = false.
Proof. intros H. apply leb_num, ltb_leb, H. Qed.

Lemma SFval_range (x : spec_float) :
  valid_binary x = true -> (- cap <= SFval x <= cap)%Z.
Proof.
  pose proof cap_pos.
  destruct x as [s | s | | s m e]; intros V; cbn [SFval]; try lia.
  - destruct s; lia.
  - pose proof (valid_finite_val _ _ _ V). destruct s; lia.
Qed.

Lemma fval_range (x : float) : (- cap <= fval x <= cap)%Z.
Proof. apply SFval_range, Prim2SF_valid. Qed.

Lemma SFval_fin (x : spec_float) :
  valid_binary x = true -> x <> S754_nan ->
  (- cap < SFval x < cap)%Z -> SFfin x = true.
Proof.
  destruct x as [s | s | | s m e]; intros V N H; try reflexivity; try congruence.
  cbn [SFval] in H. destruct s; lia.
Qed.

Lemma SFval_top (x : spec_float) :
  x <> S754_nan -> SFfin x = false -> SFval x = cap \/ SFval x = (- cap)%Z.
Proof.
  destruct x as [s | s | | s m e]; intros N H; try discriminate H; try congruence.
  cbn [SFval]. destruct s; auto.
Qed.

End ValueOrder.

(** ** Subtraction and multiplication keep the order *)

Section ValueMonotone.

Local Open Scope Z_scope.

Lemma SFfin_val (x : spec_float) :
  valid_binary x = true -> SFfin x = true -> - cap < SFval x < cap.
Proof.
  pose proof cap_pos.
  destruct x as [s | s | | s m e]; intros V F; try discriminate F; cbn [SFval]; [lia |].
  pose proof (valid_finite_val _ _ _ V). destruct s; lia.
Qed.

Lemma SF64sub_inf_l (s : bool) (c : spec_float) :
  SFfin c = true -> SF64sub (S754_infinity s) c = S754_infinity s.
Proof. destruct c; intros F; try discriminate F; reflexivity. Qed.

Lemma SF64sub_inf_r (s : bool) (c : spec_float) :
  SFfin c = true -> SF64sub c (S754_infinity s) = S754_infinity (negb s).
Proof. destruct c; intros F; try discriminate F; reflexivity. Qed.

Lemma SF64sub_mono_l (c x y : spec_float) :
  valid_binary c = true -> valid_binary x = true -> valid_binary y = true ->
  SFfin c = true -> x <> S754_nan -> y <> S754_nan ->
  SFval x <= SFval y ->
  SFval (SF64sub x c) <= SFval (SF64sub y c).
Proof.
  intros Vc Vx Vy Fc Nx Ny H. pose proof cap_pos.
  destruct (SFfin x) eqn:Fx, (SFfin y) eqn:Fy.
  - rewrite !SF64sub_val by assumption. apply rnd_mono; lia.
  - pose proof (SFfin_val x Vx Fx).
    rewrite (SF64sub_val x c) by assumption.
    pose proof (rnd_range (SFval x - SFval c) (-1074)).
    destruct y as [| [] | |]; try discriminate Fy; try congruence; cbn [SFval] in H; [lia |].
    rewrite SF64sub_inf_l by assumption. cbn [SFval]. lia.
  - pose proof (SFfin_val y Vy Fy).
    rewrite (SF64sub_val y c) by assumption.
    pose proof (rnd_range (SFval y - SFval c) (-1074)).
    destruct x as [| [] | |]; try discriminate Fx; try congruence; cbn [SFval] in H; [| lia].
    rewrite SF64sub_inf_l by assumption. cbn [SFval]. lia.
  - destruct x as [| [] | |]; try discriminate Fx; try congruence;
      destruct y as [| [] | |]; try discriminate Fy; try congruence;
      cbn [SFval] in H; try lia;
      rewrite !SF64sub_inf_l by assumption; cbn [SFval]; lia.
Qed.

Lemma SF64sub_anti_r (c x y : spec_float) :
  valid_binary c = true -> valid_binary x = true -> valid_binary y = true ->
  SFfin c = true -> x <> S754_nan -> y <> S754_nan ->
  SFval x <= SFval y ->
  SFval (SF64sub c y) <= SFval (SF64sub c x).
Proof.
  intros Vc Vx Vy Fc Nx Ny H. pose proof cap_pos.
  destruct (SFfin x) eqn:Fx, (SFfin y) eqn:Fy.
  - rewrite !SF64sub_val by assumption. apply rnd_mono; lia.
  - pose proof (SFfin_val x Vx Fx).
    rewrite (SF64sub_val c x) by assumption.
    pose proof (rnd_range (SFval c - SFval x) (-1074)).
    destruct y as [| [] | |]; try discriminate Fy; try congruence; cbn [SFval] in H; [lia |].
    rewrite SF64sub_inf_r by assumption. cbn [SFval negb]. lia.
  - pose proof (SFfin_val y Vy Fy).
    rewrite (SF64sub_val c y) by assumption.
    pose proof (rnd_range (SFval c - SFval y) (-1074)).
    destruct x as [| [] | |]; try discriminate Fx; try congruence; cbn [SFval] in H; [| lia].
    rewrite SF64sub_inf_r by assumption. cbn [SFval negb]. lia.
  - destruct x as [| [] | |]; try discriminate Fx; try congruence;
      destruct y as [| [] | |]; try discriminate Fy; try congruence;
      cbn [SFval] in H; try lia;
      rewrite !SF64sub_inf_r by assumption; cbn [SFval negb]; lia.
Qed.

Lemma SF64mul_mono (c x y : spec_float) :
  valid_binary x = true -> valid_binary y = true ->
  SFscale c = true -> x <> S754_nan -> y <> S754_nan ->
  SFval x <= SFval y ->
  SFval (SF64mul x c) <= SFval (SF64mul y c).
Proof.
  intros Vx Vy Sc Nx Ny H. pose proof cap_pos.
  destruct c as [| | | [] mc ec]; try discriminate Sc. cbn [SFscale] in Sc.
  apply andb_prop in Sc as [S1 S2]. apply Z.leb_le in S1, S2.
  destruct (SFfin x) eqn:Fx, (SFfin y) eqn:Fy.
  - rewrite !SF64mul_val by assumption. apply rnd_mono; [lia |].
    apply Z.mul_le_mono_nonneg_r; lia.
  - pose proof (SFfin_val x Vx Fx).
    rewrite (SF64mul_val x) by assumption.
    pose proof (rnd_range (SFval x * Z.pos mc) (ec - 1074)).
    destruct y as [| [] | |]; try discriminate Fy; try congruence; cbn [SFval] in H; [lia |].
    cbn [SF64mul SFmul SFval xorb]. lia.
  - pose proof (SFfin_val y Vy Fy).
    rewrite (SF64mul_val y) by assumption.
    pose proof (rnd_range (SFval y * Z.pos mc) (ec - 1074)).
    destruct x as [| [] | |]; try discriminate Fx; try congruence; cbn [SFval] in H; [| lia].
    cbn [SF64mul SFmul SFval xorb]. lia.
  - destruct x as [| [] | |]; try discriminate Fx; try congruence;
      destruct y as [| [] | |]; try discriminate Fy; try congruence;
      cbn [SFval] in H; try lia; cbn [SF64mul SFmul SFval xorb]; lia.
Qed.

End ValueMonotone.

(** ** Operations on doubles that keep the order *)

Section Monotone.

Local Open Scope Z_scope.
Local Open Scope float_scope.

Lemma leb_intro (x y : float) :
  is_nan x = false -> is_nan y = false -> (fval x <= fval y)%Z -> (x <=? y) = true.
Proof. intros Hx Hy H. rewrite leb_fval by assumption. apply Z.leb_le, H. Qed.

Lemma leb_elim (x y : float) : (x <=? y) = true -> (fval x <= fval y)%Z.
Proof.
  intros H. destruct (leb_num x y H) as [Hx Hy].
  rewrite leb_fval in H by assumption. apply Z.leb_le, H.
Qed.

(** Subtracting a constant keeps the order; subtracting from a
    constant reverses it; multiplying by a positive constant keeps it.
    Infinite operands are included. *)
Lemma sub_mono_l (c x y : float) :
  SFfin (Prim2SF c) = true -> (x <=? y) = true -> (x - c <=? y - c) = true.
Proof.
  intros Fc H. destruct (leb_num x y H) as [Hx Hy]. apply leb_elim in H.
  apply is_nan_spec in Hx, Hy.
  apply leb_intro.
  - apply is_nan_spec. rewrite FloatAxioms.sub_spec. by apply SF64sub_num.
  - apply is_nan_spec. rewrite FloatAxioms.sub_spec. by apply SF64sub_num.
  - unfold fval. rewrite !FloatAxioms.sub_spec.
    apply SF64sub_mono_l; try apply Prim2SF_valid; assumption.
Qed.

Lemma sub_anti_r (c x y : float) :
  SFfin (Prim2SF c) = true -> (x <=? y) = true -> (c - y <=? c - x) = true.
Proof.
  intros Fc H. destruct (leb_num x y H) as [Hx Hy]. apply leb_elim in H.
  apply is_nan_spec in Hx, Hy.
  assert (Nc : Prim2SF c <> S754_nan) by (by apply SFfin_num).
  assert (A : forall z, Prim2SF z <> S754_nan -> SF64sub (Prim2SF c) (Prim2SF z) <> S754_nan).
  { intros z Hz. destruct (Prim2SF c) as [sc | sc | | sc mc ec]; try discriminate Fc;
      destruct (Prim2SF z) as [sz | sz | | sz mz ez]; try congruence;
      unfold SF64sub, SFsub; try discriminate; try (destruct sc, sz; discriminate).
    apply binary_normalize_num. }
  apply leb_intro.
  - apply is_nan_spec. rewrite FloatAxioms.sub_spec. by apply A.
  - apply is_nan_spec. rewrite FloatAxioms.sub_spec. by apply A.
  - unfold fval. rewrite !FloatAxioms.sub_spec.
    apply SF64sub_anti_r; try apply Prim2SF_valid; assumption.
Qed.

Lemma SFscale_nz (c : spec_float) : SFscale c = true -> SFnz c = true.
Proof. destruct c as [| | | [] m e]; intros H; try discriminate H; reflexivity. Qed.

Lemma mul_mono_r (c x y : float) :
  SFscale (Prim2SF c) = true -> (x <=? y) = true -> (x * c <=? y * c) = true.
Proof.
  intros Sc H. destruct (leb_num x y H) as [Hx Hy]. apply leb_elim in H.
  apply is_nan_spec in Hx, Hy.
  apply leb_intro.
  - apply is_nan_spec. rewrite FloatAxioms.mul_spec.
    apply SF64mul_num; [assumption | by apply SFscale_nz].
  - apply is_nan_spec. rewrite FloatAxioms.mul_spec.
    apply SF64mul_num; [assumption | by apply SFscale_nz].
  - unfold fval. rewrite !FloatAxioms.mul_spec.
    apply SF64mul_mono; try apply Prim2SF_valid; assumption.
Qed.

Lemma mul_mono_l (c x y : float) :
  SFscale (Prim2SF c) = true -> (x <=? y) = true -> (c * x <=? c * y) = true.
Proof. intros Sc H. rewrite (mul_comm c x), (mul_comm c y). by apply mul_mono_r. Qed.

(** [Math.max] of two numbers has the larger value. *)
Lemma Math_max_fval (a b : float) :
  is_nan a = false -> is_nan b = false ->
  is_nan (Math_max a b) = false /\ fval (Math_max a b) = Z.max (fval a) (fval b).
Proof.
  intros Ha Hb. unfold Math_max. rewrite Ha, Hb. cbn [orb].
  rewrite !ltb_fval by assumption.
  destruct (Z.ltb_spec (fval a) (fval b)); [split; [assumption | lia] |].
  destruct (Z.ltb_spec (fval b) (fval a)); [split; [assumption | lia] |].
  destruct (get_sign a); (split; [assumption | lia]).
Qed.

Lemma Math_max_mono (c x y : float) :
  is_nan c = false -> (x <=? y) = true -> (Math_max c x <=? Math_max c y) = true.
Proof.
  intros Hc H. destruct (leb_num x y H) as [Hx Hy]. apply leb_elim in H.
  destruct (Math_max_fval c x Hc Hx) as [N1 E1].
  destruct (Math_max_fval c y Hc Hy) as [N2 E2].
  apply leb_intro; [assumption | assumption | lia].
Qed.

Lemma Math_max_lower (c x : float) :
  is_nan c = false -> is_nan x = false -> (c <=? Math_max c x) = true.
Proof.
  intros Hc Hx. destruct (Math_max_fval c x Hc Hx) as [N1 E1].
  apply leb_intro; [assumption | assumption | lia].
Qed.

Lemma cap_split : cap = (2 ^ 1024 * 2 ^ 1074)%Z.
Proof. unfold cap. rewrite <- Z.pow_add_r by lia. reflexivity. Qed.

Lemma half_up_scaled (n k u : Z) :
  (0 < k <= 1074)%Z -> u = (2 ^ 1074)%Z ->
  ((n + 2 ^ (k - 1)) / 2 ^ k = (2 * (n * 2 ^ (1074 - k)) + u) / (2 * u))%Z.
Proof.
  intros Hk ->.
  assert (P : (0 < 2 ^ (1075 - k))%Z) by (apply pow2_pos; lia).
  assert (E1 : (2 * 2 ^ 1074 = 2 ^ k * 2 ^ (1075 - k))%Z).
  { rewrite <- Z.pow_succ_r, <- Z.pow_add_r by lia. f_equal. lia. }
  assert (E2 : (2 ^ 1074 = 2 ^ (k - 1) * 2 ^ (1075 - k))%Z).
  { rewrite <- Z.pow_add_r by lia. f_equal. lia. }
  assert (E3 : (2 ^ (1075 - k) = 2 * 2 ^ (1074 - k))%Z).
  { rewrite <- Z.pow_succ_r by lia. f_equal. lia. }
  rewrite E1, E2 at 1.
  rewrite <- (Z.div_mul_cancel_r (n + 2 ^ (k - 1)) (2 ^ k) (2 ^ (1075 - k)))
    by (apply Z.neq_sym, Z.lt_neq, pow2_pos; lia).
  f_equal. rewrite E3. ring.
Qed.

(** The nearest integer from the exact value: [floor (x + 1/2)]. *)
Lemma nearest_int_fval (x : float) (u : Z) :
  u = (2 ^ 1074)%Z -> nearest_int x = ((2 * fval x + u) / (2 * u))%Z.
Proof.
  intros Hu. assert (P : (0 < u)%Z) by (subst u; apply pow2_pos; lia).
  assert (Z0 : (u / (2 * u) = 0)%Z) by (apply Z.div_small; lia).
  unfold nearest_int, fval. pose proof (Prim2SF_valid x) as V.
  destruct (Prim2SF x) as [s | s | | s m e]; cbn [SFval].
  - rewrite Z.mul_0_r, Z.add_0_l. by rewrite Z0.
  - rewrite cap_split, <- Hu. set (w := (2 ^ 1024)%Z). destruct s.
    + replace (2 * - (w * u) + u)%Z with (- w * (2 * u) + u)%Z by ring.
      rewrite Z.div_add_l by lia. lia.
    + replace (2 * (w * u) + u)%Z with (w * (2 * u) + u)%Z by ring.
      rewrite Z.div_add_l by lia. lia.
  - rewrite Z.mul_0_r, Z.add_0_l. by rewrite Z0.
  - apply valid_finite in V as (_ & He & _).
    unfold round_half_up. set (n := if s then Z.neg m else Z.pos m).
    replace ((if s then -1 else 1) * (Z.pos m * 2 ^ (e + 1074)))%Z
      with (n * 2 ^ (e + 1074))%Z by (subst n; destruct s; lia).
    destruct e as [| k | k].
    + rewrite Z.shiftl_0_r. change (0 + 1074)%Z with 1074%Z. rewrite <- Hu.
      replace (2 * (n * u) + u)%Z with (n * (2 * u) + u)%Z by ring.
      rewrite Z.div_add_l by lia. lia.
    + rewrite Z.shiftl_mul_pow2 by lia.
      rewrite (Z.pow_add_r 2 (Z.pos k) 1074) by lia. rewrite <- Hu.
      replace (2 * (n * (2 ^ Z.pos k * u)) + u)%Z
        with (n * 2 ^ Z.pos k * (2 * u) + u)%Z by ring.
      rewrite Z.div_add_l by lia. lia.
    + rewrite Z.shiftr_div_pow2, Z.shiftl_mul_pow2, Z.mul_1_l by lia.
      replace (Z.neg k + 1074)%Z with (1074 - Z.pos k)%Z by lia.
      apply half_up_scaled; [lia | exact Hu].
Qed.

Lemma nearest_int_mono (x y : float) :
  (x <=? y) = true -> (nearest_int x <= nearest_int y)%Z.
Proof.
  intros H. apply leb_elim in H.
  rewrite (nearest_int_fval x _ eq_refl), (nearest_int_fval y _ eq_refl).
  set (u := (2 ^ 1074)%Z). assert (P : (0 < u)%Z) by (apply pow2_pos; lia).
  apply Z.div_le_mono; lia.
Qed.

(** On doubles that round to a positive integer below [2^51],
    [Math_round] is that integer. *)
Lemma Math_round_nearest (x : float) :
  (1 <= nearest_int x <= 2 ^ 51)%Z -> Math_round x = of_int (nearest_int x).
Proof.
  unfold nearest_int, Math_round. pose proof (Prim2SF_valid x) as V.
  destruct (Prim2SF x) as [s | s | | s m e]; intros [HL HU]; try lia.
  - exfalso. destruct s; [lia |]. apply (Z.lt_irrefl (2 ^ 51)).
    eapply Z.lt_le_trans; [| exact HU]. apply Z.pow_lt_mono_r; lia.
  - apply valid_finite in V as (_ & He & _ & Hn).
    destruct e as [| k | k].
    + exfalso. pose proof (Hn ltac:(lia)) as Hm. unfold round_half_up in HU, HL.
      rewrite Z.shiftl_0_r in HU, HL. destruct s; lia.
    + exfalso. pose proof (Hn ltac:(lia)) as Hm. unfold round_half_up in HU, HL.
      rewrite Z.shiftl_mul_pow2 in HU, HL by lia.
      pose proof (pow2_pos (Z.pos k) ltac:(lia)). destruct s; nia.
    + cbv zeta. destruct (Z.eqb_spec (round_half_up s m (Z.neg k)) 0); [lia | reflexivity].
Qed.

(** ** The bands *)

Lemma confidenceFromVariance_band (a b : float) :
  confidenceFromVariance a b =
  Math_round (confidence_band (Math_abs (a - b)) * 100) / 100.
Proof. reflexivity. Qed.

(** Each band never rises with the variance. *)
Lemma band1_anti (x y : float) : (x <=? y) = true -> (band1 y <=? band1 x) = true.
Proof.
  intros H. unfold band1. apply sub_anti_r; [reflexivity |].
  apply mul_mono_l; [reflexivity | exact H].
Qed.

Lemma band2_anti (x y : float) : (x <=? y) = true -> (band2 y <=? band2 x) = true.
Proof.
  intros H. unfold band2. apply sub_anti_r; [reflexivity |].
  apply mul_mono_l; [reflexivity |]. apply sub_mono_l; [reflexivity | exact H].
Qed.

Lemma band3_anti (x y : float) : (x <=? y) = true -> (band3 y <=? band3 x) = true.
Proof.
  intros H. unfold band3. apply sub_anti_r; [reflexivity |].
  apply mul_mono_l; [reflexivity |]. apply sub_mono_l; [reflexivity | exact H].
Qed.

Lemma band4_anti (x y : float) : (x <=? y) = true -> (band4 y <=? band4 x) = true.
Proof.
  intros H. unfold band4. apply Math_max_mono; [reflexivity |].
  apply sub_anti_r; [reflexivity |].
  apply mul_mono_l; [reflexivity |]. apply sub_mono_l; [reflexivity | exact H].
Qed.

Lemma percent_mono (c1 c2 : float) :
  (c1 <=? c2) = true -> (percent c1 <= percent c2)%Z.
Proof. intros H. apply nearest_int_mono, mul_mono_r; [reflexivity | exact H]. Qed.

Lemma band4_lower (v : float) : is_nan v = false -> (0.1 <=? band4 v) = true.
Proof.
  intros Hv. unfold band4. apply Math_max_lower; [reflexivity |].
  assert (H : (v <=? v) = true) by (apply leb_intro; [assumption | assumption | lia]).
  pose proof (sub_anti_r 0.5 _ _ eq_refl
                (mul_mono_l 0.005 _ _ eq_refl (sub_mono_l 40 v v eq_refl H))) as H'.
  apply leb_num in H'. apply H'.
Qed.

(** The final division by 100 keeps the order of the hundredths. *)
Lemma hundredths_le_everywhere :
  all_upto 100 (fun n1 => all_upto 100 (hundredths_le_at n1)) = true.
Proof. vm_compute. reflexivity. Qed.

Lemma thresholds :
  (fval 0 = 0 /\ 0 < fval 10 /\ fval 10 < fval 20 /\ fval 20 < fval 40)%Z.
Proof.
  split; [reflexivity |].
  repeat split; apply Z.ltb_lt; rewrite <- ltb_fval; reflexivity.
Qed.

(** The hundredths at the ends of the bands: the bands meet at 90, 70
    and 50 after rounding, although band 3 ends at 0.49999999999999994. *)
Lemma band_percents :
  percent (band1 0) = 100%Z /\ percent (band1 10) = 90%Z /\
  percent (band2 10) = 90%Z /\ percent (band2 20) = 70%Z /\
  percent (band3 20) = 70%Z /\ percent (band3 40) = 50%Z /\
  percent (band4 40) = 50%Z /\ percent 0.1 = 10%Z.
Proof. repeat split; vm_compute; reflexivity. Qed.

Lemma leb_refl_num (v : float) : is_nan v = false -> (v <=? v) = true.
Proof. intros H. apply leb_intro; [assumption | assumption | lia]. Qed.

Lemma confidence_band_cases (v : float) :
  is_nan v = false ->
  ((fval v <= fval 10)%Z /\ confidence_band v = band1 v) \/
  ((fval 10 < fval v <= fval 20)%Z /\ confidence_band v = band2 v) \/
  ((fval 20 < fval v <= fval 40)%Z /\ confidence_band v = band3 v) \/
  ((fval 40 < fval v)%Z /\ confidence_band v = band4 v).
Proof.
  intros Hv. unfold confidence_band.
  rewrite !leb_fval by (assumption || reflexivity).
  destruct (Z.leb_spec (fval v) (fval 10)); [left; split; [assumption | reflexivity] |].
  destruct (Z.leb_spec (fval v) (fval 20)); [right; left; split; [lia | reflexivity] |].
  destruct (Z.leb_spec (fval v) (fval 40)); [right; right; left; split; [lia | reflexivity] |].
  right; right; right. split; [lia | reflexivity].
Qed.

Lemma band1_percent (v : float) :
  is_nan v = false -> (0 <= fval v <= fval 10)%Z ->
  (90 <= percent (band1 v) <= 100)%Z.
Proof.
  intros Hv [H0 H1]. destruct band_percents as (E0 & E10 & _).
  assert (A : (0 <=? v) = true) by (apply leb_intro; [reflexivity | assumption | exact H0]).
  assert (B : (v <=? 10) = true) by (apply leb_intro; [assumption | reflexivity | exact H1]).
  apply band1_anti, percent_mono in A, B. lia.
Qed.

Lemma band2_percent (v : float) :
  is_nan v = false -> (fval 10 <= fval v <= fval 20)%Z ->
  (70 <= percent (band2 v) <= 90)%Z.
Proof.
  intros Hv [H0 H1]. destruct band_percents as (_ & _ & E10 & E20 & _).
  assert (A : (10 <=? v) = true) by (apply leb_intro; [reflexivity | assumption | exact H0]).
  assert (B : (v <=? 20) = true) by (apply leb_intro; [assumption | reflexivity | exact H1]).
  apply band2_anti, percent_mono in A, B. lia.
Qed.

Lemma band3_percent (v : float) :
  is_nan v = false -> (fval 20 <= fval v <= fval 40)%Z ->
  (50 <= percent (band3 v) <= 70)%Z.
Proof.
  intros Hv [H0 H1]. destruct band_percents as (_ & _ & _ & _ & E20 & E40 & _).
  assert (A : (20 <=? v) = true) by (apply leb_intro; [reflexivity | assumption | exact H0]).
  assert (B : (v <=? 40) = true) by (apply leb_intro; [assumption | reflexivity | exact H1]).
  apply band3_anti, percent_mono in A, B. lia.
Qed.

Lemma band4_percent (v : float) :
  is_nan v = false -> (fval 40 <= fval v)%Z ->
  (10 <= percent (band4 v) <= 50)%Z.
Proof.
  intros Hv H0. destruct band_percents as (_ & _ & _ & _ & _ & _ & E40 & E01).
  assert (A : (40 <=? v) = true) by (apply leb_intro; [reflexivity | assumption | exact H0]).
  apply band4_anti, percent_mono in A.
  pose proof (percent_mono _ _ (band4_lower v Hv)). lia.
Qed.

(** The hundredths of a variance: between 10 and 100, and never larger
    for the larger variance. *)
Lemma confidence_band_percent (v : float) :
  is_nan v = false -> (0 <= fval v)%Z ->
  (10 <= percent (confidence_band v) <= 100)%Z.
Proof.
  intros Hv H0. destruct thresholds as (_ & T1 & T2 & T3).
  destruct (confidence_band_cases v Hv) as [[H ->] | [[H ->] | [[H ->] | [H ->]]]].
  - pose proof (band1_percent v Hv ltac:(lia)). lia.
  - pose proof (band2_percent v Hv ltac:(lia)). lia.
  - pose proof (band3_percent v Hv ltac:(lia)). lia.
  - pose proof (band4_percent v Hv ltac:(lia)). lia.
Qed.

Lemma confidence_band_anti (v1 v2 : float) :
  (0 <= fval v1)%Z -> (v1 <=? v2) = true ->
  (percent (confidence_band v2) <= percent (confidence_band v1))%Z.
Proof.
  intros H0 H. destruct (leb_num _ _ H) as [N1 N2].
  pose proof (leb_elim _ _ H) as HV.
  destruct thresholds as (_ & T1 & T2 & T3).
  pose proof (percent_mono _ _ (band1_anti _ _ H)) as A1.
  pose proof (percent_mono _ _ (band2_anti _ _ H)) as A2.
  pose proof (percent_mono _ _ (band3_anti _ _ H)) as A3.
  pose proof (percent_mono _ _ (band4_anti _ _ H)) as A4.
  destruct (confidence_band_cases v1 N1) as [[H1 ->] | [[H1 ->] | [[H1 ->] | [H1 ->]]]];
    destruct (confidence_band_cases v2 N2) as [[H2 ->] | [[H2 ->] | [[H2 ->] | [H2 ->]]]];
    try lia;
    try (pose proof (band1_percent v1 N1 ltac:(lia)));
    try (pose proof (band2_percent v1 N1 ltac:(lia)));
    try (pose proof (band3_percent v1 N1 ltac:(lia)));
    try (pose proof (band2_percent v2 N2 ltac:(lia)));
    try (pose proof (band3_percent v2 N2 ltac:(lia)));
    try (pose proof (band4_percent v2 N2 ltac:(lia)));
    lia.
Qed.

Lemma abs_nonneg (x : float) : (0 <= fval (Math_abs x))%Z.
Proof.
  unfold fval, Math_abs. rewrite FloatAxioms.abs_spec.
  pose proof cap_pos.
  destruct (Prim2SF x) as [s | s | | s m e]; cbn [SFabs SFval]; lia.
Qed.

Lemma confidence_of_band (v : float) :
  is_nan v = false -> (0 <= fval v)%Z ->
  Math_round (confidence_band v * 100) / 100 = hundredths (percent (confidence_band v)).
Proof.
  intros Hv H0. pose proof (confidence_band_percent v Hv H0) as [L U].
  unfold hundredths. f_equal. apply Math_round_nearest. fold (percent (confidence_band v)).
  split; [lia |]. assert (100 <= 2 ^ 51)%Z by (apply Z.leb_le; reflexivity). lia.
Qed.

(** The confidence as a function of the computed variance is
    non-increasing, equal variances included. *)
Lemma confidence_monotone_leb (a1 b1 a2 b2 : float) :
  (Math_abs (a1 - b1) <=? Math_abs (a2 - b2)) = true ->
  geb (confidenceFromVariance a1 b1) (confidenceFromVariance a2 b2) = true.
Proof.
  intros H. unfold geb. rewrite !confidenceFromVariance_band.
  destruct (leb_num _ _ H) as [N1 N2].
  rewrite !confidence_of_band by (assumption || apply abs_nonneg).
  pose proof (confidence_band_anti _ _ (abs_nonneg _) H) as HA.
  pose proof (confidence_band_percent _ N1 (abs_nonneg _)) as B1.
  pose proof (confidence_band_percent _ N2 (abs_nonneg _)) as B2.
  set (n1 := percent (confidence_band (Math_abs (a1 - b1)))) in *.
  set (n2 := percent (confidence_band (Math_abs (a2 - b2)))) in *.
  pose proof (all_scores _ hundredths_le_everywhere n1 n2 ltac:(lia) ltac:(lia)) as T.
  unfold hundredths_le_at in T.
  destruct (Z.leb_spec n2 n1); [exact T | lia].
Qed.

End Monotone.

(** C5.  Confidence monotonicity: for all pairs of scores, whatever
    numbers they are, when the variance [|a1 - b1|] of the first pair is
    below the variance [|a2 - b2|] of the second, the confidence
    returned for the first pair is at least the confidence returned for
    the second: the function never rises with the variance, inside the
    bands, across their boundaries and after the rounding to two
    decimals. *)
Theorem confidence_monotone (a1 b1 a2 b2 : float) :
  (Math_abs (a1 - b1) <? Math_abs (a2 - b2)) = true ->
  geb (confidenceFromVariance a1 b1) (confidenceFromVariance a2 b2) = true.
Proof. intros H. apply confidence_monotone_leb, ltb_leb, H. Qed.

Lemma confidence_monotone_witness :
  geb (confidenceFromVariance 50 29.1) (confidenceFromVariance 50 29) = true.
Proof. apply confidence_monotone. vm_compute. reflexivity. Defined.

(** ** The exact variance *)

Section ExactVariance.

Local Open Scope Z_scope.

Lemma rnd_opp (M e : Z) : rnd (- M) e = - rnd M e.
Proof.
  unfold rnd.
  destruct (Z.eqb_spec M 0) as [-> | HM]; [reflexivity |].
  destruct (Z.eqb_spec (- M) 0); [lia |].
  destruct (Z.ltb_spec 0 M), (Z.ltb_spec 0 (- M)); try lia.
  rewrite Z.opp_involutive. lia.
Qed.

Lemma rnd_abs (M e : Z) : Z.abs (rnd M e) = rnd (Z.abs M) e.
Proof.
  destruct (rnd_sign M e) as [P N].
  destruct (Z.le_ge_cases 0 M).
  - rewrite (Z.abs_eq M), Z.abs_eq by auto. reflexivity.
  - rewrite (Z.abs_neq M), Z.abs_neq, rnd_opp by auto. reflexivity.
Qed.

Lemma SFval_abs (x : spec_float) : SFval (SFabs x) = Z.abs (SFval x).
Proof.
  pose proof cap_pos.
  destruct x as [s | s | | s m e]; cbn [SFabs SFval]; try lia.
  - destruct s; lia.
  - destruct s; lia.
Qed.

Local Open Scope float_scope.

(** The variance the code computes, from the exact difference of two
    finite scores. *)
Lemma variance_fval (a b : float) :
  is_finite a = true -> is_finite b = true ->
  is_nan (Math_abs (a - b)) = false /\
  fval (Math_abs (a - b)) = rnd (Z.abs (fval a - fval b)) (-1074).
Proof.
  intros Fa Fb. apply is_finite_spec in Fa, Fb. split.
  - apply is_nan_spec. unfold Math_abs.
    rewrite FloatAxioms.abs_spec, FloatAxioms.sub_spec.
    pose proof (SF64sub_num (Prim2SF a) (Prim2SF b) (SFfin_num _ Fa) Fb) as N.
    destruct (SF64sub (Prim2SF a) (Prim2SF b)); first [discriminate | congruence].
  - unfold fval, Math_abs. rewrite FloatAxioms.abs_spec, FloatAxioms.sub_spec, SFval_abs.
    rewrite SF64sub_val by (apply Prim2SF_valid || assumption).
    apply rnd_abs.
Qed.

(** Monotonicity in the exact variance [|a - b|] of finite scores:
    rounding the subtraction cannot reverse the order. *)
Lemma confidence_monotone_exact (a1 b1 a2 b2 : float) :
  is_finite a1 = true -> is_finite b1 = true ->
  is_finite a2 = true -> is_finite b2 = true ->
  (Z.abs (fval a1 - fval b1) <= Z.abs (fval a2 - fval b2))%Z ->
  geb (confidenceFromVariance a1 b1) (confidenceFromVariance a2 b2) = true.
Proof.
  intros F1 G1 F2 G2 H.
  destruct (variance_fval a1 b1 F1 G1) as [N1 E1].
  destruct (variance_fval a2 b2 F2 G2) as [N2 E2].
  apply confidence_monotone_leb, leb_intro; [assumption | assumption |].
  rewrite E1, E2. apply rnd_mono; [lia | exact H].
Qed.

End ExactVariance.
